(** * Plinko: physics step, collision resolution and scoring

    A shallow embedding of [plinko-game-final.py].  Python floats are read as
    real numbers ([R]): rounding, infinities and NaN are not modelled, so every
    equation below is an equation of exact arithmetic.  Python integers are [Z]
    (or [nat] for loop counters).  The two operations of the physics code that
    can raise ([/] and [math.sqrt]) are partial, and the calls to [random] read
    from an explicit random source that is threaded through the code. *)

From Stdlib Require Import Reals Lra Lia ZArith List Bool Psatz.
From Stdlib Require String.
Import ListNotations String.StringSyntax.
Delimit Scope string_scope with string.
Open Scope R_scope.

(** ** Global settings (lines 16-56) *)

Definition SCREEN_WIDTH : Z := 800.
Definition SCREEN_HEIGHT : Z := 600.

Definition BALL_RADIUS : R := 12.
Definition GRAVITY : R := 0.4.
Definition MAX_BALL_SPEED : R := 25.
Definition WALL_BOUNCE_FACTOR : R := 0.8.
Definition COLLISION_DAMPING : R := 0.9.

Definition PEG_RADIUS : R := 12.
Definition PEG_SPACING_X : R := 70.
Definition PEG_SPACING_Y : R := 70.
Definition PEG_OFFSET_TOP : R := 80.
Definition NUM_PEG_ROWS : nat := 8.

Definition BOX_COUNT : nat := 5.
Definition BOX_HEIGHT : Z := 80.
Definition BOX_VALUES : list Z := [10; 20; 50; 20; 10]%Z.

Inductive Color : Set :=
| WHITE | BLACK | RED | GREEN | BLUE | YELLOW | CYAN | MAGENTA
| ORANGE | PURPLE | LIGHT_GREY | GRAY | DARK_GREY.

Definition PARTICLE_COUNT_ON_COLLISION : nat := 10.
Definition PARTICLE_LIFETIME : Z := 30.
Definition PARTICLE_SPEED_RANGE : R * R := (1, 4).

(** ** Exceptions *)

Inductive PyError : Set :=
| ZeroDivisionError
| ValueError.

Inductive result (A : Type) : Type :=
| Ok (a : A)
| Raise (e : PyError).
Arguments Ok {A} a.
Arguments Raise {A} e.

(** Float division raises on a zero divisor, [math.sqrt] on a negative
    argument. *)
Definition py_div (a b : R) : result R :=
  if Req_dec_T b 0 then Raise ZeroDivisionError else Ok (a / b).

Definition py_sqrt (a : R) : result R :=
  if Rlt_dec a 0 then Raise ValueError else Ok (sqrt a).

(** ** The random source

    [draw_unit k] is the value the [k]-th call would get from
    [random.random()], [draw_below k n] the index the [k]-th call would get
    when it picks among [n] items; [draws] counts the calls made so far. *)

Module Random.

Record t : Type := Build {
  draw_unit : nat -> R;
  draw_below : nat -> nat -> nat;
  draws : nat
}.

Definition advance (g : t) : t :=
  Build (draw_unit g) (draw_below g) (S (draws g)).

End Random.

(** ** Computations: a random source is threaded, an exception aborts *)

Definition M (A : Type) : Type := Random.t -> result (A * Random.t).

Definition ret {A : Type} (a : A) : M A := fun g => Ok (a, g).

Definition bind {A B : Type} (c : M A) (k : A -> M B) : M B :=
  fun g => match c g with
           | Ok (a, g') => k a g'
           | Raise e => Raise e
           end.

Definition lift {A : Type} (r : result A) : M A :=
  fun g => match r with
           | Ok a => Ok (a, g)
           | Raise e => Raise e
           end.

Notation "x <- c ;; k" := (bind c (fun x => k))
  (at level 61, c at next level, right associativity).
Notation "' pat <- c ;; k" := (bind c (fun v => match v with pat => k end))
  (at level 61, pat pattern, c at next level, right associativity).

(** [random.uniform(a, b)] is [a + (b - a) * random()]. *)
Definition uniform (a b : R) : M R :=
  fun g => Ok (a + (b - a) * Random.draw_unit g (Random.draws g), Random.advance g).

(** [random.choice] on a non-empty literal list. *)
Definition choice {A : Type} (first : A) (others : list A) : M A :=
  fun g =>
    let n := S (length others) in
    Ok (nth (Random.draw_below g (Random.draws g) n mod n) (first :: others) first,
        Random.advance g).

(** [for item in items: body], with the loop state passed along. *)
Fixpoint for_each {A St : Type} (items : list A) (body : A -> St -> M St) (s : St) : M St :=
  match items with
  | [] => ret s
  | item :: rest => s' <- body item s ;; for_each rest body s'
  end.

(** [range(n)] *)
Definition range (n : nat) : list nat := seq 0 n.

Definition clamp (value min_val max_val : Z) : Z :=
  Z.max min_val (Z.min value max_val).

(** ** Particle (lines 82-95) *)

Module Particle.

Record t : Type := Build {
  x : R;
  y : R;
  vx : R;
  vy : R;
  color : Color;
  lifetime : Z
}.

Definition update (self : t) : t :=
  let x1 := x self + vx self in
  let y1 := y self + vy self in
  let vy1 := vy self + 0.1 in
  let lifetime1 := (lifetime self - 1)%Z in
  Build x1 y1 (vx self) vy1 (color self) lifetime1.

End Particle.

(** ** Peg (lines 185-196) *)

Module Peg.

Record t : Type := Build {
  x : R;
  y : R;
  radius : R;
  color : Color;
  particles : list Particle.t
}.

(** [Peg(x, y, radius, color)]: the particle list starts empty. *)
Definition new (x0 y0 radius0 : R) (color0 : Color) : t :=
  Build x0 y0 radius0 color0 [].

Definition set_particles (self : t) (ps : list Particle.t) : t :=
  Build (x self) (y self) (radius self) (color self) ps.

Definition update (self : t) : t :=
  let aged := map Particle.update (particles self) in
  set_particles self (filter (fun p => (0 <? Particle.lifetime p)%Z) aged).

End Peg.

(** ** Ball (lines 103-173) *)

Module Ball.

Record t : Type := Build {
  x : R;
  y : R;
  radius : R;
  color : Color;
  vx : R;
  vy : R;
  finalized : bool
}.

(** [Ball(x, y, radius, color)]: at rest and not finalized. *)
Definition new (x0 y0 radius0 : R) (color0 : Color) : t :=
  Build x0 y0 radius0 color0 0 0 false.

Definition set_pos (self : t) (x1 y1 : R) : t :=
  Build x1 y1 (radius self) (color self) (vx self) (vy self) (finalized self).

Definition set_vel (self : t) (vx1 vy1 : R) : t :=
  Build (x self) (y self) (radius self) (color self) vx1 vy1 (finalized self).

Definition set_finalized (self : t) (f : bool) : t :=
  Build (x self) (y self) (radius self) (color self) (vx self) (vy self) f.

(** Lines 164-173: the burst appended to the peg's own particle list.  One
    colour is drawn for the whole burst; each particle draws a speed and an
    angle. *)
Definition spawn_particle (px py : R) (color_particle : Color)
    (_ : nat) (ps : list Particle.t) : M (list Particle.t) :=
  speed_mag <- uniform (fst PARTICLE_SPEED_RANGE) (snd PARTICLE_SPEED_RANGE) ;;
  angle <- uniform 0 (2 * PI) ;;
  let vx_p := speed_mag * cos angle in
  let vy_p := speed_mag * sin angle in
  ret (ps ++ [Particle.Build px py vx_p vy_p color_particle PARTICLE_LIFETIME]).

(** Lines 145-173. *)
Definition handle_peg_collision (self : t) (peg : Peg.t) : M (t * Peg.t) :=
  let dx := x self - Peg.x peg in
  let dy := y self - Peg.y peg in
  dist_centers <- lift (py_sqrt (dx * dx + dy * dy)) ;;
  let min_dist := radius self + Peg.radius peg in
  if Rlt_dec dist_centers min_dist then
    let overlap := min_dist - dist_centers in
    ' (nx, ny) <-
      (if Req_dec_T dist_centers 0 then ret (1, 0)
       else nx <- lift (py_div dx dist_centers) ;;
            ny <- lift (py_div dy dist_centers) ;;
            ret (nx, ny)) ;;
    let self := set_pos self (x self + nx * overlap) (y self + ny * overlap) in
    let dot := vx self * nx + vy self * ny in
    let self := set_vel self (vx self - 2 * dot * nx * COLLISION_DAMPING) (vy self) in
    let self := set_vel self (vx self) (vy self - 2 * dot * ny * COLLISION_DAMPING) in
    color_particle <- choice WHITE [YELLOW; BLUE; CYAN; MAGENTA] ;;
    ps <- for_each (range PARTICLE_COUNT_ON_COLLISION)
            (spawn_particle (x self) (y self) color_particle) (Peg.particles peg) ;;
    ret (self, Peg.set_particles peg ps)
  else ret (self, peg).

(** Lines 137-139: [for peg in pegs: self.handle_peg_collision(peg)].  The
    pegs already visited are collected, in order, behind [done]. *)
Fixpoint peg_collisions (self : t) (pegs done : list Peg.t) : M (t * list Peg.t) :=
  match pegs with
  | [] => ret (self, done)
  | peg :: rest =>
      ' (self', peg') <- handle_peg_collision self peg ;;
      peg_collisions self' rest (done ++ [peg'])
  end.

(** Lines 114-119: gravity, then the speed clamp. *)
Definition gravity_and_clamp (self : t) : M t :=
  let self := set_vel self (vx self) (vy self + GRAVITY) in
  speed <- lift (py_sqrt (vx self * vx self + vy self * vy self)) ;;
  if Rlt_dec MAX_BALL_SPEED speed then
    factor <- lift (py_div MAX_BALL_SPEED speed) ;;
    let self := set_vel self (vx self * factor) (vy self) in
    ret (set_vel self (vx self) (vy self * factor))
  else ret self.

(** Lines 121-122. *)
Definition integrate (self : t) : t :=
  let self := set_pos self (x self + vx self) (y self) in
  set_pos self (x self) (y self + vy self).

(** Lines 124-130. *)
Definition walls (self : t) : t :=
  if Rlt_dec (x self - radius self) 0 then
    let self := set_pos self (radius self) (y self) in
    set_vel self (- vx self * WALL_BOUNCE_FACTOR) (vy self)
  else if Rlt_dec (IZR SCREEN_WIDTH) (x self + radius self) then
    let self := set_pos self (IZR SCREEN_WIDTH - radius self) (y self) in
    set_vel self (- vx self * WALL_BOUNCE_FACTOR) (vy self)
  else self.

(** Lines 132-135. *)
Definition ceiling (self : t) : t :=
  if Rlt_dec (y self - radius self) 0 then
    let self := set_pos self (x self) (radius self) in
    set_vel self (vx self) (- vy self * WALL_BOUNCE_FACTOR)
  else self.

(** Lines 141-143. *)
Definition check_scoring_zone (self : t) (box_y_top : R) : t :=
  if Rle_dec box_y_top (y self + radius self) then set_finalized self true
  else self.

(** Lines 113-143, in the order of the source. *)
Definition update (self : t) (pegs : list Peg.t) (box_y_top : R) : M (t * list Peg.t) :=
  self <- gravity_and_clamp self ;;
  let self := integrate self in
  let self := walls self in
  let self := ceiling self in
  ' (self, pegs) <- peg_collisions self pegs [] ;;
  ret (check_scoring_zone self box_y_top, pegs).

End Ball.

(** ** Scoring boxes: [pygame.Rect] with integer fields *)

Module Rect.

Record t : Type := Build {
  left : Z;
  top : Z;
  width : Z;
  height : Z
}.

Definition right (r : t) : Z := (left r + width r)%Z.
Definition bottom (r : t) : Z := (top r + height r)%Z.

(** [rect.collidepoint(px, py)]: the right and bottom edges are outside. *)
Definition collidepoint (r : t) (px py : Z) : bool :=
  ((left r <=? px) && (px <? right r) && (top r <=? py) && (py <? bottom r))%Z.

End Rect.

(** ** Button (lines 209-235), without what is only drawn *)

Module Button.

Record t : Type := Build {
  x : Z;
  y : Z;
  w : Z;
  h : Z;
  text : String.string
}.

(** Lines 232-235: the mouse is over the button and its left key is down. *)
Definition is_clicked (self : t) (mx my : Z) (pressed : bool) : bool :=
  Rect.collidepoint (Rect.Build (x self) (y self) (w self) (h self)) mx my && pressed.

End Button.


(** ** Game states (lines 250-255) and the events the play screen reads *)

Inductive GameState : Set :=
| STATE_MENU | STATE_PLAY | STATE_PAUSE | STATE_GAMEOVER
| STATE_HIGHSCORE | STATE_SETTINGS.

(** A left click carries what [pygame.mouse.get_pos()] and
    [pygame.mouse.get_pressed()[0]] answer while it is handled. *)
Inductive Event : Set :=
| KEYDOWN_ESCAPE
| MOUSEBUTTONDOWN_LEFT (mx my : Z) (pressed : bool)
| OTHER_EVENT.

(** What the event queue delivers: [pygame.QUIT], or an event for the screen
    that is showing. *)
Inductive Input : Set :=
| QUIT
| INPUT (event : Event).

(** ** PlinkoGame (lines 260-510) *)

Module PlinkoGame.

Record t : Type := Build {
  state : GameState;
  debug_mode : bool;
  score : Z;
  balls_allowed : Z;
  balls_dropped : Z;
  best_score : Z;
  pegs : list Peg.t;
  balls : list Ball.t;
  boxes : list (Rect.t * Z);
  game_over_reason : String.string
}.

Definition set_state (self : t) (s : GameState) : t :=
  Build s (debug_mode self) (score self) (balls_allowed self) (balls_dropped self)
    (best_score self) (pegs self) (balls self) (boxes self) (game_over_reason self).

Definition set_score (self : t) (n : Z) : t :=
  Build (state self) (debug_mode self) n (balls_allowed self) (balls_dropped self)
    (best_score self) (pegs self) (balls self) (boxes self) (game_over_reason self).

Definition set_balls_dropped (self : t) (n : Z) : t :=
  Build (state self) (debug_mode self) (score self) (balls_allowed self) n
    (best_score self) (pegs self) (balls self) (boxes self) (game_over_reason self).

Definition set_best_score (self : t) (n : Z) : t :=
  Build (state self) (debug_mode self) (score self) (balls_allowed self) (balls_dropped self)
    n (pegs self) (balls self) (boxes self) (game_over_reason self).

Definition set_debug_mode (self : t) (d : bool) : t :=
  Build (state self) d (score self) (balls_allowed self) (balls_dropped self)
    (best_score self) (pegs self) (balls self) (boxes self) (game_over_reason self).

Definition set_balls_allowed (self : t) (n : Z) : t :=
  Build (state self) (debug_mode self) (score self) n (balls_dropped self)
    (best_score self) (pegs self) (balls self) (boxes self) (game_over_reason self).

Definition set_pegs (self : t) (ps : list Peg.t) : t :=
  Build (state self) (debug_mode self) (score self) (balls_allowed self) (balls_dropped self)
    (best_score self) ps (balls self) (boxes self) (game_over_reason self).

Definition set_balls (self : t) (bs : list Ball.t) : t :=
  Build (state self) (debug_mode self) (score self) (balls_allowed self) (balls_dropped self)
    (best_score self) (pegs self) bs (boxes self) (game_over_reason self).

Definition set_boxes (self : t) (bx : list (Rect.t * Z)) : t :=
  Build (state self) (debug_mode self) (score self) (balls_allowed self) (balls_dropped self)
    (best_score self) (pegs self) (balls self) bx (game_over_reason self).

Definition set_game_over_reason (self : t) (s : String.string) : t :=
  Build (state self) (debug_mode self) (score self) (balls_allowed self) (balls_dropped self)
    (best_score self) (pegs self) (balls self) (boxes self) s.

(** Lines 296-299: one peg of a row. *)
Definition place_peg (start_x y_pos : R) (i : nat) (pegs : list Peg.t) : M (list Peg.t) :=
  let x_pos := start_x + INR i * PEG_SPACING_X in
  color <- choice RED [BLUE; GREEN; ORANGE; PURPLE] ;;
  ret (pegs ++ [Peg.new x_pos y_pos PEG_RADIUS color]).

(** Lines 292-299: one row. *)
Definition place_row (row : nat) (pegs : list Peg.t) : M (list Peg.t) :=
  let peg_count := (row + 3)%nat in
  let row_width := (INR peg_count - 1) * PEG_SPACING_X in
  let start_x := (IZR SCREEN_WIDTH - row_width) / 2 in
  let y_pos := PEG_OFFSET_TOP + INR row * PEG_SPACING_Y in
  for_each (range peg_count) (place_peg start_x y_pos) pegs.

(** Lines 289-299. *)
Definition init_pegs (self : t) : M t :=
  pegs <- for_each (range NUM_PEG_ROWS) place_row [] ;;
  ret (set_pegs self pegs).

(** Lines 301-312.  [i % len(BOX_VALUES)] is always a valid index of the
    five-entry table. *)
Definition init_boxes (self : t) : t :=
  let width_per_box := (SCREEN_WIDTH / Z.of_nat BOX_COUNT)%Z in
  set_boxes self
    (map (fun i =>
            let rect := Rect.Build (Z.of_nat i * width_per_box)
                          (SCREEN_HEIGHT - BOX_HEIGHT) width_per_box BOX_HEIGHT in
            let value := nth (i mod length BOX_VALUES) BOX_VALUES 0%Z in
            (rect, value))
         (range BOX_COUNT)).

(** Lines 261-287, without the buttons. *)
Definition new : M t :=
  let self := Build STATE_MENU false 0 25 0 0 [] [] [] String.EmptyString in
  self <- init_pegs self ;;
  ret (init_boxes self).

(** Lines 361-366. *)
Definition reset_game (self : t) : M t :=
  let self := set_score self 0 in
  let self := set_balls_dropped self 0 in
  let self := set_balls self [] in
  let self := set_game_over_reason self String.EmptyString in
  init_pegs self.

(** Line 466: the test a box makes on a ball. *)
Definition box_matches (rect : Rect.t) (ball : Ball.t) : bool :=
  (if Rle_dec (IZR (Rect.left rect)) (Ball.x ball) then true else false)
  && (if Rle_dec (Ball.x ball) (IZR (Rect.right rect)) then true else false)
  && (if Rle_dec (IZR (Rect.top rect)) (Ball.y ball + Ball.radius ball) then true else false).

(** Lines 465-468: the loop over the boxes, left at the first match. *)
Fixpoint score_in_boxes (bxs : list (Rect.t * Z)) (ball : Ball.t) (score0 : Z) : Z :=
  match bxs with
  | [] => score0
  | (rect, value) :: rest =>
      if box_matches rect ball then (score0 + value)%Z
      else score_in_boxes rest ball score0
  end.

(** Lines 464-468. *)
Definition handle_ball_box_score (self : t) (ball : Ball.t) : t :=
  set_score self (score_in_boxes (boxes self) ball (score self)).

(** Lines 449-451: every ball that is not finalized is updated, against the
    pegs as the balls before it left them. *)
Fixpoint update_balls (bs : list Ball.t) (pegs : list Peg.t) (box_y_top : R)
    : M (list Ball.t * list Peg.t) :=
  match bs with
  | [] => ret ([], pegs)
  | ball :: rest =>
      ' (ball', pegs') <-
        (if negb (Ball.finalized ball) then Ball.update ball pegs box_y_top
         else ret (ball, pegs)) ;;
      ' (rest', pegs'') <- update_balls rest pegs' box_y_top ;;
      ret (ball' :: rest', pegs'')
  end.

(** Lines 444-462. *)
Definition update_play (self : t) : M t :=
  let self := set_pegs self (map Peg.update (pegs self)) in
  let box_y_top := IZR (SCREEN_HEIGHT - BOX_HEIGHT) in
  ' (bs, pegs1) <- update_balls (balls self) (pegs self) box_y_top ;;
  let self := set_balls (set_pegs self pegs1) bs in
  let finalized_balls := filter Ball.finalized (balls self) in
  let self := fold_left handle_ball_box_score finalized_balls self in
  let self := set_balls self (filter (fun b => negb (Ball.finalized b)) (balls self)) in
  if ((balls_dropped self =? balls_allowed self)%Z
      && (length (balls self) =? 0)%nat)%bool then
    let self := set_game_over_reason self "All Balls Used"%string in
    let self := if (best_score self <? score self)%Z
                then set_best_score self (score self) else self in
    ret (set_state self STATE_GAMEOVER)
  else ret self.

(** The pause button of line 353, as the rectangle [is_clicked] tests. *)
Definition pause_button_rect : Rect.t := Rect.Build (SCREEN_WIDTH - 50) 10 30 40.

(** Lines 232-235, for the pause button. *)
Definition pause_button_is_clicked (mx my : Z) (pressed : bool) : bool :=
  Rect.collidepoint pause_button_rect mx my && pressed.

(** Lines 495-510. *)
Definition handle_play_events (self : t) (event : Event) : M t :=
  match event with
  | KEYDOWN_ESCAPE => ret (set_state self STATE_PAUSE)
  | MOUSEBUTTONDOWN_LEFT mx my pressed =>
      if pause_button_is_clicked mx my pressed then ret (set_state self STATE_PAUSE)
      else if (balls_dropped self <? balls_allowed self)%Z then
        let spawn_y := 30 in
        color <- choice WHITE [YELLOW; BLUE; CYAN; MAGENTA] ;;
        let ball := Ball.new (IZR mx) spawn_y BALL_RADIUS color in
        v <- uniform (-2) 2 ;;
        let ball := Ball.set_vel ball v (Ball.vy ball) in
        let self := set_balls self (balls self ++ [ball]) in
        ret (set_balls_dropped self (balls_dropped self + 1))
      else ret self
  | OTHER_EVENT => ret self
  end.

(** Lines 368-380: only the play screen has an update of its own. *)
Definition update (self : t) : M t :=
  match state self with
  | STATE_PLAY => update_play self
  | _ => ret self
  end.

(** Lines 314-359: the buttons.  [init_buttons] fills the lists once, from
    constants, and nothing writes them afterwards. *)
Definition menu_buttons : list Button.t :=
  [ Button.Build (SCREEN_WIDTH / 2 - 75) 270 150 50 "Play";
    Button.Build (SCREEN_WIDTH / 2 - 75) 340 150 50 "High Scores";
    Button.Build (SCREEN_WIDTH / 2 - 75) 410 150 50 "Settings";
    Button.Build (SCREEN_WIDTH / 2 - 75) 480 150 50 "Exit" ]%string.

Definition pause_buttons : list Button.t :=
  [ Button.Build (SCREEN_WIDTH / 2 - 75) 250 150 50 "Resume";
    Button.Build (SCREEN_WIDTH / 2 - 75) 320 150 50 "Settings";
    Button.Build (SCREEN_WIDTH / 2 - 75) 390 150 50 "Main Menu" ]%string.

Definition gameover_buttons : list Button.t :=
  [ Button.Build (SCREEN_WIDTH / 2 - 75) 400 150 50 "Main Menu" ]%string.

Definition highscore_buttons : list Button.t :=
  [ Button.Build (SCREEN_WIDTH / 2 - 75) 500 150 50 "Main Menu" ]%string.

Definition settings_buttons : list Button.t :=
  [ Button.Build (SCREEN_WIDTH / 2 - 100) 200 200 50 "Toggle Debug";
    Button.Build (SCREEN_WIDTH / 2 - 125) 260 75 50 "Balls -";
    Button.Build (SCREEN_WIDTH / 2 + 50) 260 75 50 "Balls +";
    Button.Build (SCREEN_WIDTH / 2 - 100) 320 200 50 "Back" ]%string.

(** [buttons[i].is_clicked()]; every index the handlers use is in range. *)
Definition clicked (buttons : list Button.t) (i : nat) (mx my : Z) (pressed : bool) : bool :=
  match nth_error buttons i with
  | Some button => Button.is_clicked button mx my pressed
  | None => false
  end.

(** Lines 244-245. *)
Definition toggle_debug (self : t) : t :=
  set_debug_mode self (negb (debug_mode self)).

(** What a handler leaves: the game, or nothing after [sys.exit()]. *)
Inductive Outcome : Type :=
| Running (game : t)
| Exited.

(** Lines 428-439. *)
Definition handle_menu_events (self : t) (event : Event) : M Outcome :=
  match event with
  | MOUSEBUTTONDOWN_LEFT mx my pressed =>
      if clicked menu_buttons 0 mx my pressed then
        self <- reset_game self ;;
        ret (Running (set_state self STATE_PLAY))
      else if clicked menu_buttons 1 mx my pressed then
        ret (Running (set_state self STATE_HIGHSCORE))
      else if clicked menu_buttons 2 mx my pressed then
        ret (Running (set_state self STATE_SETTINGS))
      else if clicked menu_buttons 3 mx my pressed then ret Exited
      else ret (Running self)
  | _ => ret (Running self)
  end.

(** Lines 529-540. *)
Definition handle_pause_events (self : t) (event : Event) : t :=
  match event with
  | KEYDOWN_ESCAPE => set_state self STATE_PLAY
  | MOUSEBUTTONDOWN_LEFT mx my pressed =>
      if clicked pause_buttons 0 mx my pressed then set_state self STATE_PLAY
      else if clicked pause_buttons 1 mx my pressed then set_state self STATE_SETTINGS
      else if clicked pause_buttons 2 mx my pressed then set_state self STATE_MENU
      else self
  | OTHER_EVENT => self
  end.

(** Lines 560-563. *)
Definition handle_gameover_events (self : t) (event : Event) : t :=
  match event with
  | MOUSEBUTTONDOWN_LEFT mx my pressed =>
      if clicked gameover_buttons 0 mx my pressed then set_state self STATE_MENU
      else self
  | _ => self
  end.

(** Lines 586-589. *)
Definition handle_highscore_events (self : t) (event : Event) : t :=
  match event with
  | MOUSEBUTTONDOWN_LEFT mx my pressed =>
      if clicked highscore_buttons 0 mx my pressed then set_state self STATE_MENU
      else self
  | _ => self
  end.

(** Lines 621-631. *)
Definition handle_settings_events (self : t) (event : Event) : t :=
  match event with
  | MOUSEBUTTONDOWN_LEFT mx my pressed =>
      if clicked settings_buttons 0 mx my pressed then toggle_debug self
      else if clicked settings_buttons 1 mx my pressed then
        set_balls_allowed self (clamp (balls_allowed self - 1) 1 50)
      else if clicked settings_buttons 2 mx my pressed then
        set_balls_allowed self (clamp (balls_allowed self + 1) 1 50)
      else if clicked settings_buttons 3 mx my pressed then set_state self STATE_MENU
      else self
  | _ => self
  end.

(** Lines 399-414: one event of the queue, sent to the screen that shows. *)
Definition handle_event (self : t) (input : Input) : M Outcome :=
  match input with
  | QUIT => ret Exited
  | INPUT event =>
      match state self with
      | STATE_MENU => handle_menu_events self event
      | STATE_PLAY => self <- handle_play_events self event ;; ret (Running self)
      | STATE_PAUSE => ret (Running (handle_pause_events self event))
      | STATE_GAMEOVER => ret (Running (handle_gameover_events self event))
      | STATE_HIGHSCORE => ret (Running (handle_highscore_events self event))
      | STATE_SETTINGS => ret (Running (handle_settings_events self event))
      end
  end.

(** Lines 397-414: the whole queue, in order; [sys.exit()] ends it. *)
Fixpoint handle_events (self : t) (queue : list Input) : M Outcome :=
  match queue with
  | [] => ret (Running self)
  | input :: rest =>
      outcome <- handle_event self input ;;
      match outcome with
      | Running self' => handle_events self' rest
      | Exited => ret Exited
      end
  end.

(** Lines 637-640, one turn of the loop of [main], without the drawing. *)
Definition frame (self : t) (queue : list Input) : M Outcome :=
  outcome <- handle_events self queue ;;
  match outcome with
  | Running self' => self'' <- update self' ;; ret (Running self'')
  | Exited => ret Exited
  end.

(** Lines 633-640: the loop of [main], over the queues of successive frames. *)
Fixpoint main_loop (self : t) (queues : list (list Input)) : M Outcome :=
  match queues with
  | [] => ret (Running self)
  | queue :: rest =>
      outcome <- frame self queue ;;
      match outcome with
      | Running self' => main_loop self' rest
      | Exited => ret Exited
      end
  end.

(** Lines 633-634 and on: a fresh game, then the loop. *)
Definition main (queues : list (list Input)) : M Outcome :=
  game <- new ;; main_loop game queues.

End PlinkoGame.

(** ** Vocabulary of the statements *)

(** Distance between the centres of a ball and a peg (lines 146-148). *)
Definition dist_centers (b : Ball.t) (p : Peg.t) : R :=
  sqrt ((Ball.x b - Peg.x p) * (Ball.x b - Peg.x p)
        + (Ball.y b - Peg.y p) * (Ball.y b - Peg.y p)).

Definition min_dist (b : Ball.t) (p : Peg.t) : R := Ball.radius b + Peg.radius p.

(** The test of line 150. *)
Definition overlapping (b : Ball.t) (p : Peg.t) : Prop := dist_centers b p < min_dist b p.

(** The collision normal of lines 152-157. *)
Definition collision_normal (b : Ball.t) (p : Peg.t) : R * R :=
  if Req_dec_T (dist_centers b p) 0 then (1, 0)
  else ((Ball.x b - Peg.x p) / dist_centers b p, (Ball.y b - Peg.y p) / dist_centers b p).

Definition dot2 (u v : R * R) : R := fst u * fst v + snd u * snd v.

Definition velocity (b : Ball.t) : R * R := (Ball.vx b, Ball.vy b).

Definition speed (b : Ball.t) : R := sqrt (Ball.vx b * Ball.vx b + Ball.vy b * Ball.vy b).

(** The direction along the contact, at a right angle to [n]. *)
Definition tangent (n : R * R) : R * R := (- snd n, fst n).

(** The ball a resolved collision leaves (lines 151-162). *)
Definition bounced (b : Ball.t) (p : Peg.t) : Ball.t :=
  let n := collision_normal b p in
  let overlap := min_dist b p - dist_centers b p in
  let dot := dot2 (velocity b) n in
  Ball.Build (Ball.x b + fst n * overlap) (Ball.y b + snd n * overlap)
    (Ball.radius b) (Ball.color b)
    (Ball.vx b - 2 * dot * fst n * COLLISION_DAMPING)
    (Ball.vy b - 2 * dot * snd n * COLLISION_DAMPING)
    (Ball.finalized b).

(** A burst of [PARTICLE_COUNT_ON_COLLISION] fresh particles at a point. *)
Definition is_burst (px py : R) (burst : list Particle.t) : Prop :=
  length burst = PARTICLE_COUNT_ON_COLLISION
  /\ Forall (fun q => Particle.lifetime q = PARTICLE_LIFETIME
                      /\ Particle.x q = px /\ Particle.y q = py) burst.

(** The bounce as the specification words it: the velocity is mirrored about
    the normal, [v - 2*(v.n)*n], and the component of the mirrored velocity
    along the normal is then scaled by the damping factor, the rest of it
    kept. *)
Definition spec_reflect (v n : R * R) : R * R :=
  (fst v - 2 * dot2 v n * fst n, snd v - 2 * dot2 v n * snd n).

Definition spec_bounce (v n : R * R) : R * R :=
  let r := spec_reflect v n in
  let along := dot2 r n in
  (fst r - along * fst n + COLLISION_DAMPING * along * fst n,
   snd r - along * snd n + COLLISION_DAMPING * along * snd n).

(** The ball is between the side walls. *)
Definition in_walls (b : Ball.t) : Prop :=
  Ball.radius b <= Ball.x b <= IZR SCREEN_WIDTH - Ball.radius b.

(** A peg far enough from both side walls that a ball of radius [r] resting
    against it is still between them. *)
Definition peg_clear_of_walls (r : R) (p : Peg.t) : Prop :=
  r + (r + Peg.radius p) <= Peg.x p <= IZR SCREEN_WIDTH - r - (r + Peg.radius p).

(** The only change a ball's step makes to a peg: particles with a full
    lifetime are appended to its list. *)
Definition peg_gains (p p' : Peg.t) : Prop :=
  exists extra,
    p' = Peg.set_particles p (Peg.particles p ++ extra)
    /\ Forall (fun q => Particle.lifetime q = PARTICLE_LIFETIME) extra.

(** The peg layout of lines 291-299: where peg [i] of row [row] is put. *)
Definition row_start_x (row : nat) : R :=
  (IZR SCREEN_WIDTH - (INR (row + 3) - 1) * PEG_SPACING_X) / 2.

Definition row_y (row : nat) : R := PEG_OFFSET_TOP + INR row * PEG_SPACING_Y.

(** [p] is a fresh peg, of some colour, at place [i] of row [row]. *)
Definition peg_at (row i : nat) (p : Peg.t) : Prop :=
  exists c, p = Peg.new (row_start_x row + INR i * PEG_SPACING_X) (row_y row) PEG_RADIUS c.

(** [pegs] is row [row]: one fresh peg for each of the [row + 3] places. *)
Definition row_of (row : nat) (pegs : list Peg.t) : Prop :=
  Forall2 (peg_at row) (range (row + 3)) pegs.

(** [pegs] is the whole layout: the rows [0 .. NUM_PEG_ROWS - 1], in order. *)
Definition triangular (pegs : list Peg.t) : Prop :=
  exists rows, pegs = concat rows /\ Forall2 row_of (range NUM_PEG_ROWS) rows.

(** A row is centred when each peg and its mirror image, counted from the
    other end, are equally far from the middle of the playfield. *)
Definition centered (row_pegs : list Peg.t) : Prop :=
  forall i p q,
    nth_error row_pegs i = Some p ->
    nth_error row_pegs (length row_pegs - 1 - i) = Some q ->
    Peg.x p + Peg.x q = IZR SCREEN_WIDTH.

(** The top of the scoring strip (line 448). *)
Definition scoring_top : R := IZR (SCREEN_HEIGHT - BOX_HEIGHT).

(** What the pass over the balls (lines 449-451) does to one of them, given
    the pegs the pass started with. *)
Definition ball_stepped (pegs : list Peg.t) (b b' : Ball.t) : Prop :=
  Ball.radius b' = Ball.radius b
  /\ (Ball.finalized b = true -> b' = b)
  /\ (Ball.finalized b = false ->
      speed b' <= MAX_BALL_SPEED
      /\ (2 * Ball.radius b <= IZR SCREEN_WIDTH ->
          Forall (peg_clear_of_walls (Ball.radius b)) pegs -> in_walls b')).

(** The score after the balls [bs] have each been offered to the boxes. *)
Definition score_after (bxs : list (Rect.t * Z)) (bs : list Ball.t) (score0 : Z) : Z :=
  fold_left (fun s b => PlinkoGame.score_in_boxes bxs b s) bs score0.

(** The states a game can be in.  A game starts from [PlinkoGame()], and is
    changed by [reset_game], by the events of the play screen, by
    [update_play], and by the menu, pause and settings handlers (lines
    428-439, 529-540, 560-563, 586-589, 621-631), which besides calling
    [reset_game] write only [state], [debug_mode] and [balls_allowed]. *)
Inductive reachable : PlinkoGame.t -> Prop :=
| reach_new g game g' :
    PlinkoGame.new g = Ok (game, g') -> reachable game
| reach_reset game g game' g' :
    reachable game -> PlinkoGame.reset_game game g = Ok (game', g') -> reachable game'
| reach_event game event g game' g' :
    reachable game -> PlinkoGame.handle_play_events game event g = Ok (game', g') ->
    reachable game'
| reach_update game g game' g' :
    reachable game -> PlinkoGame.update_play game g = Ok (game', g') -> reachable game'
| reach_ui game s d n :
    reachable game ->
    reachable (PlinkoGame.set_state
                 (PlinkoGame.set_debug_mode (PlinkoGame.set_balls_allowed game n) d) s).

(** What every reachable game satisfies. *)
Definition board_ok (game : PlinkoGame.t) : Prop :=
  Forall (peg_clear_of_walls BALL_RADIUS) (PlinkoGame.pegs game)
  /\ Forall (fun b => Ball.radius b = BALL_RADIUS /\ Ball.finalized b = false)
       (PlinkoGame.balls game)
  /\ PlinkoGame.boxes game = PlinkoGame.boxes (PlinkoGame.init_boxes game).

(** One round in the life of a peg during play: [Peg.update] (line 446), and
    then whatever the balls of that step append to its particles ([add], empty
    when no ball hits the peg). *)
Definition peg_round (add : list Particle.t) (peg : Peg.t) : Peg.t :=
  let peg := Peg.update peg in
  Peg.set_particles peg (Peg.particles peg ++ add).

(** Several rounds, one per entry of [adds]. *)
Definition peg_rounds (adds : list (list Particle.t)) (peg : Peg.t) : Peg.t :=
  fold_left (fun pg add => peg_round add pg) adds peg.

(** [k] rounds in which nothing is appended. *)
Definition quiet_rounds (k : nat) (peg : Peg.t) : Peg.t :=
  peg_rounds (repeat [] k) peg.

(** The layout in the words of its description: the pegs are the rows
    [0 .. NUM_PEG_ROWS - 1] one after the other; row [r] has exactly [r + 3]
    pegs and is centred; its peg [i] is a peg of radius [PEG_RADIUS] without
    particles, [i] spacings right of the row's start and [r] spacings below
    the top offset. *)
Definition galton_layout (pegs : list Peg.t) : Prop :=
  exists rows,
    pegs = concat rows
    /\ length rows = NUM_PEG_ROWS
    /\ forall r row,
         nth_error rows r = Some row ->
         length row = (r + 3)%nat
         /\ centered row
         /\ (forall i pg,
                nth_error row i = Some pg ->
                Peg.x pg = (IZR SCREEN_WIDTH - (INR (r + 3) - 1) * PEG_SPACING_X) / 2
                           + INR i * PEG_SPACING_X
                /\ Peg.y pg = PEG_OFFSET_TOP + INR r * PEG_SPACING_Y
                /\ Peg.radius pg = PEG_RADIUS
                /\ Peg.particles pg = []).

(** Every particle of every peg has between one and [PARTICLE_LIFETIME] steps
    left. *)
Definition particles_live (pegs : list Peg.t) : Prop :=
  Forall (fun pg =>
            Forall (fun q => (0 < Particle.lifetime q <= PARTICLE_LIFETIME)%Z)
              (Peg.particles pg))
    pegs.

(** Two pegs at the same place and of the same size. *)
Definition same_place (p q : Peg.t) : Prop :=
  Peg.x p = Peg.x q /\ Peg.y p = Peg.y q /\ Peg.radius p = Peg.radius q.

(** A peg of the standard size at a height the layout uses: one of the rows
    down to [y = 500], or the last row at [y = 570]. *)
Definition peg_on_board (p : Peg.t) : Prop :=
  Peg.radius p = PEG_RADIUS
  /\ 85 <= Peg.x p <= 715
  /\ 80 <= Peg.y p
  /\ (Peg.y p <= 500 \/ Peg.y p = 570).

(** What the pass over the balls does to one ball of the standard size that
    was above the scoring strip, as far as its height goes. *)
Definition ball_region (b b' : Ball.t) : Prop :=
  (Ball.finalized b = true -> b' = b)
  /\ (Ball.finalized b = false ->
      BALL_RADIUS <= Ball.y b' < 546
      /\ (Ball.finalized b' = true <-> scoring_top <= Ball.y b' + Ball.radius b')).

(** What a ball's step does to a peg, the last row set apart: particles may be
    appended, but not to a peg below [y = 500]. *)
Definition peg_gains_above (p p' : Peg.t) : Prop :=
  peg_gains p p' /\ (500 < Peg.y p -> p' = p).

(** What, beyond [board_ok], every reachable game satisfies. *)
Definition field_ok (game : PlinkoGame.t) : Prop :=
  Forall (fun b => BALL_RADIUS <= Ball.y b /\ Ball.y b + Ball.radius b < scoring_top)
    (PlinkoGame.balls game)
  /\ Forall peg_on_board (PlinkoGame.pegs game)
  /\ Forall (fun p => 500 < Peg.y p -> Peg.particles p = []) (PlinkoGame.pegs game).

(** Two games that agree on everything the play step reads except the random
    source, the colours and the particles. *)
Definition same_play (a b : PlinkoGame.t) : Prop :=
  PlinkoGame.state a = PlinkoGame.state b
  /\ PlinkoGame.score a = PlinkoGame.score b
  /\ PlinkoGame.balls_allowed a = PlinkoGame.balls_allowed b
  /\ PlinkoGame.balls_dropped a = PlinkoGame.balls_dropped b
  /\ PlinkoGame.best_score a = PlinkoGame.best_score b
  /\ PlinkoGame.balls a = PlinkoGame.balls b
  /\ PlinkoGame.boxes a = PlinkoGame.boxes b
  /\ Forall2 same_place (PlinkoGame.pegs a) (PlinkoGame.pegs b).

(** The games of a session: what [main] has reached after some frames, for
    some queues of events and some random source. *)
Definition in_session (game : PlinkoGame.t) : Prop :=
  exists queues g g', PlinkoGame.main queues g = Ok (PlinkoGame.Running game, g').

(** What every game of a session satisfies. *)
Definition session_ok (game : PlinkoGame.t) : Prop :=
  reachable game
  /\ (1 <= PlinkoGame.balls_allowed game <= 50)%Z
  /\ (0 <= PlinkoGame.balls_dropped game)%Z
  /\ (Z.of_nat (length (PlinkoGame.balls game)) <= PlinkoGame.balls_dropped game)%Z
  /\ (0 <= PlinkoGame.score game)%Z
  /\ (0 <= PlinkoGame.best_score game)%Z
  /\ (PlinkoGame.state game = STATE_PLAY \/ PlinkoGame.state game = STATE_PAUSE ->
      (PlinkoGame.balls_dropped game <= PlinkoGame.balls_allowed game)%Z)
  /\ (PlinkoGame.state game = STATE_GAMEOVER ->
      PlinkoGame.balls game = []
      /\ (PlinkoGame.score game <= PlinkoGame.best_score game)%Z
      /\ PlinkoGame.balls_dropped game = PlinkoGame.balls_allowed game).

(** [n] successive steps of one ball: [Ball.update] again and again, with
    the pegs as the step before left them. *)
Fixpoint ball_steps (n : nat) (b : Ball.t) (pegs : list Peg.t) (box_y_top : R)
    : M (Ball.t * list Peg.t) :=
  match n with
  | O => ret (b, pegs)
  | S n' =>
      ' (b', pegs') <- Ball.update b pegs box_y_top ;;
      ball_steps n' b' pegs' box_y_top
  end.

(** A game whose single allowed ball has been dropped against the left wall
    and has fallen for [n] steps. *)
Definition falling (n : nat) (game : PlinkoGame.t) : Prop :=
  reachable game
  /\ PlinkoGame.state game = STATE_PLAY
  /\ PlinkoGame.balls_allowed game = 1%Z
  /\ PlinkoGame.balls_dropped game = 1%Z
  /\ PlinkoGame.score game = 0%Z
  /\ exists b,
       PlinkoGame.balls game = [b]
       /\ Ball.x b = 12 /\ Ball.vx b = 0
       /\ Ball.vy b = 0.4 * INR n
       /\ Ball.y b = 30 + 0.2 * INR n * (INR n + 1)
       /\ Ball.radius b = BALL_RADIUS
       /\ Ball.finalized b = false.

(** A game whose only ball has been dropped above the middle peg of the first
    row and has fallen for [n] steps. *)
Definition dropping (n : nat) (game : PlinkoGame.t) : Prop :=
  reachable game
  /\ exists b,
       PlinkoGame.balls game = [b]
       /\ Ball.x b = 400 /\ Ball.vx b = 0
       /\ Ball.vy b = 0.4 * INR n
       /\ Ball.y b = 30 + 0.2 * INR n * (INR n + 1)
       /\ Ball.radius b = BALL_RADIUS
       /\ Ball.finalized b = false.

(** A game whose only ball is one step away from the middle peg of the first
    row: the ball is at [(400, 52)], falling at 4 per step, and the list of
    pegs starts with the pegs at [(330, 80)] and [(400, 80)]. *)
Definition poised (game : PlinkoGame.t) : Prop :=
  exists b p0 p1 rest,
    PlinkoGame.balls game = [b]
    /\ Ball.x b = 400 /\ Ball.y b = 52 /\ Ball.vx b = 0 /\ Ball.vy b = 4
    /\ Ball.radius b = BALL_RADIUS /\ Ball.finalized b = false
    /\ PlinkoGame.pegs game = p0 :: p1 :: rest
    /\ Peg.x p0 = 330 /\ Peg.y p0 = 80 /\ Peg.radius p0 = PEG_RADIUS
    /\ Peg.x p1 = 400 /\ Peg.y p1 = 80 /\ Peg.radius p1 = PEG_RADIUS.

(** The same peg in another colour, carrying one particle. *)
Definition repainted (p : Peg.t) : Peg.t :=
  Peg.Build (Peg.x p) (Peg.y p) (Peg.radius p) BLUE
    [Particle.Build 0 0 0 1 YELLOW 30].

(** ** Concrete inputs used below *)

(** A random source whose every draw is zero. *)
Definition quiet_random : Random.t := Random.Build (fun _ => 0) (fun _ _ => 0%nat) 0.

(** A peg of the standard radius at the origin, without particles. *)
Definition origin_peg : Peg.t := Peg.new 0 0 PEG_RADIUS RED.

(** A ball 10 to the right of [origin_peg], moving straight at it. *)
Definition head_on_ball : Ball.t :=
  Ball.Build 10 0 BALL_RADIUS WHITE (-10) 0 false.

(** A ball at the same place, moving along the contact line. *)
Definition grazing_ball : Ball.t :=
  Ball.Build 10 0 BALL_RADIUS WHITE 0 5 false.


(** The game as [__init__] has it before the pegs and boxes are made. *)
Definition blank_game : PlinkoGame.t :=
  PlinkoGame.Build STATE_MENU false 0 25 0 0 [] [] [] String.EmptyString.

(** A ball that has already been finalized, at the top of the scoring strip. *)
Definition parked_ball : Ball.t :=
  Ball.Build 400 520 BALL_RADIUS WHITE 3 4 true.

(** A game without pegs whose only ball is [parked_ball]. *)
Definition parked_game : PlinkoGame.t :=
  PlinkoGame.set_balls (PlinkoGame.init_boxes blank_game) [parked_ball].

(** A finalized ball on the edge that the first and the second box share. *)
Definition edge_ball : Ball.t :=
  Ball.Build 160 510 BALL_RADIUS WHITE 0 5 true.

(** A particle with three steps to live, between two others. *)
Definition short_particle : Particle.t := Particle.Build 0 0 1 0 WHITE 3.
Definition long_particle : Particle.t := Particle.Build 0 0 0 1 YELLOW 30.
Definition busy_peg : Peg.t :=
  Peg.Build 400 80 PEG_RADIUS RED [long_particle; short_particle; long_particle].

(** A random source whose unit draws are all one half and whose index draws
    count up. *)
Definition loud_random : Random.t := Random.Build (fun _ => 0.5) (fun k _ => k) 7.

(** The events of one frame: a click on Play, two clicks that each drop a
    ball, and Escape. *)
Definition paused_queue : list Input :=
  [ INPUT (MOUSEBUTTONDOWN_LEFT 400 290 true);
    INPUT (MOUSEBUTTONDOWN_LEFT 400 300 true);
    INPUT (MOUSEBUTTONDOWN_LEFT 200 300 true);
    INPUT KEYDOWN_ESCAPE ].

(** A ball at rest against the left wall, at the height balls are dropped
    from. *)
Definition wall_ball : Ball.t := Ball.Build 12 30 BALL_RADIUS WHITE 0 0 false.

(** The leftmost peg of the layout, in the last row. *)
Definition corner_peg : Peg.t := Peg.new 85 570 PEG_RADIUS RED.

(** The events of one frame: Settings, "Balls -" 24 times (the budget drops
    from 25 to 1), Back, Play, and one click at [x = 12]. *)
Definition budget_one_queue : list Input :=
  [INPUT (MOUSEBUTTONDOWN_LEFT 400 430 true)]
  ++ repeat (INPUT (MOUSEBUTTONDOWN_LEFT 300 280 true)) 24
  ++ [ INPUT (MOUSEBUTTONDOWN_LEFT 400 340 true);
       INPUT (MOUSEBUTTONDOWN_LEFT 400 290 true);
       INPUT (MOUSEBUTTONDOWN_LEFT 12 300 true) ].

(** A game on the play screen: the boxes, no peg and no ball yet. *)
Definition fresh_play : PlinkoGame.t :=
  PlinkoGame.set_state (PlinkoGame.init_boxes blank_game) STATE_PLAY.

(** ** Running the computations *)

Lemma bind_ok {A B : Type} (c : M A) (k : A -> M B) g a g1 :
  c g = Ok (a, g1) -> bind c k g = k a g1.
Proof. intros H. unfold bind. now rewrite H. Qed.

Lemma py_sqrt_ok a : 0 <= a -> py_sqrt a = Ok (sqrt a).
Proof. intros H. unfold py_sqrt. destruct (Rlt_dec a 0); [lra | reflexivity]. Qed.

Lemma py_div_ok a b : b <> 0 -> py_div a b = Ok (a / b).
Proof. intros H. unfold py_div. destruct (Req_dec_T b 0); [contradiction | reflexivity]. Qed.

Lemma sum_squares_nonneg a b : 0 <= a * a + b * b.
Proof. nra. Qed.

Lemma dist_centers_nonneg b p : 0 <= dist_centers b p.
Proof. apply sqrt_pos. Qed.

Lemma dist_centers_sqr b p :
  dist_centers b p * dist_centers b p
  = (Ball.x b - Peg.x p) * (Ball.x b - Peg.x p)
    + (Ball.y b - Peg.y p) * (Ball.y b - Peg.y p).
Proof. unfold dist_centers. apply sqrt_sqrt, sum_squares_nonneg. Qed.

(** The normal the code uses always has length one. *)
Lemma collision_normal_unit b p :
  dot2 (collision_normal b p) (collision_normal b p) = 1.
Proof.
  unfold collision_normal, dot2.
  destruct (Req_dec_T (dist_centers b p) 0) as [E | NE]; simpl.
  - lra.
  - pose proof (dist_centers_sqr b p) as H.
    field_simplify_eq; [lra | exact NE].
Qed.

(** The burst loop never raises and only appends. *)
Lemma spawn_burst_ok px py c (ks : list nat) :
  forall ps g, exists burst g',
    for_each ks (Ball.spawn_particle px py c) ps g = Ok (ps ++ burst, g')
    /\ length burst = length ks
    /\ Forall (fun q => Particle.lifetime q = PARTICLE_LIFETIME
                        /\ Particle.x q = px /\ Particle.y q = py) burst.
Proof.
  induction ks as [| k ks IH]; intros ps g.
  - exists [], g. simpl. rewrite app_nil_r. repeat split; constructor.
  - simpl for_each. unfold bind at 1. unfold Ball.spawn_particle at 1.
    unfold bind, uniform, ret.
    match goal with |- context [for_each ks _ (ps ++ [?q]) ?g1] =>
      destruct (IH (ps ++ [q]) g1) as (burst & g' & E & L & F);
      exists (q :: burst), g' end.
    rewrite E, <- app_assoc. simpl. repeat split; auto.
Qed.

(** What one call of [handle_peg_collision] returns: it never raises; on an
    overlap the ball is [bounced] and the peg gains one burst, otherwise
    nothing changes. *)
Lemma handle_peg_collision_ok b p g :
  exists b' p' g',
    Ball.handle_peg_collision b p g = Ok (b', p', g')
    /\ ((overlapping b p /\ b' = bounced b p
         /\ exists burst, p' = Peg.set_particles p (Peg.particles p ++ burst)
                          /\ is_burst (Ball.x b') (Ball.y b') burst)
        \/ (~ overlapping b p /\ b' = b /\ p' = p /\ g' = g)).
Proof.
  unfold Ball.handle_peg_collision.
  rewrite (bind_ok _ _ g (dist_centers b p) g)
    by (unfold lift; rewrite py_sqrt_ok by apply sum_squares_nonneg; reflexivity).
  fold (min_dist b p).
  destruct (Rlt_dec (dist_centers b p) (min_dist b p)) as [Hov | Hno].
  - assert (Hn : (if Req_dec_T (dist_centers b p) 0 then ret (1, 0)
                  else nx <- lift (py_div (Ball.x b - Peg.x p) (dist_centers b p)) ;;
                       ny <- lift (py_div (Ball.y b - Peg.y p) (dist_centers b p)) ;;
                       ret (nx, ny)) g = Ok (collision_normal b p, g)).
    { unfold collision_normal.
      destruct (Req_dec_T (dist_centers b p) 0) as [E | NE]; [reflexivity |].
      unfold bind, lift, ret. now rewrite !py_div_ok by exact NE. }
    rewrite (bind_ok _ _ _ _ _ Hn).
    destruct (collision_normal b p) as [nx ny] eqn:En.
    unfold bind at 1. unfold choice at 1.
    match goal with |- context [bind (for_each ?ks (Ball.spawn_particle ?px ?py ?c) ?ps) _ ?g1] =>
      destruct (spawn_burst_ok px py c ks ps g1) as (burst & g' & E & L & F) end.
    rewrite (bind_ok _ _ _ _ _ E). unfold ret.
    eexists _, _, _. split; [reflexivity |]. left. split; [exact Hov |].
    split.
    + unfold bounced, dot2, velocity. rewrite En. reflexivity.
    + exists burst. split; [reflexivity |]. split; [| exact F].
      rewrite L. unfold range. now rewrite length_seq.
  - exists b, p, g. split; [reflexivity |]. right. auto.
Qed.

(** The offset between the centres is the normal times the distance, in the
    degenerate case too. *)
Lemma collision_normal_scaled b p :
  Ball.x b - Peg.x p = fst (collision_normal b p) * dist_centers b p
  /\ Ball.y b - Peg.y p = snd (collision_normal b p) * dist_centers b p.
Proof.
  pose proof (dist_centers_sqr b p) as H.
  unfold collision_normal.
  destruct (Req_dec_T (dist_centers b p) 0) as [E | NE]; simpl.
  - rewrite E in H.
    destruct (Rplus_sqr_eq_0 (Ball.x b - Peg.x p) (Ball.y b - Peg.y p)) as [Hx Hy];
      [unfold Rsqr; lra | rewrite E, Hx, Hy; split; ring].
  - split; field; exact NE.
Qed.

Lemma bounced_tangent b p :
  overlapping b p -> dist_centers (bounced b p) p = min_dist b p.
Proof.
  intros Hov. unfold overlapping in Hov.
  pose proof (dist_centers_nonneg b p) as Hd.
  destruct (collision_normal_scaled b p) as [Hx Hy].
  pose proof (collision_normal_unit b p) as Hu. unfold dot2 in Hu.
  unfold dist_centers at 1. unfold bounced. cbn [Ball.x Ball.y].
  set (n := collision_normal b p) in *.
  set (d := dist_centers b p) in *. set (m := min_dist b p) in *.
  apply sqrt_lem_1; [apply sum_squares_nonneg | lra |].
  replace (Ball.x b + fst n * (m - d) - Peg.x p) with (fst n * m) by lra.
  replace (Ball.y b + snd n * (m - d) - Peg.y p) with (snd n * m) by lra.
  replace (fst n * m * (fst n * m) + snd n * m * (snd n * m))
    with (m * m * (fst n * fst n + snd n * snd n)) by ring.
  rewrite Hu. ring.
Qed.

(** The velocity after a bounce, split along and across the normal. *)
Lemma bounced_velocity_along b p :
  dot2 (velocity (bounced b p)) (collision_normal b p)
  = (1 - 2 * COLLISION_DAMPING) * dot2 (velocity b) (collision_normal b p).
Proof.
  pose proof (collision_normal_unit b p) as Hu.
  unfold bounced, velocity, dot2 in *. cbn [Ball.vx Ball.vy fst snd] in *.
  set (n := collision_normal b p) in *.
  set (d := Ball.vx b * fst n + Ball.vy b * snd n).
  replace ((Ball.vx b - 2 * d * fst n * COLLISION_DAMPING) * fst n
           + (Ball.vy b - 2 * d * snd n * COLLISION_DAMPING) * snd n)
    with (d - 2 * COLLISION_DAMPING * d * (fst n * fst n + snd n * snd n))
    by (unfold d; ring).
  rewrite Hu. ring.
Qed.

Lemma bounced_velocity_across b p :
  dot2 (velocity (bounced b p)) (tangent (collision_normal b p))
  = dot2 (velocity b) (tangent (collision_normal b p)).
Proof.
  unfold bounced, velocity, dot2, tangent. cbn [Ball.vx Ball.vy fst snd]. ring.
Qed.

Lemma bounced_speed b p : speed (bounced b p) <= speed b.
Proof.
  pose proof (collision_normal_unit b p) as Hu.
  unfold speed. apply sqrt_le_1_alt.
  unfold bounced, velocity, dot2 in *. cbn [Ball.vx Ball.vy fst snd] in *.
  set (n := collision_normal b p) in *.
  set (d := Ball.vx b * fst n + Ball.vy b * snd n).
  replace ((Ball.vx b - 2 * d * fst n * COLLISION_DAMPING)
           * (Ball.vx b - 2 * d * fst n * COLLISION_DAMPING)
           + (Ball.vy b - 2 * d * snd n * COLLISION_DAMPING)
             * (Ball.vy b - 2 * d * snd n * COLLISION_DAMPING))
    with (Ball.vx b * Ball.vx b + Ball.vy b * Ball.vy b
          - 4 * COLLISION_DAMPING * d * d
          + 4 * COLLISION_DAMPING * COLLISION_DAMPING * d * d
            * (fst n * fst n + snd n * snd n))
    by (unfold d; ring).
  rewrite Hu. unfold COLLISION_DAMPING. nra.
Qed.

Lemma head_on_distance : dist_centers head_on_ball origin_peg = 10.
Proof.
  unfold dist_centers, head_on_ball, origin_peg. simpl.
  apply sqrt_lem_1; lra.
Qed.

Lemma grazing_distance : dist_centers grazing_ball origin_peg = 10.
Proof.
  unfold dist_centers, grazing_ball, origin_peg. simpl.
  apply sqrt_lem_1; lra.
Qed.

Lemma head_on_overlapping : overlapping head_on_ball origin_peg.
Proof.
  unfold overlapping. rewrite head_on_distance.
  unfold min_dist, head_on_ball, origin_peg, BALL_RADIUS, PEG_RADIUS. simpl. lra.
Qed.

Lemma grazing_overlapping : overlapping grazing_ball origin_peg.
Proof.
  unfold overlapping. rewrite grazing_distance.
  unfold min_dist, grazing_ball, origin_peg, BALL_RADIUS, PEG_RADIUS. simpl. lra.
Qed.

Lemma head_on_normal : collision_normal head_on_ball origin_peg = (1, 0).
Proof.
  unfold collision_normal. rewrite head_on_distance.
  destruct (Req_dec_T 10 0); [lra |].
  unfold head_on_ball, origin_peg. simpl. f_equal; lra.
Qed.

Lemma grazing_normal : collision_normal grazing_ball origin_peg = (1, 0).
Proof.
  unfold collision_normal. rewrite grazing_distance.
  destruct (Req_dec_T 10 0); [lra |].
  unfold grazing_ball, origin_peg. simpl. f_equal; lra.
Qed.

(** On an overlap the call returns the [bounced] ball. *)
Lemma handle_peg_collision_overlap b p g :
  overlapping b p ->
  exists p' g', Ball.handle_peg_collision b p g = Ok (bounced b p, p', g').
Proof.
  intros Hov.
  destruct (handle_peg_collision_ok b p g) as (b' & p' & g' & E & [(_ & -> & _) | (N & _)]).
  - now exists p', g'.
  - contradiction.
Qed.

(** ** Peg collision resolution *)

(** C1, as the code has it.  On an overlap the call returns, and the new
    velocity is [v - COLLISION_DAMPING * (2 * (v.n) * n)]: the damping factor,
    which is below one, scales the term that is subtracted.  Along the normal
    the velocity therefore becomes [(1 - 2 * COLLISION_DAMPING) * (v.n)], and
    across it nothing changes. *)
Theorem bounce_damps_reflection_term b p g :
  overlapping b p ->
  exists b' p' g',
    Ball.handle_peg_collision b p g = Ok (b', p', g')
    /\ Ball.vx b' = Ball.vx b
         - COLLISION_DAMPING
           * (2 * dot2 (velocity b) (collision_normal b p) * fst (collision_normal b p))
    /\ Ball.vy b' = Ball.vy b
         - COLLISION_DAMPING
           * (2 * dot2 (velocity b) (collision_normal b p) * snd (collision_normal b p))
    /\ COLLISION_DAMPING < 1
    /\ dot2 (velocity b') (collision_normal b p)
       = (1 - 2 * COLLISION_DAMPING) * dot2 (velocity b) (collision_normal b p)
    /\ dot2 (velocity b') (tangent (collision_normal b p))
       = dot2 (velocity b) (tangent (collision_normal b p)).
Proof.
  intros Hov.
  destruct (handle_peg_collision_overlap b p g Hov) as (p' & g' & E).
  exists (bounced b p), p', g'. split; [exact E |].
  split; [unfold bounced; cbn [Ball.vx]; ring |].
  split; [unfold bounced; cbn [Ball.vy]; ring |].
  split; [unfold COLLISION_DAMPING; lra |].
  split; [apply bounced_velocity_along | apply bounced_velocity_across].
Qed.

Lemma bounce_damps_reflection_term_witness :
  overlapping head_on_ball origin_peg
  /\ exists b' p' g',
       Ball.handle_peg_collision head_on_ball origin_peg quiet_random = Ok (b', p', g')
       /\ Ball.vx b' = Ball.vx head_on_ball
            - COLLISION_DAMPING
              * (2 * dot2 (velocity head_on_ball) (collision_normal head_on_ball origin_peg)
                 * fst (collision_normal head_on_ball origin_peg))
       /\ Ball.vy b' = Ball.vy head_on_ball
            - COLLISION_DAMPING
              * (2 * dot2 (velocity head_on_ball) (collision_normal head_on_ball origin_peg)
                 * snd (collision_normal head_on_ball origin_peg))
       /\ COLLISION_DAMPING < 1
       /\ dot2 (velocity b') (collision_normal head_on_ball origin_peg)
          = (1 - 2 * COLLISION_DAMPING)
            * dot2 (velocity head_on_ball) (collision_normal head_on_ball origin_peg)
       /\ dot2 (velocity b') (tangent (collision_normal head_on_ball origin_peg))
          = dot2 (velocity head_on_ball) (tangent (collision_normal head_on_ball origin_peg)).
Proof.
  split.
  - exact head_on_overlapping.
  - apply (bounce_damps_reflection_term head_on_ball origin_peg quiet_random).
    exact head_on_overlapping.
Defined.

(** C1, as the specification words it, fails: a ball that hits the peg head
    on at 10 leaves at 8, where mirroring the velocity and scaling the mirrored
    normal component by [COLLISION_DAMPING] would give 9. *)
Lemma head_on_bounce_differs_from_wording :
  overlapping head_on_ball origin_peg
  /\ exists b' p' g',
       Ball.handle_peg_collision head_on_ball origin_peg quiet_random = Ok (b', p', g')
       /\ velocity b' = (8, 0)
       /\ spec_bounce (velocity head_on_ball) (collision_normal head_on_ball origin_peg)
          = (9, 0)
       /\ velocity b'
          <> spec_bounce (velocity head_on_ball) (collision_normal head_on_ball origin_peg).
Proof.
  split; [exact head_on_overlapping |].
  destruct (handle_peg_collision_overlap head_on_ball origin_peg quiet_random
              head_on_overlapping) as (p' & g' & E).
  exists (bounced head_on_ball origin_peg), p', g'.
  assert (Hv : velocity (bounced head_on_ball origin_peg) = (8, 0)).
  { unfold bounced, velocity. rewrite head_on_normal.
    unfold dot2, head_on_ball, COLLISION_DAMPING. simpl. f_equal; lra. }
  assert (Hs : spec_bounce (velocity head_on_ball)
                 (collision_normal head_on_ball origin_peg) = (9, 0)).
  { rewrite head_on_normal.
    unfold spec_bounce, spec_reflect, dot2, velocity, head_on_ball, COLLISION_DAMPING.
    simpl. f_equal; lra. }
  split; [exact E |]. split; [exact Hv |]. split; [exact Hs |].
  rewrite Hv, Hs. intros H. injection H as H. lra.
Qed.

(** C3.  No call of the collision resolution raises.  On an overlap the ball
    is moved by the overlap along the collision normal, which has length one,
    is the centre-to-centre direction when the centres differ and is [(1, 0)]
    when they coincide; the centres end exactly [ball.radius + peg.radius]
    apart. *)
Theorem collision_leaves_ball_tangent b p g :
  (exists r, Ball.handle_peg_collision b p g = Ok r)
  /\ (overlapping b p ->
      exists b' p' g',
        Ball.handle_peg_collision b p g = Ok (b', p', g')
        /\ Ball.x b' = Ball.x b
             + fst (collision_normal b p) * (min_dist b p - dist_centers b p)
        /\ Ball.y b' = Ball.y b
             + snd (collision_normal b p) * (min_dist b p - dist_centers b p)
        /\ dot2 (collision_normal b p) (collision_normal b p) = 1
        /\ (dist_centers b p <> 0 ->
            collision_normal b p
            = ((Ball.x b - Peg.x p) / dist_centers b p,
               (Ball.y b - Peg.y p) / dist_centers b p))
        /\ (dist_centers b p = 0 -> collision_normal b p = (1, 0))
        /\ Ball.radius b' = Ball.radius b
        /\ dist_centers b' p = Ball.radius b' + Peg.radius p).
Proof.
  split.
  - destruct (handle_peg_collision_ok b p g) as (b' & p' & g' & E & _).
    now exists (b', p', g').
  - intros Hov.
    destruct (handle_peg_collision_overlap b p g Hov) as (p' & g' & E).
    exists (bounced b p), p', g'. split; [exact E |].
    split; [reflexivity |]. split; [reflexivity |].
    split; [apply collision_normal_unit |].
    split; [| split].
    + intros NE. unfold collision_normal.
      destruct (Req_dec_T (dist_centers b p) 0); [contradiction | reflexivity].
    + intros E0. unfold collision_normal.
      destruct (Req_dec_T (dist_centers b p) 0); [reflexivity | contradiction].
    + split; [reflexivity |]. now apply bounced_tangent.
Qed.

Lemma collision_leaves_ball_tangent_witness :
  overlapping head_on_ball origin_peg
  /\ exists b' p' g',
       Ball.handle_peg_collision head_on_ball origin_peg quiet_random = Ok (b', p', g')
       /\ dist_centers b' origin_peg = Ball.radius b' + Peg.radius origin_peg.
Proof.
  split; [exact head_on_overlapping |].
  destruct (collision_leaves_ball_tangent head_on_ball origin_peg quiet_random)
    as [_ H].
  destruct (H head_on_overlapping) as (b' & p' & g' & E & _ & _ & _ & _ & _ & _ & D).
  now exists b', p', g'.
Defined.

(** C5, as the code has it.  Along the collision normal the velocity after a
    resolved collision has [2 * COLLISION_DAMPING - 1] times the magnitude it
    had before: never larger, and strictly smaller whenever the ball had any
    velocity along the normal; the speed as a whole does not grow either. *)
Theorem bounce_loses_normal_speed b p g :
  overlapping b p ->
  exists b' p' g',
    Ball.handle_peg_collision b p g = Ok (b', p', g')
    /\ Rabs (dot2 (velocity b') (collision_normal b p))
       = (2 * COLLISION_DAMPING - 1) * Rabs (dot2 (velocity b) (collision_normal b p))
    /\ Rabs (dot2 (velocity b') (collision_normal b p))
       <= Rabs (dot2 (velocity b) (collision_normal b p))
    /\ (dot2 (velocity b) (collision_normal b p) <> 0 ->
        Rabs (dot2 (velocity b') (collision_normal b p))
        < Rabs (dot2 (velocity b) (collision_normal b p)))
    /\ speed b' <= speed b.
Proof.
  intros Hov.
  destruct (handle_peg_collision_overlap b p g Hov) as (p' & g' & E).
  exists (bounced b p), p', g'. split; [exact E |].
  rewrite bounced_velocity_along, Rabs_mult.
  assert (Hk : Rabs (1 - 2 * COLLISION_DAMPING) = 2 * COLLISION_DAMPING - 1).
  { unfold COLLISION_DAMPING. rewrite Rabs_left by lra. lra. }
  rewrite Hk. unfold COLLISION_DAMPING.
  pose proof (Rabs_pos (dot2 (velocity b) (collision_normal b p))) as Hp.
  split; [reflexivity |]. split; [lra |]. split; [| apply bounced_speed].
  intros NZ. apply Rabs_pos_lt in NZ. lra.
Qed.

Lemma head_on_normal_velocity :
  dot2 (velocity head_on_ball) (collision_normal head_on_ball origin_peg) = -10.
Proof.
  rewrite head_on_normal. unfold dot2, velocity, head_on_ball. simpl. lra.
Qed.

Lemma bounce_loses_normal_speed_witness :
  overlapping head_on_ball origin_peg
  /\ dot2 (velocity head_on_ball) (collision_normal head_on_ball origin_peg) <> 0
  /\ exists b' p' g',
       Ball.handle_peg_collision head_on_ball origin_peg quiet_random = Ok (b', p', g')
       /\ Rabs (dot2 (velocity b') (collision_normal head_on_ball origin_peg))
          < Rabs (dot2 (velocity head_on_ball) (collision_normal head_on_ball origin_peg))
       /\ speed b' <= speed head_on_ball.
Proof.
  assert (NZ : dot2 (velocity head_on_ball) (collision_normal head_on_ball origin_peg) <> 0)
    by (rewrite head_on_normal_velocity; lra).
  split; [exact head_on_overlapping |]. split; [exact NZ |].
  destruct (bounce_loses_normal_speed head_on_ball origin_peg quiet_random
              head_on_overlapping) as (b' & p' & g' & E & _ & _ & Hlt & S).
  exists b', p', g'. split; [exact E |]. split; [exact (Hlt NZ) | exact S].
Defined.

(** C5, as stated, fails for a ball that moves along the contact line: the
    collision is resolved, and the velocity along the normal is zero before
    and after, so it has not become strictly smaller. *)
Lemma grazing_bounce_keeps_normal_speed :
  overlapping grazing_ball origin_peg
  /\ exists b' p' g',
       Ball.handle_peg_collision grazing_ball origin_peg quiet_random = Ok (b', p', g')
       /\ dot2 (velocity grazing_ball) (collision_normal grazing_ball origin_peg) = 0
       /\ dot2 (velocity b') (collision_normal grazing_ball origin_peg) = 0
       /\ ~ (Rabs (dot2 (velocity b') (collision_normal grazing_ball origin_peg))
             < Rabs (dot2 (velocity grazing_ball)
                       (collision_normal grazing_ball origin_peg))).
Proof.
  split; [exact grazing_overlapping |].
  destruct (handle_peg_collision_overlap grazing_ball origin_peg quiet_random
              grazing_overlapping) as (p' & g' & E).
  exists (bounced grazing_ball origin_peg), p', g'.
  assert (H0 : dot2 (velocity grazing_ball) (collision_normal grazing_ball origin_peg) = 0).
  { rewrite grazing_normal. unfold dot2, velocity, grazing_ball. simpl. lra. }
  split; [exact E |]. split; [exact H0 |].
  rewrite bounced_velocity_along, H0, Rmult_0_r.
  split; [reflexivity |]. rewrite Rabs_R0. lra.
Qed.

(** ** The ball's step *)

Lemma speed_nonneg b : 0 <= speed b.
Proof. apply sqrt_pos. Qed.

Lemma speed_le b b' :
  Ball.vx b' * Ball.vx b' <= Ball.vx b * Ball.vx b ->
  Ball.vy b' * Ball.vy b' <= Ball.vy b * Ball.vy b ->
  speed b' <= speed b.
Proof. intros Hx Hy. unfold speed. apply sqrt_le_1_alt. lra. Qed.

(** Gravity and clamp: never raises, moves nothing, and leaves the speed at
    most the cap - exactly the cap when it was above. *)
Lemma gravity_and_clamp_ok b g :
  exists b1,
    Ball.gravity_and_clamp b g = Ok (b1, g)
    /\ speed b1 <= MAX_BALL_SPEED
    /\ (MAX_BALL_SPEED < speed (Ball.set_vel b (Ball.vx b) (Ball.vy b + GRAVITY)) ->
        speed b1 = MAX_BALL_SPEED)
    /\ Ball.x b1 = Ball.x b /\ Ball.y b1 = Ball.y b
    /\ Ball.radius b1 = Ball.radius b /\ Ball.finalized b1 = Ball.finalized b.
Proof.
  unfold Ball.gravity_and_clamp.
  set (b0 := Ball.set_vel b (Ball.vx b) (Ball.vy b + GRAVITY)).
  rewrite (bind_ok _ _ g (speed b0) g)
    by (unfold lift; rewrite py_sqrt_ok by apply sum_squares_nonneg; reflexivity).
  destruct (Rlt_dec MAX_BALL_SPEED (speed b0)) as [Hfast | Hslow].
  - assert (Hpos : speed b0 <> 0) by (unfold MAX_BALL_SPEED in Hfast; lra).
    unfold bind, lift, ret. rewrite (py_div_ok _ _ Hpos).
    eexists. split; [reflexivity |].
    assert (Hcap : speed (Ball.set_vel
                            (Ball.set_vel b0 (Ball.vx b0 * (MAX_BALL_SPEED / speed b0))
                               (Ball.vy b0))
                            (Ball.vx (Ball.set_vel b0
                                        (Ball.vx b0 * (MAX_BALL_SPEED / speed b0))
                                        (Ball.vy b0)))
                            (Ball.vy (Ball.set_vel b0
                                        (Ball.vx b0 * (MAX_BALL_SPEED / speed b0))
                                        (Ball.vy b0)) * (MAX_BALL_SPEED / speed b0)))
                   = MAX_BALL_SPEED).
    { unfold speed at 1. cbn [Ball.set_vel Ball.vx Ball.vy].
      apply sqrt_lem_1; [apply sum_squares_nonneg | unfold MAX_BALL_SPEED; lra |].
      assert (Hs : speed b0 * speed b0
                   = Ball.vx b0 * Ball.vx b0 + Ball.vy b0 * Ball.vy b0)
        by (unfold speed; apply sqrt_sqrt, sum_squares_nonneg).
      cbn [b0 Ball.set_vel Ball.vx Ball.vy] in Hs |- *.
      set (s := speed b0) in *.
      replace (Ball.vx b * (MAX_BALL_SPEED / s) * (Ball.vx b * (MAX_BALL_SPEED / s))
               + (Ball.vy b + GRAVITY) * (MAX_BALL_SPEED / s)
                 * ((Ball.vy b + GRAVITY) * (MAX_BALL_SPEED / s)))
        with ((Ball.vx b * Ball.vx b + (Ball.vy b + GRAVITY) * (Ball.vy b + GRAVITY))
              * (MAX_BALL_SPEED * MAX_BALL_SPEED) / (s * s))
        by (field; exact Hpos).
      rewrite <- Hs. field. exact Hpos. }
    split; [rewrite Hcap; lra |]. split; [intros _; exact Hcap |].
    repeat split; reflexivity.
  - exists b0. split; [reflexivity |]. split; [lra |]. split; [intros H; contradiction |].
    repeat split; reflexivity.
Qed.

Lemma integrate_speed b : speed (Ball.integrate b) = speed b.
Proof. reflexivity. Qed.

Lemma walls_speed b : speed (Ball.walls b) <= speed b.
Proof.
  unfold Ball.walls.
  destruct (Rlt_dec (Ball.x b - Ball.radius b) 0);
    [| destruct (Rlt_dec (IZR SCREEN_WIDTH) (Ball.x b + Ball.radius b))];
    try lra; apply speed_le; cbn [Ball.set_vel Ball.set_pos Ball.vx Ball.vy];
    unfold WALL_BOUNCE_FACTOR; nra.
Qed.

Lemma ceiling_speed b : speed (Ball.ceiling b) <= speed b.
Proof.
  unfold Ball.ceiling.
  destruct (Rlt_dec (Ball.y b - Ball.radius b) 0);
    try lra; apply speed_le; cbn [Ball.set_vel Ball.set_pos Ball.vx Ball.vy];
    unfold WALL_BOUNCE_FACTOR; nra.
Qed.

(** After the wall test a ball no wider than the playfield is between the
    walls. *)
Lemma walls_in_walls b :
  2 * Ball.radius b <= IZR SCREEN_WIDTH -> in_walls (Ball.walls b).
Proof.
  intros Hr. unfold Ball.walls, in_walls.
  destruct (Rlt_dec (Ball.x b - Ball.radius b) 0);
    [| destruct (Rlt_dec (IZR SCREEN_WIDTH) (Ball.x b + Ball.radius b))];
    cbn [Ball.set_vel Ball.set_pos Ball.x Ball.radius]; lra.
Qed.

Lemma walls_radius b : Ball.radius (Ball.walls b) = Ball.radius b.
Proof.
  unfold Ball.walls.
  destruct (Rlt_dec (Ball.x b - Ball.radius b) 0);
    [| destruct (Rlt_dec (IZR SCREEN_WIDTH) (Ball.x b + Ball.radius b))]; reflexivity.
Qed.

Lemma walls_finalized b : Ball.finalized (Ball.walls b) = Ball.finalized b.
Proof.
  unfold Ball.walls.
  destruct (Rlt_dec (Ball.x b - Ball.radius b) 0);
    [| destruct (Rlt_dec (IZR SCREEN_WIDTH) (Ball.x b + Ball.radius b))]; reflexivity.
Qed.

Lemma ceiling_keeps b :
  Ball.x (Ball.ceiling b) = Ball.x b
  /\ Ball.radius (Ball.ceiling b) = Ball.radius b
  /\ Ball.finalized (Ball.ceiling b) = Ball.finalized b.
Proof.
  unfold Ball.ceiling.
  destruct (Rlt_dec (Ball.y b - Ball.radius b) 0); repeat split; reflexivity.
Qed.

(** A coordinate offset is never longer than the distance. *)
Lemma x_offset_le_dist b p : Rabs (Ball.x b - Peg.x p) <= dist_centers b p.
Proof.
  unfold dist_centers.
  rewrite <- (sqrt_Rsqr_abs (Ball.x b - Peg.x p)).
  apply sqrt_le_1_alt.
  pose proof (Rle_0_sqr (Ball.y b - Peg.y p)) as H. unfold Rsqr in *. lra.
Qed.

(** A ball pushed off a peg that is clear of the walls is between them. *)
Lemma bounced_in_walls b p :
  overlapping b p -> peg_clear_of_walls (Ball.radius b) p -> in_walls (bounced b p).
Proof.
  intros Hov [Hl Hr].
  pose proof (x_offset_le_dist (bounced b p) p) as Hd.
  rewrite (bounced_tangent b p Hov) in Hd.
  unfold in_walls. unfold min_dist in Hd.
  replace (Ball.radius (bounced b p)) with (Ball.radius b) by reflexivity.
  cbn [bounced Ball.x] in Hd |- *.
  unfold Rabs in Hd. destruct (Rcase_abs _) in Hd; lra.
Qed.

Lemma peg_gains_refl p : peg_gains p p.
Proof.
  exists []. rewrite app_nil_r. split; [now destruct p | constructor].
Qed.

(** What one call does to the peg, whatever the ball. *)
Lemma handle_peg_collision_peg b p g b' p' g' :
  Ball.handle_peg_collision b p g = Ok (b', p', g') -> peg_gains p p'.
Proof.
  intros E.
  destruct (handle_peg_collision_ok b p g)
    as (b1 & p1 & g1 & E1 & [(_ & _ & burst & -> & _ & F) | (_ & _ & -> & _)]);
    rewrite E1 in E; injection E as <- <- <-.
  - exists burst. split; [reflexivity |].
    eapply Forall_impl; [| exact F]. now intros q [H _].
  - apply peg_gains_refl.
Qed.

(** The loop over the pegs never raises; any property of the ball that every
    resolved collision re-establishes holds at its end, and the pegs come back
    in order, each with at most new particles. *)
Lemma peg_collisions_inv (P : Ball.t -> Prop) (pegs : list Peg.t) :
  (forall b p, In p pegs -> P b -> overlapping b p -> P (bounced b p)) ->
  forall b done g, P b ->
  exists b' pegs' g',
    Ball.peg_collisions b pegs done g = Ok (b', done ++ pegs', g')
    /\ P b' /\ Forall2 peg_gains pegs pegs'.
Proof.
  induction pegs as [| p pegs IH]; intros Hstep b done g Hb.
  - exists b, [], g. simpl. rewrite app_nil_r. repeat split; [exact Hb | constructor].
  - simpl Ball.peg_collisions.
    destruct (handle_peg_collision_ok b p g)
      as (b1 & p1 & g1 & E & Hcase).
    pose proof (handle_peg_collision_peg _ _ _ _ _ _ E) as Hp.
    rewrite (bind_ok _ _ _ _ _ E).
    assert (Hb1 : P b1).
    { destruct Hcase as [(Hov & -> & _) | (_ & -> & _)]; [| exact Hb].
      apply Hstep; [now left | exact Hb | exact Hov]. }
    destruct (IH (fun b p H => Hstep b p (or_intror H)) b1 (done ++ [p1]) g1 Hb1)
      as (b' & pegs' & g' & E' & Hb' & F).
    exists b', (p1 :: pegs'), g'. rewrite E', <- app_assoc. simpl.
    repeat split; [exact Hb' | now constructor].
Qed.

Lemma check_scoring_zone_keeps b box :
  Ball.x (Ball.check_scoring_zone b box) = Ball.x b
  /\ Ball.y (Ball.check_scoring_zone b box) = Ball.y b
  /\ Ball.vx (Ball.check_scoring_zone b box) = Ball.vx b
  /\ Ball.vy (Ball.check_scoring_zone b box) = Ball.vy b
  /\ Ball.radius (Ball.check_scoring_zone b box) = Ball.radius b
  /\ (Ball.finalized b = true -> Ball.finalized (Ball.check_scoring_zone b box) = true).
Proof.
  unfold Ball.check_scoring_zone.
  destruct (Rle_dec box (Ball.y b + Ball.radius b)); repeat split; auto.
Qed.

(** One step of a ball: it never raises, the speed ends at most the cap, the
    radius is kept, a finalized flag is never cleared, the pegs only gain
    particles, and the ball ends between the walls when it fits the
    playfield and every peg is clear of the walls. *)
Lemma ball_update_ok b pegs box g :
  exists b' pegs' g',
    Ball.update b pegs box g = Ok (b', pegs', g')
    /\ speed b' <= MAX_BALL_SPEED
    /\ Ball.radius b' = Ball.radius b
    /\ (Ball.finalized b = true -> Ball.finalized b' = true)
    /\ Forall2 peg_gains pegs pegs'
    /\ (2 * Ball.radius b <= IZR SCREEN_WIDTH ->
        Forall (peg_clear_of_walls (Ball.radius b)) pegs -> in_walls b').
Proof.
  unfold Ball.update.
  destruct (gravity_and_clamp_ok b g) as (b1 & E1 & Hs1 & _ & _ & _ & Hr1 & Hf1).
  rewrite (bind_ok _ _ _ _ _ E1).
  set (b2 := Ball.ceiling (Ball.walls (Ball.integrate b1))).
  assert (Hs2 : speed b2 <= MAX_BALL_SPEED).
  { unfold b2. eapply Rle_trans; [apply ceiling_speed |].
    eapply Rle_trans; [apply walls_speed |]. now rewrite integrate_speed. }
  assert (Hr2 : Ball.radius b2 = Ball.radius b).
  { unfold b2. destruct (ceiling_keeps (Ball.walls (Ball.integrate b1))) as (_ & -> & _).
    rewrite walls_radius. exact Hr1. }
  assert (Hf2 : Ball.finalized b2 = Ball.finalized b).
  { unfold b2. destruct (ceiling_keeps (Ball.walls (Ball.integrate b1))) as (_ & _ & ->).
    rewrite walls_finalized. exact Hf1. }
  assert (Hw2 : 2 * Ball.radius b <= IZR SCREEN_WIDTH -> in_walls b2).
  { intros Hfit. unfold b2, in_walls.
    destruct (ceiling_keeps (Ball.walls (Ball.integrate b1))) as (-> & -> & _).
    apply walls_in_walls. cbn [Ball.integrate Ball.set_pos Ball.radius]. lra. }
  destruct (peg_collisions_inv
              (fun c => speed c <= MAX_BALL_SPEED
                        /\ Ball.radius c = Ball.radius b
                        /\ Ball.finalized c = Ball.finalized b
                        /\ (2 * Ball.radius b <= IZR SCREEN_WIDTH ->
                            Forall (peg_clear_of_walls (Ball.radius b)) pegs ->
                            in_walls c))
              pegs) with (b := b2) (done := @nil Peg.t) (g := g)
    as (b3 & pegs' & g' & E3 & (Hs3 & Hr3 & Hf3 & Hw3) & F).
  - intros c p Hin (Hs & Hr & Hf & Hw) Hov.
    split; [eapply Rle_trans; [apply bounced_speed | exact Hs] |].
    split; [exact Hr |]. split; [exact Hf |].
    intros _ Hclear. apply bounced_in_walls; [exact Hov |].
    rewrite Hr. rewrite Forall_forall in Hclear. now apply Hclear.
  - split; [exact Hs2 |]. split; [exact Hr2 |]. split; [exact Hf2 |].
    intros Hfit _. now apply Hw2.
  - rewrite (bind_ok _ _ _ _ _ E3). unfold ret. simpl app.
    destruct (check_scoring_zone_keeps b3 box) as (Hx & _ & Hvx & Hvy & Hr & Hf).
    eexists _, _, _. split; [reflexivity |].
    split; [unfold speed in *; rewrite Hvx, Hvy; exact Hs3 |].
    split; [congruence |].
    split; [intros H; apply Hf; congruence |].
    split; [exact F |].
    intros Hfit Hclear. unfold in_walls. rewrite Hx, Hr. now apply Hw3.
Qed.




(** ** The peg layout *)

Lemma Forall2_nth_error_l {A B : Type} (Q : A -> B -> Prop) l l' :
  Forall2 Q l l' ->
  forall i a, nth_error l i = Some a -> exists b, nth_error l' i = Some b /\ Q a b.
Proof.
  induction 1 as [| a0 b0 l l' H0 _ IH]; intros [| i] a E; simpl in *; try discriminate.
  - injection E as <-. now exists b0.
  - now apply IH.
Qed.

Lemma Forall2_nth_error_r {A B : Type} (Q : A -> B -> Prop) l l' :
  Forall2 Q l l' ->
  forall i b, nth_error l' i = Some b -> exists a, nth_error l i = Some a /\ Q a b.
Proof.
  induction 1 as [| a0 b0 l l' H0 _ IH]; intros [| i] b E; simpl in *; try discriminate.
  - injection E as <-. now exists a0.
  - now apply IH.
Qed.

Lemma nth_error_seq_inv n : forall start i k,
  nth_error (seq start n) i = Some k -> k = (start + i)%nat /\ (i < n)%nat.
Proof.
  induction n as [| n IH]; intros start [| i] k E; simpl in *; try discriminate.
  - injection E as <-. lia.
  - apply IH in E. lia.
Qed.

(** The inner loop of [init_pegs] never raises and appends one fresh peg per
    index. *)
Lemma place_pegs_ok start_x y_pos (ks : list nat) :
  forall pegs g, exists row g',
    for_each ks (PlinkoGame.place_peg start_x y_pos) pegs g = Ok (pegs ++ row, g')
    /\ Forall2 (fun k p => exists c,
                  p = Peg.new (start_x + INR k * PEG_SPACING_X) y_pos PEG_RADIUS c)
         ks row.
Proof.
  induction ks as [| k ks IH]; intros pegs g.
  - exists [], g. simpl. rewrite app_nil_r. split; [reflexivity | constructor].
  - simpl for_each. unfold bind at 1. unfold PlinkoGame.place_peg at 1.
    unfold bind, choice, ret.
    match goal with |- context [for_each ks _ (pegs ++ [?q]) ?g1] =>
      destruct (IH (pegs ++ [q]) g1) as (row & g' & E & F);
      exists (q :: row), g' end.
    rewrite E, <- app_assoc. simpl. split; [reflexivity |].
    constructor; [eexists; reflexivity | exact F].
Qed.

(** The outer loop appends one row per row index. *)
Lemma place_rows_ok (rs : list nat) :
  forall pegs g, exists rows g',
    for_each rs PlinkoGame.place_row pegs g = Ok (pegs ++ concat rows, g')
    /\ Forall2 row_of rs rows.
Proof.
  induction rs as [| r rs IH]; intros pegs g.
  - exists [], g. simpl. rewrite app_nil_r. split; [reflexivity | constructor].
  - simpl for_each.
    destruct (place_pegs_ok (row_start_x r) (row_y r) (range (r + 3)) pegs g)
      as (row & g1 & E1 & F1).
    rewrite (bind_ok _ _ g (pegs ++ row) g1) by exact E1.
    destruct (IH (pegs ++ row) g1) as (rows & g' & E & F).
    exists (row :: rows), g'. rewrite E, <- app_assoc. simpl.
    split; [reflexivity |]. constructor; [exact F1 | exact F].
Qed.

Lemma init_pegs_ok self g :
  exists pegs g',
    PlinkoGame.init_pegs self g = Ok (PlinkoGame.set_pegs self pegs, g')
    /\ triangular pegs.
Proof.
  unfold PlinkoGame.init_pegs.
  destruct (place_rows_ok (range NUM_PEG_ROWS) [] g) as (rows & g' & E & F).
  rewrite (bind_ok _ _ _ _ _ E). simpl app.
  exists (concat rows), g'. split; [reflexivity |]. now exists rows.
Qed.

Lemma row_of_length r row : row_of r row -> length row = (r + 3)%nat.
Proof.
  intros F. apply Forall2_length in F. unfold range in F. now rewrite length_seq in F.
Qed.

Lemma row_of_nth r row i p :
  row_of r row -> nth_error row i = Some p -> (i < r + 3)%nat /\ peg_at r i p.
Proof.
  intros F E.
  destruct (Forall2_nth_error_r _ _ _ F i p E) as (k & Ek & Hk).
  apply nth_error_seq_inv in Ek. destruct Ek as [-> Hi]. now split.
Qed.

Lemma row_of_centered r row : row_of r row -> centered row.
Proof.
  intros F i p q Ep Eq.
  rewrite (row_of_length _ _ F) in Eq.
  destruct (row_of_nth _ _ _ _ F Ep) as (Hi & c & ->).
  destruct (row_of_nth _ _ _ _ F Eq) as (_ & c' & ->).
  unfold Peg.new, row_start_x, PEG_SPACING_X, SCREEN_WIDTH. cbn [Peg.x].
  replace (r + 3 - 1 - i)%nat with (r + 2 - i)%nat by lia.
  rewrite minus_INR by lia. rewrite !plus_INR. simpl INR. lra.
Qed.

(** The number of pegs of a layout is the sum of the row lengths. *)
Lemma rows_total_length (rs : list nat) rows :
  Forall2 row_of rs rows ->
  length (concat rows) = list_sum (map (fun r => (r + 3)%nat) rs).
Proof.
  induction 1 as [| r row rs rows Hr _ IH]; [reflexivity |].
  simpl. rewrite length_app, IH, (row_of_length _ _ Hr). reflexivity.
Qed.

(** Every peg of the layout is a fresh peg of radius [PEG_RADIUS] at least 85
    from either side wall. *)
Lemma triangular_peg pegs p :
  triangular pegs -> In p pegs ->
  85 <= Peg.x p <= 715 /\ Peg.radius p = PEG_RADIUS /\ Peg.particles p = [].
Proof.
  intros (rows & -> & F) Hin.
  apply in_concat in Hin. destruct Hin as (row & Hrow & Hp).
  apply In_nth_error in Hrow. destruct Hrow as (r & Er).
  destruct (Forall2_nth_error_r _ _ _ F r row Er) as (k & Ek & Hk).
  apply nth_error_seq_inv in Ek. destruct Ek as [-> Hr]. simpl in Hk.
  apply In_nth_error in Hp. destruct Hp as (i & Ei).
  destruct (row_of_nth _ _ _ _ Hk Ei) as (Hi & c & ->).
  unfold Peg.new, row_start_x, PEG_SPACING_X, SCREEN_WIDTH. cbn [Peg.x Peg.radius Peg.particles].
  unfold NUM_PEG_ROWS in Hr.
  assert (H1 : 0 <= INR r <= 7).
  { split; [apply pos_INR |]. replace 7 with (INR 7) by (simpl; lra). apply le_INR. lia. }
  assert (H2 : 0 <= INR i <= INR r + 2).
  { split; [apply pos_INR |].
    replace (INR r + 2) with (INR (r + 2)) by (rewrite plus_INR; simpl; lra).
    apply le_INR. lia. }
  rewrite plus_INR. simpl INR. repeat split; lra.
Qed.

Lemma triangular_clear_of_walls pegs :
  triangular pegs -> Forall (peg_clear_of_walls BALL_RADIUS) pegs.
Proof.
  intros T. apply Forall_forall. intros p Hin.
  destruct (triangular_peg _ _ T Hin) as (Hx & Hr & _).
  unfold peg_clear_of_walls, BALL_RADIUS, SCREEN_WIDTH. rewrite Hr. unfold PEG_RADIUS. lra.
Qed.

(** ** The play step *)

Lemma peg_gains_trans p1 p2 p3 : peg_gains p1 p2 -> peg_gains p2 p3 -> peg_gains p1 p3.
Proof.
  intros (e1 & -> & F1) (e2 & -> & F2). exists (e1 ++ e2). split.
  - unfold Peg.set_particles. cbn. now rewrite app_assoc.
  - apply Forall_app. now split.
Qed.

Lemma pegs_gain_refl pegs : Forall2 peg_gains pegs pegs.
Proof. induction pegs; constructor; [apply peg_gains_refl | assumption]. Qed.

Lemma pegs_gain_trans l1 l2 : Forall2 peg_gains l1 l2 ->
  forall l3, Forall2 peg_gains l2 l3 -> Forall2 peg_gains l1 l3.
Proof.
  induction 1 as [| p1 p2 l1 l2 H _ IH]; intros l3 F; inversion F; subst; constructor.
  - eapply peg_gains_trans; eassumption.
  - now apply IH.
Qed.

Lemma peg_gains_clear r p p' :
  peg_gains p p' -> peg_clear_of_walls r p -> peg_clear_of_walls r p'.
Proof. intros (e & -> & _) H. exact H. Qed.

Lemma pegs_gain_clear r pegs pegs' :
  Forall2 peg_gains pegs pegs' ->
  Forall (peg_clear_of_walls r) pegs -> Forall (peg_clear_of_walls r) pegs'.
Proof.
  induction 1 as [| p p' l l' H _ IH]; intros F; [constructor |].
  inversion F; subst. constructor; [eapply peg_gains_clear; eassumption | now apply IH].
Qed.

Lemma peg_update_clear r pegs :
  Forall (peg_clear_of_walls r) pegs -> Forall (peg_clear_of_walls r) (map Peg.update pegs).
Proof.
  intros F. apply Forall_map. eapply Forall_impl; [| exact F]. now intros p H.
Qed.

(** The pass over the balls never raises. *)
Lemma update_balls_ok bs :
  forall pegs g, exists bs' pegs' g',
    PlinkoGame.update_balls bs pegs scoring_top g = Ok (bs', pegs', g')
    /\ Forall2 peg_gains pegs pegs'
    /\ Forall2 (ball_stepped pegs) bs bs'.
Proof.
  induction bs as [| b bs IH]; intros pegs g.
  - exists [], pegs, g. split; [reflexivity |]. split; [apply pegs_gain_refl | constructor].
  - simpl PlinkoGame.update_balls.
    assert (H1 : exists b1 pegs1 g1,
               (if negb (Ball.finalized b) then Ball.update b pegs scoring_top
                else ret (b, pegs)) g = Ok (b1, pegs1, g1)
               /\ Forall2 peg_gains pegs pegs1 /\ ball_stepped pegs b b1).
    { destruct (Ball.finalized b) eqn:Ef; simpl negb; cbv iota.
      - exists b, pegs, g. split; [reflexivity |]. split; [apply pegs_gain_refl |].
        unfold ball_stepped. rewrite Ef. repeat split; auto; discriminate.
      - destruct (ball_update_ok b pegs scoring_top g)
          as (b1 & pegs1 & g1 & E & Hs & Hr & _ & F & Hw).
        exists b1, pegs1, g1. split; [exact E |]. split; [exact F |].
        unfold ball_stepped. rewrite Ef. split; [exact Hr |].
        split; [discriminate | intros _; split; assumption]. }
    destruct H1 as (b1 & pegs1 & g1 & E1 & F1 & S1).
    rewrite (bind_ok _ _ _ _ _ E1).
    destruct (IH pegs1 g1) as (bs' & pegs' & g' & E & F & S).
    rewrite (bind_ok _ _ _ _ _ E). unfold ret.
    exists (b1 :: bs'), pegs', g'. split; [reflexivity |].
    split; [eapply pegs_gain_trans; eassumption |].
    constructor; [exact S1 |].
    eapply Forall2_impl; [| exact S].
    intros c c' (Hr & Hf & Hn). split; [exact Hr |]. split; [exact Hf |].
    intros Hc. destruct (Hn Hc) as [Hs Hw]. split; [exact Hs |].
    intros Hfit Hclear. apply Hw; [exact Hfit |].
    eapply pegs_gain_clear; eassumption.
Qed.

Lemma fold_handle_ball_box_score bs :
  forall game,
    fold_left PlinkoGame.handle_ball_box_score bs game
    = PlinkoGame.set_score game
        (score_after (PlinkoGame.boxes game) bs (PlinkoGame.score game)).
Proof.
  induction bs as [| b bs IH]; intros game.
  - now destruct game.
  - simpl fold_left. rewrite IH. reflexivity.
Qed.

(** The play step never raises.  Its balls are those of the pass that did
    not finalize, its score the old one after each ball finalized by the pass
    was offered to the boxes once. *)
Lemma update_play_ok game g :
  exists bs pegs' g' game',
    PlinkoGame.update_balls (PlinkoGame.balls game) (map Peg.update (PlinkoGame.pegs game))
      scoring_top g = Ok (bs, pegs', g')
    /\ PlinkoGame.update_play game g = Ok (game', g')
    /\ PlinkoGame.balls game' = filter (fun b => negb (Ball.finalized b)) bs
    /\ PlinkoGame.pegs game' = pegs'
    /\ PlinkoGame.boxes game' = PlinkoGame.boxes game
    /\ PlinkoGame.score game'
       = score_after (PlinkoGame.boxes game) (filter Ball.finalized bs)
           (PlinkoGame.score game).
Proof.
  destruct (update_balls_ok (PlinkoGame.balls game) (map Peg.update (PlinkoGame.pegs game)) g)
    as (bs & pegs' & g' & E & _).
  exists bs, pegs', g'. unfold PlinkoGame.update_play.
  cbn [PlinkoGame.set_pegs PlinkoGame.balls PlinkoGame.pegs].
  fold scoring_top. rewrite (bind_ok _ _ _ _ _ E).
  cbn [PlinkoGame.set_pegs PlinkoGame.set_balls PlinkoGame.balls PlinkoGame.pegs].
  rewrite fold_handle_ball_box_score.
  match goal with |- context [if ?c then _ else _] => destruct c end.
  - match goal with |- context [if ?c then _ else _] => destruct c end;
      eexists; (split; [exact E |]); (split; [reflexivity |]); repeat split.
  - eexists; (split; [exact E |]); (split; [reflexivity |]); repeat split.
Qed.

(** ** Reachable games *)

Lemma new_ok g :
  exists pegs g',
    PlinkoGame.new g = Ok (PlinkoGame.init_boxes (PlinkoGame.set_pegs blank_game pegs), g')
    /\ triangular pegs.
Proof.
  unfold PlinkoGame.new. fold blank_game.
  destruct (init_pegs_ok blank_game g) as (pegs & g' & E & T).
  rewrite (bind_ok _ _ _ _ _ E). now exists pegs, g'.
Qed.

Lemma reset_game_ok game g :
  exists pegs g' game',
    PlinkoGame.reset_game game g = Ok (game', g')
    /\ triangular pegs
    /\ PlinkoGame.pegs game' = pegs
    /\ PlinkoGame.balls game' = []
    /\ PlinkoGame.score game' = 0%Z
    /\ PlinkoGame.balls_dropped game' = 0%Z
    /\ PlinkoGame.boxes game' = PlinkoGame.boxes game.
Proof.
  unfold PlinkoGame.reset_game.
  match goal with |- context [PlinkoGame.init_pegs ?s g] =>
    destruct (init_pegs_ok s g) as (pegs & g' & E & T) end.
  exists pegs, g'. eexists. split; [exact E |]. repeat split. exact T.
Qed.

(** An event of the play screen never raises; it leaves the pegs, the boxes
    and the score alone, and a ball it adds is a fresh one of radius
    [BALL_RADIUS]. *)
Lemma handle_play_events_ok game event g :
  exists game' g',
    PlinkoGame.handle_play_events game event g = Ok (game', g')
    /\ PlinkoGame.pegs game' = PlinkoGame.pegs game
    /\ PlinkoGame.boxes game' = PlinkoGame.boxes game
    /\ PlinkoGame.score game' = PlinkoGame.score game
    /\ (PlinkoGame.balls game' = PlinkoGame.balls game
        \/ exists b, PlinkoGame.balls game' = PlinkoGame.balls game ++ [b]
                     /\ Ball.radius b = BALL_RADIUS /\ Ball.finalized b = false).
Proof.
  destruct event as [| mx my pressed |]; simpl.
  - eexists _, _. split; [reflexivity |]. repeat split. now left.
  - destruct (PlinkoGame.pause_button_is_clicked mx my pressed).
    + eexists _, _. split; [reflexivity |]. repeat split. now left.
    + destruct (PlinkoGame.balls_dropped game <? PlinkoGame.balls_allowed game)%Z.
      * unfold bind, choice, uniform, ret. eexists _, _. split; [reflexivity |].
        repeat split. right. eexists. split; [reflexivity |]. now split.
      * eexists _, _. split; [reflexivity |]. repeat split. now left.
  - eexists _, _. split; [reflexivity |]. repeat split. now left.
Qed.

Lemma ball_stepped_radius pegs bs bs' r :
  Forall2 (ball_stepped pegs) bs bs' ->
  Forall (fun b => Ball.radius b = r /\ Ball.finalized b = false) bs ->
  Forall (fun b => Ball.radius b = r) bs'.
Proof.
  induction 1 as [| b b' l l' (Hr & _) _ IH]; intros F; [constructor |].
  inversion F as [| ? ? [Hb _] F']; subst.
  constructor; [congruence | now apply IH].
Qed.

Lemma reachable_board_ok game : reachable game -> board_ok game.
Proof.
  induction 1 as [g game g' E
                 | game g game' g' _ IH E
                 | game event g game' g' _ IH E
                 | game g game' g' _ IH E
                 | game s d n _ IH].
  - destruct (new_ok g) as (pegs & g1 & E1 & T).
    rewrite E1 in E. injection E as <- <-.
    split; [now apply triangular_clear_of_walls |]. split; [constructor | reflexivity].
  - destruct IH as (_ & _ & Hb).
    destruct (reset_game_ok game g) as (pegs & g1 & game1 & E1 & T & Hp & Hbs & _ & _ & Hbx).
    rewrite E1 in E. injection E as <- <-.
    split; [rewrite Hp; now apply triangular_clear_of_walls |].
    split; [rewrite Hbs; constructor | now rewrite Hbx].
  - destruct IH as (Hp & Hbs & Hb).
    destruct (handle_play_events_ok game event g) as (game1 & g1 & E1 & Ep & Eb & _ & Hballs).
    rewrite E1 in E. injection E as <- <-.
    split; [now rewrite Ep |]. split; [| now rewrite Eb].
    destruct Hballs as [-> | (b & -> & Hr & Hf)]; [exact Hbs |].
    apply Forall_app. split; [exact Hbs |]. constructor; [now split | constructor].
  - destruct IH as (Hp & Hbs & Hb).
    destruct (update_play_ok game g) as (bs & pegs' & g1 & game1 & Eb & E1 & Hballs & Hpegs & Hbx & _).
    rewrite E1 in E. injection E as <- <-.
    destruct (update_balls_ok (PlinkoGame.balls game) (map Peg.update (PlinkoGame.pegs game)) g)
      as (bs2 & pegs2 & g2 & E2 & F & S).
    rewrite Eb in E2. injection E2 as <- <- <-.
    split; [| split].
    + rewrite Hpegs. eapply pegs_gain_clear; [exact F |]. now apply peg_update_clear.
    + rewrite Hballs.
      pose proof (ball_stepped_radius _ _ _ _ S Hbs) as Hr.
      apply Forall_forall. intros b Hin. apply filter_In in Hin. destruct Hin as [Hin Hf].
      rewrite Forall_forall in Hr. split; [now apply Hr |].
      now destruct (Ball.finalized b).
    + now rewrite Hbx.
  - exact IH.
Qed.

Lemma stepped_in_walls pegs bs bs' :
  Forall2 (ball_stepped pegs) bs bs' ->
  Forall (fun b => Ball.radius b = BALL_RADIUS /\ Ball.finalized b = false) bs ->
  Forall (peg_clear_of_walls BALL_RADIUS) pegs ->
  Forall in_walls bs'.
Proof.
  intros S Hl Hp. induction S as [| b b' l l' (_ & _ & Hn) _ IH]; [constructor |].
  inversion Hl as [| ? ? [Hr Hf] Hl']; subst.
  constructor; [| now apply IH].
  destruct (Hn Hf) as [_ Hw]. apply Hw.
  - rewrite Hr. unfold BALL_RADIUS, SCREEN_WIDTH. lra.
  - now rewrite Hr.
Qed.

(** ** Wall containment *)

(** C2.  In every reachable game the play step returns, and every ball the
    pass over the balls has stepped - those that stay in play and those that
    finalized in this step alike - ends with
    [radius <= x <= SCREEN_WIDTH - radius]. *)
Theorem balls_stay_between_walls game g :
  reachable game ->
  exists bs pegs' g' game',
    PlinkoGame.update_balls (PlinkoGame.balls game) (map Peg.update (PlinkoGame.pegs game))
      scoring_top g = Ok (bs, pegs', g')
    /\ PlinkoGame.update_play game g = Ok (game', g')
    /\ Forall (fun b => Ball.radius b <= Ball.x b <= IZR SCREEN_WIDTH - Ball.radius b) bs
    /\ Forall (fun b => Ball.radius b <= Ball.x b <= IZR SCREEN_WIDTH - Ball.radius b)
         (PlinkoGame.balls game').
Proof.
  intros Hreach. destruct (reachable_board_ok _ Hreach) as (Hp & Hbs & _).
  destruct (update_play_ok game g) as (bs & pegs' & g1 & game1 & Eb & E1 & Hballs & _).
  exists bs, pegs', g1, game1. split; [exact Eb |]. split; [exact E1 |].
  destruct (update_balls_ok (PlinkoGame.balls game) (map Peg.update (PlinkoGame.pegs game)) g)
    as (bs2 & pegs2 & g2 & E2 & _ & S).
  rewrite Eb in E2. injection E2 as <- <- <-.
  assert (Hin : Forall in_walls bs).
  { eapply stepped_in_walls; [exact S | exact Hbs | now apply peg_update_clear]. }
  split; [exact Hin |].
  rewrite Hballs. apply Forall_forall. intros b Hb. apply filter_In in Hb.
  rewrite Forall_forall in Hin. now apply Hin.
Qed.

(** A new game, one click at the far left (the ball is dropped at [x = 5],
    closer to the wall than its radius), then one play step. *)
Lemma balls_stay_between_walls_witness :
  exists game g,
    reachable game
    /\ (exists b, PlinkoGame.balls game = [b] /\ Ball.x b = 5)
    /\ exists bs pegs' g' game',
         PlinkoGame.update_balls (PlinkoGame.balls game)
           (map Peg.update (PlinkoGame.pegs game)) scoring_top g = Ok (bs, pegs', g')
         /\ PlinkoGame.update_play game g = Ok (game', g')
         /\ Forall (fun b => Ball.radius b <= Ball.x b <= IZR SCREEN_WIDTH - Ball.radius b) bs
         /\ Forall (fun b => Ball.radius b <= Ball.x b <= IZR SCREEN_WIDTH - Ball.radius b)
              (PlinkoGame.balls game').
Proof.
  destruct (new_ok quiet_random) as (pegs & g1 & E & T).
  destruct (PlinkoGame.handle_play_events
              (PlinkoGame.init_boxes (PlinkoGame.set_pegs blank_game pegs))
              (MOUSEBUTTONDOWN_LEFT 5 100 true) g1) as [[game g2] | e] eqn:Eclick;
    [| discriminate Eclick].
  assert (Hreach : reachable game).
  { eapply reach_event; [eapply reach_new; exact E | exact Eclick]. }
  exists game, g2. split; [exact Hreach |]. split.
  - injection Eclick as <- _. eexists. split; reflexivity.
  - apply (balls_stay_between_walls game g2 Hreach).
Defined.

(** ** Scoring *)

Lemma box_matches_spec rect ball :
  PlinkoGame.box_matches rect ball = true
  <-> IZR (Rect.left rect) <= Ball.x ball <= IZR (Rect.right rect)
      /\ IZR (Rect.top rect) <= Ball.y ball + Ball.radius ball.
Proof.
  unfold PlinkoGame.box_matches.
  destruct (Rle_dec (IZR (Rect.left rect)) (Ball.x ball));
    destruct (Rle_dec (Ball.x ball) (IZR (Rect.right rect)));
    destruct (Rle_dec (IZR (Rect.top rect)) (Ball.y ball + Ball.radius ball));
    simpl; split; intros H; try discriminate; try tauto.
Qed.

(** The loop stops at the first box that matches. *)
Lemma score_in_boxes_first bxs ball :
  forall i rect value s,
    nth_error bxs i = Some (rect, value) ->
    PlinkoGame.box_matches rect ball = true ->
    (forall j rect' value', (j < i)%nat -> nth_error bxs j = Some (rect', value') ->
                            PlinkoGame.box_matches rect' ball = false) ->
    PlinkoGame.score_in_boxes bxs ball s = (s + value)%Z.
Proof.
  induction bxs as [| [r0 v0] bxs IH]; intros [| i] rect value s E Hm Hbefore;
    simpl in E; try discriminate.
  - injection E as <- <-. simpl. now rewrite Hm.
  - simpl. rewrite (Hbefore 0%nat r0 v0) by (simpl; auto; lia).
    apply (IH i rect value s E Hm).
    intros j r' v' Hj Ej. apply (Hbefore (S j) r' v'); [lia | exact Ej].
Qed.

Lemma score_in_boxes_none bxs ball s :
  (forall rect value, In (rect, value) bxs -> PlinkoGame.box_matches rect ball = false) ->
  PlinkoGame.score_in_boxes bxs ball s = s.
Proof.
  induction bxs as [| [r0 v0] bxs IH]; intros H; [reflexivity |].
  simpl. rewrite (H r0 v0) by now left.
  apply IH. intros r v Hin. apply (H r v). now right.
Qed.

(** Either way the score is the old one, or the old one plus the value of a
    box of the list. *)
Lemma score_in_boxes_cases bxs ball s :
  PlinkoGame.score_in_boxes bxs ball s = s
  \/ exists rect value, In (rect, value) bxs
                        /\ PlinkoGame.score_in_boxes bxs ball s = (s + value)%Z.
Proof.
  induction bxs as [| [r0 v0] bxs IH]; [now left |].
  simpl. destruct (PlinkoGame.box_matches r0 ball).
  - right. exists r0, v0. split; [now left | reflexivity].
  - destruct IH as [E | (r & v & Hin & E)]; [now left |].
    right. exists r, v. split; [now right | exact E].
Qed.

Lemma box_values_positive : Forall (fun v => (0 < v)%Z) BOX_VALUES.
Proof. unfold BOX_VALUES. repeat constructor. Qed.

(** The five boxes [init_boxes] makes, from left to right. *)
Lemma init_boxes_list self :
  PlinkoGame.boxes (PlinkoGame.init_boxes self)
  = [ (Rect.Build 0 520 160 80, 10%Z); (Rect.Build 160 520 160 80, 20%Z);
      (Rect.Build 320 520 160 80, 50%Z); (Rect.Build 480 520 160 80, 20%Z);
      (Rect.Build 640 520 160 80, 10%Z) ].
Proof. reflexivity. Qed.

Lemma reachable_boxes game :
  reachable game ->
  Forall (fun bx => In (snd bx) BOX_VALUES) (PlinkoGame.boxes game).
Proof.
  intros H. destruct (reachable_board_ok _ H) as (_ & _ & ->).
  rewrite init_boxes_list. unfold BOX_VALUES.
  repeat (apply Forall_cons; [simpl; tauto |]). apply Forall_nil.
Qed.

Lemma score_in_boxes_mono bxs ball s :
  Forall (fun bx => In (snd bx) BOX_VALUES) bxs ->
  (s <= PlinkoGame.score_in_boxes bxs ball s)%Z.
Proof.
  intros F. destruct (score_in_boxes_cases bxs ball s) as [-> | (r & v & Hin & ->)]; [lia |].
  rewrite Forall_forall in F. specialize (F _ Hin). simpl in F.
  pose proof box_values_positive as P. rewrite Forall_forall in P.
  specialize (P _ F). lia.
Qed.

Lemma score_in_boxes_gain bxs ball s :
  Forall (fun bx => In (snd bx) BOX_VALUES) bxs ->
  (exists rect value, In (rect, value) bxs /\ PlinkoGame.box_matches rect ball = true) ->
  (s < PlinkoGame.score_in_boxes bxs ball s)%Z.
Proof.
  intros F (r & v & Hin & Hm).
  pose proof box_values_positive as P. rewrite Forall_forall in P.
  induction bxs as [| [r0 v0] bxs IH]; [contradiction |].
  inversion F as [| ? ? Hv F']; subst. simpl in Hv |- *.
  destruct (PlinkoGame.box_matches r0 ball) eqn:E0.
  - specialize (P _ Hv). lia.
  - destruct Hin as [Heq | Hin]; [| now apply IH].
    injection Heq as -> ->. congruence.
Qed.

Lemma score_after_mono bxs bs :
  Forall (fun bx => In (snd bx) BOX_VALUES) bxs ->
  forall s, (s <= score_after bxs bs s)%Z.
Proof.
  intros F. induction bs as [| b bs IH]; intros s; simpl; [lia |].
  unfold score_after in *. simpl.
  pose proof (score_in_boxes_mono bxs b s F). specialize (IH (PlinkoGame.score_in_boxes bxs b s)).
  lia.
Qed.

Lemma stepped_finalized_same pegs bs bs' :
  Forall2 (ball_stepped pegs) bs bs' ->
  Forall2 (fun b b' => Ball.finalized b = true -> b' = b) bs bs'.
Proof.
  intros S. eapply Forall2_impl; [| exact S]. now intros b b' (_ & H & _).
Qed.

Lemma filter_not_finalized bs :
  Forall (fun b => Ball.finalized b = false)
    (filter (fun b => negb (Ball.finalized b)) bs).
Proof.
  apply Forall_forall. intros b Hin. apply filter_In in Hin.
  destruct Hin as [_ H]. now destruct (Ball.finalized b).
Qed.

(** C6.  A step of a ball never clears its finalized flag.  In the play step,
    which always returns, the pass over the balls hands back every ball that
    was already finalized exactly as it was; the balls finalized at the end of
    the pass are each offered to the boxes, and none of them is among the
    balls the step leaves in the game.  Hence no reachable game holds a
    finalized ball when a step begins. *)
Theorem finalized_ball_never_simulated game g :
  (forall b pegs box g0, exists b' pegs' g1,
      Ball.update b pegs box g0 = Ok (b', pegs', g1)
      /\ (Ball.finalized b = true -> Ball.finalized b' = true))
  /\ (exists bs pegs' g' game',
        PlinkoGame.update_balls (PlinkoGame.balls game)
          (map Peg.update (PlinkoGame.pegs game)) scoring_top g = Ok (bs, pegs', g')
        /\ PlinkoGame.update_play game g = Ok (game', g')
        /\ Forall2 (fun b b' => Ball.finalized b = true -> b' = b)
             (PlinkoGame.balls game) bs
        /\ PlinkoGame.balls game' = filter (fun b => negb (Ball.finalized b)) bs
        /\ Forall (fun b => Ball.finalized b = false) (PlinkoGame.balls game')
        /\ PlinkoGame.score game'
           = PlinkoGame.score
               (fold_left PlinkoGame.handle_ball_box_score (filter Ball.finalized bs) game))
  /\ (reachable game ->
      Forall (fun b => Ball.finalized b = false) (PlinkoGame.balls game)).
Proof.
  split; [| split].
  - intros b pegs box g0.
    destruct (ball_update_ok b pegs box g0) as (b' & pegs' & g1 & E & _ & _ & Hf & _).
    now exists b', pegs', g1.
  - destruct (update_play_ok game g)
      as (bs & pegs' & g1 & game1 & Eb & E1 & Hballs & _ & _ & Hscore).
    exists bs, pegs', g1, game1. split; [exact Eb |]. split; [exact E1 |].
    destruct (update_balls_ok (PlinkoGame.balls game)
                (map Peg.update (PlinkoGame.pegs game)) g)
      as (bs2 & pegs2 & g2 & E2 & _ & S).
    rewrite Eb in E2. injection E2 as <- <- <-.
    split; [now apply stepped_finalized_same with (pegs := map Peg.update (PlinkoGame.pegs game)) |].
    split; [exact Hballs |].
    split; [rewrite Hballs; apply filter_not_finalized |].
    rewrite fold_handle_ball_box_score. exact Hscore.
  - intros Hreach. destruct (reachable_board_ok _ Hreach) as (_ & Hbs & _).
    eapply Forall_impl; [| exact Hbs]. now intros b [_ H].
Qed.

(** The finalized ball of [parked_game] comes out of the pass as it went in
    and is gone after the step; a new game holds no finalized ball. *)
Lemma finalized_ball_never_simulated_witness :
  (exists bs pegs' g' game',
      PlinkoGame.update_balls (PlinkoGame.balls parked_game)
        (map Peg.update (PlinkoGame.pegs parked_game)) scoring_top quiet_random
      = Ok (bs, pegs', g')
      /\ PlinkoGame.update_play parked_game quiet_random = Ok (game', g')
      /\ bs = [parked_ball]
      /\ PlinkoGame.balls game' = [])
  /\ exists game g1,
       PlinkoGame.new quiet_random = Ok (game, g1)
       /\ Forall (fun b => Ball.finalized b = false) (PlinkoGame.balls game).
Proof.
  split.
  - destruct (finalized_ball_never_simulated parked_game quiet_random)
      as (_ & (bs & pegs' & g' & game' & Eb & E & S & Hballs & _) & _).
    exists bs, pegs', g', game'. split; [exact Eb |]. split; [exact E |].
    assert (Hbs : bs = [parked_ball]).
    { simpl in S. inversion S as [| ? b' ? l' Hb Hl]; subst. inversion Hl; subst.
      now rewrite Hb. }
    split; [exact Hbs |]. now rewrite Hballs, Hbs.
  - destruct (new_ok quiet_random) as (pegs & g1 & E & _).
    eexists _, g1. split; [exact E |].
    destruct (finalized_ball_never_simulated
                (PlinkoGame.init_boxes (PlinkoGame.set_pegs blank_game pegs)) quiet_random)
      as (_ & _ & H).
    apply H. eapply reach_new. exact E.
Defined.

(** C7.  A box matches a ball when the ball's x lies in its closed span and
    its top is at or above the ball's lower edge.  Scoring a ball adds the
    value of the first box of the list that matches, and changes nothing but
    the score; when no box matches the game is returned as it was.  The boxes
    of [init_boxes] are listed from left to right.  In the play step every
    ball finalized by the pass is scored by one call, and is not among the
    balls left in the game, so it is never scored again. *)
Theorem first_matching_box_scores_once game ball :
  (forall rect,
      PlinkoGame.box_matches rect ball = true
      <-> IZR (Rect.left rect) <= Ball.x ball <= IZR (Rect.right rect)
          /\ IZR (Rect.top rect) <= Ball.y ball + Ball.radius ball)
  /\ (forall i rect value,
         nth_error (PlinkoGame.boxes game) i = Some (rect, value) ->
         PlinkoGame.box_matches rect ball = true ->
         (forall j rect' value',
             (j < i)%nat -> nth_error (PlinkoGame.boxes game) j = Some (rect', value') ->
             PlinkoGame.box_matches rect' ball = false) ->
         PlinkoGame.handle_ball_box_score game ball
         = PlinkoGame.set_score game (PlinkoGame.score game + value))
  /\ ((forall rect value, In (rect, value) (PlinkoGame.boxes game) ->
                          PlinkoGame.box_matches rect ball = false) ->
      PlinkoGame.handle_ball_box_score game ball = game)
  /\ (forall i rect value,
         nth_error (PlinkoGame.boxes (PlinkoGame.init_boxes game)) i = Some (rect, value) ->
         Rect.left rect = (Z.of_nat i * 160)%Z /\ Rect.right rect = (Z.of_nat i * 160 + 160)%Z
         /\ Rect.top rect = 520%Z /\ nth_error BOX_VALUES i = Some value)
  /\ (forall g, exists bs pegs' g' game',
         PlinkoGame.update_balls (PlinkoGame.balls game)
           (map Peg.update (PlinkoGame.pegs game)) scoring_top g = Ok (bs, pegs', g')
         /\ PlinkoGame.update_play game g = Ok (game', g')
         /\ PlinkoGame.score game'
            = PlinkoGame.score
                (fold_left PlinkoGame.handle_ball_box_score (filter Ball.finalized bs) game)
         /\ PlinkoGame.balls game' = filter (fun b => negb (Ball.finalized b)) bs).
Proof.
  split; [intros rect; apply box_matches_spec |].
  split; [| split; [| split]].
  - intros i rect value E Hm Hbefore. unfold PlinkoGame.handle_ball_box_score.
    now rewrite (score_in_boxes_first _ _ i rect value _ E Hm Hbefore).
  - intros Hnone. unfold PlinkoGame.handle_ball_box_score.
    rewrite (score_in_boxes_none _ _ _ Hnone). now destruct game.
  - intros i rect value E. rewrite init_boxes_list in E.
    do 5 (destruct i as [| i]; [injection E as <- <-; repeat split; reflexivity |]).
    destruct i; discriminate E.
  - intros g.
    destruct (update_play_ok game g)
      as (bs & pegs' & g1 & game1 & Eb & E1 & Hballs & _ & _ & Hscore).
    exists bs, pegs', g1, game1. split; [exact Eb |]. split; [exact E1 |].
    split; [| exact Hballs]. rewrite fold_handle_ball_box_score. exact Hscore.
Qed.

Lemma edge_ball_first_box :
  PlinkoGame.box_matches (Rect.Build 0 520 160 80) edge_ball = true.
Proof.
  apply box_matches_spec. unfold edge_ball, BALL_RADIUS, Rect.right. simpl. lra.
Qed.

(** [edge_ball] lies in the span of the first box and of the second; it
    scores the 10 of the first. *)
Lemma first_matching_box_scores_once_witness :
  nth_error (PlinkoGame.boxes parked_game) 0 = Some (Rect.Build 0 520 160 80, 10%Z)
  /\ PlinkoGame.box_matches (Rect.Build 0 520 160 80) edge_ball = true
  /\ PlinkoGame.handle_ball_box_score parked_game edge_ball
     = PlinkoGame.set_score parked_game (PlinkoGame.score parked_game + 10).
Proof.
  split; [reflexivity |]. split; [exact edge_ball_first_box |].
  destruct (first_matching_box_scores_once parked_game edge_ball) as (_ & H & _).
  apply (H 0%nat (Rect.Build 0 520 160 80) 10%Z).
  - reflexivity.
  - exact edge_ball_first_box.
  - intros j rect' value' Hj. lia.
Defined.

(** C10.  Every entry of [BOX_VALUES] is positive.  In a reachable game every
    box carries one of these values; scoring a ball never lowers the score and
    raises it when some box matches; the events of the play screen leave the
    score as it is; and the play step, which always returns, ends with a score
    at least as large as the one it started with, as does the per-frame
    [update] in whatever state the game is. *)
Theorem score_never_decreases game g :
  Forall (fun v => (0 < v)%Z) BOX_VALUES
  /\ (reachable game ->
      Forall (fun bx => In (snd bx) BOX_VALUES) (PlinkoGame.boxes game)
      /\ (forall ball,
             (PlinkoGame.score game
              <= PlinkoGame.score (PlinkoGame.handle_ball_box_score game ball))%Z)
      /\ (forall ball,
             (exists rect value, In (rect, value) (PlinkoGame.boxes game)
                                 /\ PlinkoGame.box_matches rect ball = true) ->
             (PlinkoGame.score game
              < PlinkoGame.score (PlinkoGame.handle_ball_box_score game ball))%Z)
      /\ (forall event, exists game' g',
             PlinkoGame.handle_play_events game event g = Ok (game', g')
             /\ PlinkoGame.score game' = PlinkoGame.score game)
      /\ (exists game' g',
             PlinkoGame.update_play game g = Ok (game', g')
             /\ (PlinkoGame.score game <= PlinkoGame.score game')%Z)
      /\ exists game' g',
           PlinkoGame.update game g = Ok (game', g')
           /\ (PlinkoGame.score game <= PlinkoGame.score game')%Z).
Proof.
  split; [exact box_values_positive |].
  intros Hreach. pose proof (reachable_boxes _ Hreach) as F.
  assert (Hplay : exists game' g',
             PlinkoGame.update_play game g = Ok (game', g')
             /\ (PlinkoGame.score game <= PlinkoGame.score game')%Z).
  { destruct (update_play_ok game g)
      as (bs & pegs' & g1 & game1 & _ & E1 & _ & _ & _ & Hscore).
    exists game1, g1. split; [exact E1 |]. rewrite Hscore. now apply score_after_mono. }
  split; [exact F |]. split; [| split; [| split; [| split; [exact Hplay |]]]];
    [| | | unfold PlinkoGame.update; destruct (PlinkoGame.state game);
           try exact Hplay; exists game, g; (split; [reflexivity | lia])].
  - intros ball. apply score_in_boxes_mono. exact F.
  - intros ball Hm. now apply score_in_boxes_gain.
  - intros event.
    destruct (handle_play_events_ok game event g) as (game' & g' & E & _ & _ & Hs & _).
    now exists game', g'.
Qed.

(** ** Particles *)

Lemma peg_round_particles add peg :
  Peg.particles (peg_round add peg)
  = Peg.particles (Peg.update peg) ++ add.
Proof. reflexivity. Qed.

Lemma peg_update_app peg l1 l2 :
  Peg.particles (Peg.update (Peg.set_particles peg (l1 ++ l2)))
  = Peg.particles (Peg.update (Peg.set_particles peg l1))
    ++ Peg.particles (Peg.update (Peg.set_particles peg l2)).
Proof.
  unfold Peg.update, Peg.set_particles. cbn [Peg.particles].
  now rewrite map_app, filter_app.
Qed.

(** The particles after some rounds depend on the particles before only. *)
Lemma peg_rounds_set adds : forall peg,
  Peg.particles (peg_rounds adds peg)
  = Peg.particles (peg_rounds adds (Peg.set_particles peg (Peg.particles peg))).
Proof. intros peg. now destruct peg. Qed.

Lemma peg_rounds_cons add adds peg :
  peg_rounds (add :: adds) peg = peg_rounds adds (peg_round add peg).
Proof. reflexivity. Qed.

Lemma peg_round_set add peg ps :
  peg_round add (Peg.set_particles peg ps)
  = Peg.set_particles peg
      (Peg.particles (Peg.update (Peg.set_particles peg ps)) ++ add).
Proof. reflexivity. Qed.

(** Rounds act on a list of particles piece by piece: what is appended comes
    after everything that was there. *)
Lemma peg_rounds_app adds : forall peg l1 l2,
  Peg.particles (peg_rounds adds (Peg.set_particles peg (l1 ++ l2)))
  = Peg.particles (quiet_rounds (length adds) (Peg.set_particles peg l1))
    ++ Peg.particles (peg_rounds adds (Peg.set_particles peg l2)).
Proof.
  induction adds as [| add adds IH]; intros peg l1 l2; [reflexivity |].
  unfold quiet_rounds. simpl length. simpl repeat.
  rewrite !peg_rounds_cons, !peg_round_set, peg_update_app, app_nil_r, <- app_assoc.
  apply IH.
Qed.

Lemma particle_lifetime_iter k : forall p,
  Particle.lifetime (Nat.iter k Particle.update p) = (Particle.lifetime p - Z.of_nat k)%Z.
Proof.
  induction k as [| k IH]; intros p; [simpl; lia |].
  rewrite Nat.iter_succ, Nat2Z.inj_succ. unfold Particle.update at 1.
  cbn [Particle.lifetime]. rewrite IH. lia.
Qed.

Lemma quiet_rounds_nil k : forall peg,
  Peg.particles (quiet_rounds k (Peg.set_particles peg [])) = [].
Proof.
  induction k as [| k IH]; intros peg; [reflexivity |].
  unfold quiet_rounds in *. simpl repeat. rewrite peg_rounds_cons, peg_round_set.
  apply IH.
Qed.

(** A single live particle through [k] quiet rounds: there, aged [k] times,
    while [k] is below its lifetime, and gone from then on. *)
Lemma quiet_rounds_single k : forall peg p,
  (0 < Particle.lifetime p)%Z ->
  Peg.particles (quiet_rounds k (Peg.set_particles peg [p]))
  = if (Z.of_nat k <? Particle.lifetime p)%Z then [Nat.iter k Particle.update p] else [].
Proof.
  induction k as [| k IH]; intros peg p Hp.
  - unfold quiet_rounds. simpl.
    destruct (Z.ltb_spec 0 (Particle.lifetime p)); [reflexivity | lia].
  - unfold quiet_rounds in *. simpl repeat. rewrite peg_rounds_cons, peg_round_set.
    unfold Peg.update at 1. cbn [Peg.set_particles Peg.particles map filter].
    assert (Hl : Particle.lifetime (Particle.update p) = (Particle.lifetime p - 1)%Z)
      by reflexivity.
    rewrite Hl, Nat2Z.inj_succ.
    destruct (Z.ltb_spec 0 (Particle.lifetime p - 1)) as [Hlive | Hdead].
    + simpl app. rewrite (IH peg (Particle.update p)) by (rewrite Hl; exact Hlive).
      rewrite Hl, Nat.iter_succ_r.
      destruct (Z.ltb_spec (Z.of_nat k) (Particle.lifetime p - 1));
        destruct (Z.ltb_spec (Z.succ (Z.of_nat k)) (Particle.lifetime p));
        try reflexivity; lia.
    + simpl app. pose proof (quiet_rounds_nil k peg) as Hn.
      unfold quiet_rounds in Hn. rewrite Hn.
      destruct (Z.ltb_spec (Z.succ (Z.of_nat k)) (Particle.lifetime p));
        [lia | reflexivity].
Qed.

Lemma Forall2_map_left {A B C : Type} (Q : B -> C -> Prop) (f : A -> B) l l' :
  Forall2 Q (map f l) l' -> Forall2 (fun a c => Q (f a) c) l l'.
Proof.
  revert l'. induction l as [| a l IH]; intros l' F; inversion F; subst; constructor.
  - assumption.
  - now apply IH.
Qed.

(** In a play step each peg goes through one round. *)
Lemma update_play_pegs game g :
  exists game' g',
    PlinkoGame.update_play game g = Ok (game', g')
    /\ Forall2 (fun pg pg' =>
                  exists add, pg' = peg_round add pg
                              /\ Forall (fun q => Particle.lifetime q = PARTICLE_LIFETIME) add)
         (PlinkoGame.pegs game) (PlinkoGame.pegs game').
Proof.
  destruct (update_play_ok game g) as (bs & pegs' & g1 & game1 & Eb & E1 & _ & Hpegs & _).
  exists game1, g1. split; [exact E1 |].
  destruct (update_balls_ok (PlinkoGame.balls game) (map Peg.update (PlinkoGame.pegs game)) g)
    as (bs2 & pegs2 & g2 & E2 & F & _).
  rewrite Eb in E2. injection E2 as <- <- <-.
  rewrite Hpegs. apply Forall2_map_left in F.
  eapply Forall2_impl; [| exact F].
  intros pg pg' (extra & -> & Hx). now exists extra.
Qed.

(** C8.  A particle with lifetime [L > 0] that sits in a peg's list, between
    the particles [before] and [after] it, is followed through the rounds of
    the peg: [Peg.update], then what the step's collisions append.  After [k]
    rounds with [k < L] it is still there, in its place, aged [k] times and
    with [L - k] left; after [k] rounds with [k >= L] the list holds what has
    become of [before] and of [after] and nothing else.  So it is there after
    rounds [0 .. L - 1] and is pruned by round [L], the first that brings its
    lifetime to zero.  Every play step, which always returns, takes each peg
    through one such round. *)
Theorem particle_lives_exactly_its_lifetime peg before p after adds :
  Peg.particles peg = before ++ p :: after ->
  (0 < Particle.lifetime p)%Z ->
  ((Z.of_nat (length adds) < Particle.lifetime p)%Z ->
   Peg.particles (peg_rounds adds peg)
   = Peg.particles (quiet_rounds (length adds) (Peg.set_particles peg before))
     ++ Nat.iter (length adds) Particle.update p
        :: Peg.particles (peg_rounds adds (Peg.set_particles peg after))
   /\ Particle.lifetime (Nat.iter (length adds) Particle.update p)
      = (Particle.lifetime p - Z.of_nat (length adds))%Z)
  /\ ((Particle.lifetime p <= Z.of_nat (length adds))%Z ->
      Peg.particles (peg_rounds adds peg)
      = Peg.particles (quiet_rounds (length adds) (Peg.set_particles peg before))
        ++ Peg.particles (peg_rounds adds (Peg.set_particles peg after)))
  /\ (forall game g, exists game' g',
         PlinkoGame.update_play game g = Ok (game', g')
         /\ Forall2 (fun pg pg' =>
                       exists add,
                         pg' = peg_round add pg
                         /\ Forall (fun q => Particle.lifetime q = PARTICLE_LIFETIME) add)
              (PlinkoGame.pegs game) (PlinkoGame.pegs game')).
Proof.
  intros Hps Hlive.
  assert (Hsplit :
            Peg.particles (peg_rounds adds peg)
            = Peg.particles (quiet_rounds (length adds) (Peg.set_particles peg before))
              ++ (if (Z.of_nat (length adds) <? Particle.lifetime p)%Z
                  then [Nat.iter (length adds) Particle.update p] else [])
              ++ Peg.particles (peg_rounds adds (Peg.set_particles peg after))).
  { rewrite peg_rounds_set, Hps.
    rewrite (peg_rounds_app adds peg before (p :: after)).
    change (p :: after) with ([p] ++ after).
    rewrite (peg_rounds_app adds peg [p] after).
    now rewrite (quiet_rounds_single _ peg p Hlive). }
  split; [| split].
  - intros Hk. rewrite Hsplit.
    destruct (Z.ltb_spec (Z.of_nat (length adds)) (Particle.lifetime p)); [| lia].
    split; [reflexivity | apply particle_lifetime_iter].
  - intros Hk. rewrite Hsplit.
    destruct (Z.ltb_spec (Z.of_nat (length adds)) (Particle.lifetime p)); [lia |].
    reflexivity.
  - intros game g. apply update_play_pegs.
Qed.

(** [short_particle], with lifetime 3, is still in [busy_peg]'s list after two
    rounds and no longer after three. *)
Lemma particle_lives_exactly_its_lifetime_witness :
  Peg.particles busy_peg = [long_particle] ++ short_particle :: [long_particle]
  /\ (0 < Particle.lifetime short_particle)%Z
  /\ Peg.particles (peg_rounds [[]; []] busy_peg)
     = Peg.particles (quiet_rounds 2 (Peg.set_particles busy_peg [long_particle]))
       ++ Nat.iter 2 Particle.update short_particle
          :: Peg.particles (peg_rounds [[]; []] (Peg.set_particles busy_peg [long_particle]))
  /\ Peg.particles (peg_rounds [[]; []; []] busy_peg)
     = Peg.particles (quiet_rounds 3 (Peg.set_particles busy_peg [long_particle]))
       ++ Peg.particles (peg_rounds [[]; []; []] (Peg.set_particles busy_peg [long_particle])).
Proof.
  split; [reflexivity |]. split; [reflexivity |]. split.
  - destruct (particle_lives_exactly_its_lifetime busy_peg [long_particle] short_particle
                [long_particle] [[]; []] eq_refl eq_refl) as (H & _).
    destruct H as [H _]; [reflexivity | exact H].
  - destruct (particle_lives_exactly_its_lifetime busy_peg [long_particle] short_particle
                [long_particle] [[]; []; []] eq_refl eq_refl) as (_ & H & _).
    apply H. simpl. lia.
Defined.

(** ** Playfield reset *)

Lemma triangular_galton pegs : triangular pegs -> galton_layout pegs.
Proof.
  intros (rows & -> & F). exists rows. split; [reflexivity |].
  split; [apply Forall2_length in F; unfold range in F; rewrite length_seq in F; auto |].
  intros r row Er.
  destruct (Forall2_nth_error_r _ _ _ F r row Er) as (k & Ek & Hk).
  apply nth_error_seq_inv in Ek. destruct Ek as [-> _]. simpl in Hk.
  split; [now apply row_of_length |]. split; [now apply row_of_centered with (r := r) |].
  intros i pg Ei. destruct (row_of_nth _ _ _ _ Hk Ei) as (_ & c & ->).
  repeat split; reflexivity.
Qed.

Lemma triangular_length pegs :
  triangular pegs ->
  length pegs = list_sum (map (fun r => (r + 3)%nat) (range NUM_PEG_ROWS)).
Proof. intros (rows & -> & F). now apply rows_total_length. Qed.

(** C9.  [init_pegs], which never raises, makes the pegs row by row: rows
    [0 .. NUM_PEG_ROWS - 1], row [r] with exactly [r + 3] fresh pegs, centred
    on the playfield width; their number is the sum of [r + 3] over the rows,
    which is 52.  [reset_game] never raises either, and after it the pegs are
    such a layout, of that number, no ball is left and no peg has a
    particle. *)
Theorem reset_lays_out_triangle self g :
  (exists made g1,
      PlinkoGame.init_pegs self g = Ok (PlinkoGame.set_pegs self made, g1)
      /\ galton_layout made
      /\ length made = list_sum (map (fun r => (r + 3)%nat) (range NUM_PEG_ROWS)))
  /\ list_sum (map (fun r => (r + 3)%nat) (range NUM_PEG_ROWS)) = 52%nat
  /\ (exists self' g',
         PlinkoGame.reset_game self g = Ok (self', g')
         /\ galton_layout (PlinkoGame.pegs self')
         /\ length (PlinkoGame.pegs self')
            = list_sum (map (fun r => (r + 3)%nat) (range NUM_PEG_ROWS))
         /\ PlinkoGame.balls self' = []
         /\ Forall (fun pg => Peg.particles pg = []) (PlinkoGame.pegs self')).
Proof.
  split; [| split].
  - destruct (init_pegs_ok self g) as (made & g1 & E & T).
    exists made, g1. split; [exact E |].
    split; [now apply triangular_galton | now apply triangular_length].
  - reflexivity.
  - destruct (reset_game_ok self g) as (pegs & g' & self' & E & T & Hp & Hb & _).
    exists self', g'. split; [exact E |]. rewrite Hp.
    split; [now apply triangular_galton |]. split; [now apply triangular_length |].
    split; [exact Hb |].
    apply Forall_forall. intros pg Hin.
    now destruct (triangular_peg pegs pg T Hin) as (_ & _ & H).
Qed.

(** ** Further properties: helpers of the settings screen *)

(** X1.  With [min_val <= max_val], [clamp] returns a value of the interval:
    the value itself when it lies inside, the nearer bound otherwise, so that
    clamping twice is clamping once. *)
Theorem clamp_within value min_val max_val :
  (min_val <= max_val)%Z ->
  (min_val <= clamp value min_val max_val <= max_val)%Z
  /\ ((min_val <= value <= max_val)%Z -> clamp value min_val max_val = value)
  /\ ((value < min_val)%Z -> clamp value min_val max_val = min_val)
  /\ ((max_val < value)%Z -> clamp value min_val max_val = max_val)
  /\ clamp (clamp value min_val max_val) min_val max_val = clamp value min_val max_val.
Proof. intros H. unfold clamp. repeat split; intros; lia. Qed.

Lemma clamp_within_witness :
  (1 <= 50)%Z
  /\ clamp 0 1 50 = 1%Z /\ clamp 51 1 50 = 50%Z /\ clamp 25 1 50 = 25%Z.
Proof.
  split; [lia |].
  destruct (clamp_within 0 1 50) as (_ & _ & Hlo & _); [lia |].
  destruct (clamp_within 51 1 50) as (_ & _ & _ & Hhi & _); [lia |].
  destruct (clamp_within 25 1 50) as (_ & Hin & _); [lia |].
  split; [apply Hlo; lia |]. split; [apply Hhi; lia | apply Hin; lia].
Defined.

(** ** Further properties: particles *)

(** X2.  A particle updated [k] times has moved along a parabola: the
    horizontal velocity is kept and the vertical one has grown by [0.1] per
    step, so [x] has advanced by [k * vx] and [y] by
    [k * vy + 0.05 * k * (k - 1)]; the colour is kept and the lifetime has
    dropped by [k]. *)
Theorem particle_trajectory k p :
  Particle.vx (Nat.iter k Particle.update p) = Particle.vx p
  /\ Particle.vy (Nat.iter k Particle.update p) = Particle.vy p + 0.1 * INR k
  /\ Particle.x (Nat.iter k Particle.update p) = Particle.x p + INR k * Particle.vx p
  /\ Particle.y (Nat.iter k Particle.update p)
     = Particle.y p + INR k * Particle.vy p + 0.05 * INR k * (INR k - 1)
  /\ Particle.color (Nat.iter k Particle.update p) = Particle.color p
  /\ Particle.lifetime (Nat.iter k Particle.update p)
     = (Particle.lifetime p - Z.of_nat k)%Z.
Proof.
  induction k as [| k (Hvx & Hvy & Hx & Hy & Hc & Hl)].
  - simpl. repeat split; try lra. lia.
  - rewrite Nat.iter_succ, S_INR. unfold Particle.update at 1 3 5 7 9 11.
    cbn [Particle.x Particle.y Particle.vx Particle.vy Particle.color Particle.lifetime].
    rewrite Hvx, Hvy, Hx, Hy, Hc, Hl. repeat split; try lra. lia.
Qed.

Lemma peg_update_live peg :
  Forall (fun q => (0 < Particle.lifetime q <= PARTICLE_LIFETIME)%Z) (Peg.particles peg) ->
  Forall (fun q => (0 < Particle.lifetime q <= PARTICLE_LIFETIME)%Z)
    (Peg.particles (Peg.update peg)).
Proof.
  intros F. unfold Peg.update. cbn [Peg.set_particles Peg.particles].
  apply Forall_forall. intros q Hq. apply filter_In in Hq. destruct Hq as [Hin Hpos].
  apply in_map_iff in Hin. destruct Hin as (q0 & <- & Hin0).
  rewrite Forall_forall in F. specialize (F _ Hin0).
  apply Z.ltb_lt in Hpos. split; [exact Hpos |].
  unfold Particle.update. cbn [Particle.lifetime]. lia.
Qed.

Lemma peg_round_live add peg :
  Forall (fun q => Particle.lifetime q = PARTICLE_LIFETIME) add ->
  Forall (fun q => (0 < Particle.lifetime q <= PARTICLE_LIFETIME)%Z) (Peg.particles peg) ->
  Forall (fun q => (0 < Particle.lifetime q <= PARTICLE_LIFETIME)%Z)
    (Peg.particles (peg_round add peg)).
Proof.
  intros Fa F. rewrite peg_round_particles. apply Forall_app. split.
  - now apply peg_update_live.
  - eapply Forall_impl; [| exact Fa]. intros q ->. unfold PARTICLE_LIFETIME. lia.
Qed.

Lemma triangular_particles_live pegs : triangular pegs -> particles_live pegs.
Proof.
  intros T. apply Forall_forall. intros pg Hin.
  destruct (triangular_peg _ _ T Hin) as (_ & _ & ->). constructor.
Qed.

(** X3.  In every reachable game every particle of every peg has at least one
    and at most [PARTICLE_LIFETIME] steps left: none is dead, none outlives
    the 30 steps it is born with. *)
Theorem particles_stay_live game :
  reachable game ->
  Forall (fun pg =>
            Forall (fun q => (0 < Particle.lifetime q <= PARTICLE_LIFETIME)%Z)
              (Peg.particles pg))
    (PlinkoGame.pegs game).
Proof.
  fold (particles_live (PlinkoGame.pegs game)).
  induction 1 as [g game g' E
                 | game g game' g' _ IH E
                 | game event g game' g' _ IH E
                 | game g game' g' _ IH E
                 | game s d n _ IH].
  - destruct (new_ok g) as (pegs & g1 & E1 & T).
    rewrite E1 in E. injection E as <- <-. now apply triangular_particles_live.
  - destruct (reset_game_ok game g) as (pegs & g1 & game1 & E1 & T & Hp & _).
    rewrite E1 in E. injection E as <- <-. rewrite Hp. now apply triangular_particles_live.
  - destruct (handle_play_events_ok game event g) as (game1 & g1 & E1 & Ep & _).
    rewrite E1 in E. injection E as <- <-. now rewrite Ep.
  - destruct (update_play_pegs game g) as (game1 & g1 & E1 & F).
    rewrite E1 in E. injection E as <- <-.
    unfold particles_live in *. revert IH F.
    generalize (PlinkoGame.pegs game) (PlinkoGame.pegs game1).
    intros l l' IH F. induction F as [| pg pg' l l' (add & -> & Fa) _ IHF]; [constructor |].
    inversion IH; subst. constructor; [now apply peg_round_live | now apply IHF].
  - exact IH.
Qed.

(** The burst loop in detail: two draws per particle, each particle at the
    given point, of the given colour, with a full lifetime and a velocity of
    magnitude [1 + 3 * u] for one of the unit draws [u]. *)
Lemma spawn_burst_detail px py c (ks : list nat) :
  forall ps g, exists burst g',
    for_each ks (Ball.spawn_particle px py c) ps g = Ok (ps ++ burst, g')
    /\ length burst = length ks
    /\ Random.draws g' = (Random.draws g + 2 * length ks)%nat
    /\ Random.draw_unit g' = Random.draw_unit g
    /\ Forall (fun q =>
                 Particle.x q = px /\ Particle.y q = py /\ Particle.color q = c
                 /\ Particle.lifetime q = PARTICLE_LIFETIME
                 /\ exists k angle,
                      Particle.vx q = (1 + 3 * Random.draw_unit g k) * cos angle
                      /\ Particle.vy q = (1 + 3 * Random.draw_unit g k) * sin angle)
         burst.
Proof.
  induction ks as [| k0 ks IH]; intros ps g.
  - exists [], g. simpl. rewrite app_nil_r. repeat split; auto.
  - simpl for_each. unfold bind at 1. unfold Ball.spawn_particle at 1.
    unfold bind, uniform, ret.
    match goal with |- context [for_each ks _ (ps ++ [?q]) ?g1] =>
      destruct (IH (ps ++ [q]) g1) as (burst & g' & E & L & D & U & F);
      exists (q :: burst), g' end.
    rewrite E, <- app_assoc. simpl in *. split; [reflexivity |].
    split; [now rewrite L |]. split; [rewrite D; lia |]. split; [exact U |].
    constructor; [| exact F].
    cbn [Particle.x Particle.y Particle.color Particle.lifetime Particle.vx Particle.vy].
    repeat split; try reflexivity.
    exists (Random.draws g), (0 + (2 * PI - 0) * Random.draw_unit g (S (Random.draws g))).
    split; f_equal; lra.
Qed.

Lemma scaled_direction_length s a :
  0 <= s -> sqrt (s * cos a * (s * cos a) + s * sin a * (s * sin a)) = s.
Proof.
  intros Hs. apply sqrt_lem_1; [apply sum_squares_nonneg | exact Hs |].
  pose proof (sin2_cos2 a) as H. unfold Rsqr in H.
  replace (s * cos a * (s * cos a) + s * sin a * (s * sin a))
    with (s * s * (sin a * sin a + cos a * cos a)) by ring.
  rewrite H. ring.
Qed.

(** ** Further properties: the burst of a collision *)

(** X4.  A resolved collision appends to the peg's list, after the particles
    already there, exactly [PARTICLE_COUNT_ON_COLLISION] particles: all at the
    ball's position after the push, all of one colour of the five-colour
    palette, all with lifetime [PARTICLE_LIFETIME].  It makes 21 draws, one
    for the colour and two per particle.  The peg itself stays where it is.
    When the unit draws lie between 0 and 1, every new particle starts with a
    speed between 1 and 4. *)
Theorem collision_burst b p g :
  overlapping b p ->
  exists b' p' g' burst c,
    Ball.handle_peg_collision b p g = Ok (b', p', g')
    /\ Peg.particles p' = Peg.particles p ++ burst
    /\ length burst = PARTICLE_COUNT_ON_COLLISION
    /\ In c [WHITE; YELLOW; BLUE; CYAN; MAGENTA]
    /\ Forall (fun q =>
                 Particle.x q = Ball.x b' /\ Particle.y q = Ball.y b'
                 /\ Particle.color q = c
                 /\ Particle.lifetime q = PARTICLE_LIFETIME)
         burst
    /\ Random.draws g' = (Random.draws g + 21)%nat
    /\ Peg.x p' = Peg.x p /\ Peg.y p' = Peg.y p
    /\ Peg.radius p' = Peg.radius p /\ Peg.color p' = Peg.color p
    /\ ((forall k, 0 <= Random.draw_unit g k <= 1) ->
        Forall (fun q =>
                  1 <= sqrt (Particle.vx q * Particle.vx q + Particle.vy q * Particle.vy q)
                    <= 4)
          burst).
Proof.
  intros Hov. unfold Ball.handle_peg_collision.
  rewrite (bind_ok _ _ g (dist_centers b p) g)
    by (unfold lift; rewrite py_sqrt_ok by apply sum_squares_nonneg; reflexivity).
  fold (min_dist b p).
  destruct (Rlt_dec (dist_centers b p) (min_dist b p)) as [_ | Hno]; [| contradiction].
  assert (Hn : (if Req_dec_T (dist_centers b p) 0 then ret (1, 0)
                else nx <- lift (py_div (Ball.x b - Peg.x p) (dist_centers b p)) ;;
                     ny <- lift (py_div (Ball.y b - Peg.y p) (dist_centers b p)) ;;
                     ret (nx, ny)) g = Ok (collision_normal b p, g)).
  { unfold collision_normal.
    destruct (Req_dec_T (dist_centers b p) 0) as [E | NE]; [reflexivity |].
    unfold bind, lift, ret. now rewrite !py_div_ok by exact NE. }
  rewrite (bind_ok _ _ _ _ _ Hn).
  destruct (collision_normal b p) as [nx ny] eqn:En.
  unfold bind at 1. unfold choice at 1.
  match goal with |- context [bind (for_each ?ks (Ball.spawn_particle ?px ?py ?c) ?ps) _ ?g1] =>
    destruct (spawn_burst_detail px py c ks ps g1) as (burst & g' & E & L & D & U & F);
    set (col := c) in * end.
  rewrite (bind_ok _ _ _ _ _ E). unfold ret.
  eexists _, _, g', burst, col. split; [reflexivity |].
  split; [reflexivity |].
  split; [rewrite L; unfold range; now rewrite length_seq |].
  split.
  { unfold col. apply nth_In. simpl length. apply Nat.mod_upper_bound. discriminate. }
  split.
  { eapply Forall_impl; [| exact F]. intros q (Hx & Hy & Hc & Hl & _). auto. }
  split.
  { rewrite D. unfold range. rewrite length_seq. simpl. lia. }
  repeat (split; [reflexivity |]).
  intros Hu. eapply Forall_impl; [| exact F].
  intros q (_ & _ & _ & _ & k & a & -> & ->).
  simpl Random.draw_unit. specialize (Hu k).
  rewrite scaled_direction_length by lra. lra.
Qed.

Lemma collision_burst_witness :
  overlapping head_on_ball origin_peg
  /\ (forall k, 0 <= Random.draw_unit quiet_random k <= 1)
  /\ exists b' p' g' burst,
       Ball.handle_peg_collision head_on_ball origin_peg quiet_random = Ok (b', p', g')
       /\ Peg.particles p' = Peg.particles origin_peg ++ burst
       /\ length burst = PARTICLE_COUNT_ON_COLLISION
       /\ Random.draws g' = 21%nat
       /\ Forall (fun q =>
                    1 <= sqrt (Particle.vx q * Particle.vx q + Particle.vy q * Particle.vy q)
                      <= 4)
            burst.
Proof.
  assert (Hu : forall k, 0 <= Random.draw_unit quiet_random k <= 1) by (intros k; simpl; lra).
  split; [exact head_on_overlapping |]. split; [exact Hu |].
  destruct (collision_burst head_on_ball origin_peg quiet_random head_on_overlapping)
    as (b' & p' & g' & burst & c & E & Hp & Hl & _ & _ & Hd & _ & _ & _ & _ & Hs).
  exists b', p', g', burst. repeat split; try assumption. exact (Hs Hu).
Defined.

(** ** Further properties: the end of a game *)

(** The play step, field by field. *)
Lemma update_play_full game g :
  exists bs pegs' g' game',
    PlinkoGame.update_balls (PlinkoGame.balls game) (map Peg.update (PlinkoGame.pegs game))
      scoring_top g = Ok (bs, pegs', g')
    /\ PlinkoGame.update_play game g = Ok (game', g')
    /\ PlinkoGame.balls game' = filter (fun b => negb (Ball.finalized b)) bs
    /\ PlinkoGame.pegs game' = pegs'
    /\ PlinkoGame.boxes game' = PlinkoGame.boxes game
    /\ PlinkoGame.score game'
       = score_after (PlinkoGame.boxes game) (filter Ball.finalized bs)
           (PlinkoGame.score game)
    /\ PlinkoGame.balls_allowed game' = PlinkoGame.balls_allowed game
    /\ PlinkoGame.balls_dropped game' = PlinkoGame.balls_dropped game
    /\ PlinkoGame.debug_mode game' = PlinkoGame.debug_mode game
    /\ ((PlinkoGame.balls_dropped game = PlinkoGame.balls_allowed game
         /\ PlinkoGame.balls game' = [] ->
         PlinkoGame.state game' = STATE_GAMEOVER
         /\ PlinkoGame.best_score game'
            = Z.max (PlinkoGame.best_score game) (PlinkoGame.score game')
         /\ PlinkoGame.game_over_reason game' = "All Balls Used"%string)
        /\ (~ (PlinkoGame.balls_dropped game = PlinkoGame.balls_allowed game
               /\ PlinkoGame.balls game' = []) ->
            PlinkoGame.state game' = PlinkoGame.state game
            /\ PlinkoGame.best_score game' = PlinkoGame.best_score game
            /\ PlinkoGame.game_over_reason game' = PlinkoGame.game_over_reason game)).
Proof.
  destruct (update_balls_ok (PlinkoGame.balls game) (map Peg.update (PlinkoGame.pegs game)) g)
    as (bs & pegs' & g' & E & _).
  exists bs, pegs', g'. unfold PlinkoGame.update_play.
  cbn [PlinkoGame.set_pegs PlinkoGame.balls PlinkoGame.pegs].
  fold scoring_top. rewrite (bind_ok _ _ _ _ _ E).
  cbn [PlinkoGame.set_pegs PlinkoGame.set_balls PlinkoGame.balls PlinkoGame.pegs].
  rewrite fold_handle_ball_box_score.
  destruct game as [st dm sc0 al dr bst pgs bls bxs rsn].
  cbv beta iota delta
    [PlinkoGame.set_game_over_reason PlinkoGame.set_best_score PlinkoGame.set_state
     PlinkoGame.set_balls PlinkoGame.set_score PlinkoGame.set_pegs
     PlinkoGame.state PlinkoGame.debug_mode PlinkoGame.score PlinkoGame.balls_allowed
     PlinkoGame.balls_dropped PlinkoGame.best_score PlinkoGame.pegs PlinkoGame.balls
     PlinkoGame.boxes PlinkoGame.game_over_reason] in E |- *.
  set (rest := filter (fun b => negb (Ball.finalized b)) bs).
  set (sc := score_after bxs (filter Ball.finalized bs) sc0).
  destruct (Z.eqb_spec dr al) as [Hd | Hd];
    [destruct (Nat.eqb_spec (length rest) 0) as [Hl | Hl] |]; cbn [andb].
  - apply length_zero_iff_nil in Hl.
    destruct (Z.ltb_spec bst sc) as [Hb | Hb];
      eexists; (split; [exact E |]); (split; [reflexivity |]);
      cbv beta iota delta
        [PlinkoGame.state PlinkoGame.debug_mode PlinkoGame.score PlinkoGame.balls_allowed
         PlinkoGame.balls_dropped PlinkoGame.best_score PlinkoGame.pegs PlinkoGame.balls
         PlinkoGame.boxes PlinkoGame.game_over_reason];
      fold rest; fold sc; repeat (split; [reflexivity |]);
      (split; [intros _; repeat split; lia | intros Hn; exfalso; apply Hn; now split]).
  - eexists; (split; [exact E |]); (split; [reflexivity |]);
      cbv beta iota delta
        [PlinkoGame.state PlinkoGame.debug_mode PlinkoGame.score PlinkoGame.balls_allowed
         PlinkoGame.balls_dropped PlinkoGame.best_score PlinkoGame.pegs PlinkoGame.balls
         PlinkoGame.boxes PlinkoGame.game_over_reason];
      fold rest; fold sc; repeat (split; [reflexivity |]).
    split; [| intros _; repeat split].
    intros [_ Hr]. rewrite Hr in Hl. simpl in Hl. contradiction.
  - eexists; (split; [exact E |]); (split; [reflexivity |]);
      cbv beta iota delta
        [PlinkoGame.state PlinkoGame.debug_mode PlinkoGame.score PlinkoGame.balls_allowed
         PlinkoGame.balls_dropped PlinkoGame.best_score PlinkoGame.pegs PlinkoGame.balls
         PlinkoGame.boxes PlinkoGame.game_over_reason];
      fold rest; fold sc; repeat (split; [reflexivity |]).
    split; [| intros _; repeat split].
    intros [Hx _]. contradiction.
Qed.

(** ** Further properties: where the pegs are *)

Lemma same_place_refl p : same_place p p.
Proof. repeat split. Qed.

Lemma same_place_trans p q r : same_place p q -> same_place q r -> same_place p r.
Proof. intros (A & B & C) (D & E & F). repeat split; congruence. Qed.

Lemma peg_gains_same_place p p' : peg_gains p p' -> same_place p p'.
Proof. intros (e & -> & _). repeat split. Qed.

Lemma peg_round_same_place add p : same_place p (peg_round add p).
Proof. repeat split. Qed.

Lemma same_places_refl l : Forall2 same_place l l.
Proof. induction l; constructor; [apply same_place_refl | assumption]. Qed.

Lemma same_places_trans l1 l2 : Forall2 same_place l1 l2 ->
  forall l3, Forall2 same_place l2 l3 -> Forall2 same_place l1 l3.
Proof.
  induction 1 as [| p q l1 l2 H _ IH]; intros l3 F; inversion F; subst; constructor.
  - eapply same_place_trans; eassumption.
  - now apply IH.
Qed.

Lemma update_play_same_places game g game' g' :
  PlinkoGame.update_play game g = Ok (game', g') ->
  Forall2 same_place (PlinkoGame.pegs game) (PlinkoGame.pegs game').
Proof.
  intros E. destruct (update_play_pegs game g) as (game1 & g1 & E1 & F).
  rewrite E1 in E. injection E as <- <-.
  eapply Forall2_impl; [| exact F]. intros p p' (add & -> & _). apply peg_round_same_place.
Qed.

(** X5.  The pegs never move.  In every reachable game the pegs are, one for
    one and in order, at the places and of the size of a freshly laid out
    board, so there are always 52 of them; and a play step hands every peg
    back at its place, with its radius and its colour. *)
Theorem pegs_never_move game :
  reachable game ->
  (exists fresh,
      galton_layout fresh
      /\ Forall2 (fun p q => Peg.x p = Peg.x q /\ Peg.y p = Peg.y q
                             /\ Peg.radius p = Peg.radius q)
           fresh (PlinkoGame.pegs game))
  /\ length (PlinkoGame.pegs game) = 52%nat
  /\ forall g, exists game' g',
        PlinkoGame.update_play game g = Ok (game', g')
        /\ Forall2 (fun p q => Peg.x p = Peg.x q /\ Peg.y p = Peg.y q
                               /\ Peg.radius p = Peg.radius q
                               /\ Peg.color p = Peg.color q)
             (PlinkoGame.pegs game) (PlinkoGame.pegs game').
Proof.
  intros Hreach.
  assert (Hfresh : exists fresh, triangular fresh
                                 /\ Forall2 same_place fresh (PlinkoGame.pegs game)).
  { induction Hreach as [g game g' E
                        | game g game' g' _ IH E
                        | game event g game' g' _ IH E
                        | game g game' g' _ IH E
                        | game s d n _ IH].
    - destruct (new_ok g) as (pegs & g1 & E1 & T).
      rewrite E1 in E. injection E as <- <-. exists pegs. split; [exact T |].
      apply same_places_refl.
    - destruct (reset_game_ok game g) as (pegs & g1 & game1 & E1 & T & Hp & _).
      rewrite E1 in E. injection E as <- <-. exists pegs. split; [exact T |].
      rewrite Hp. apply same_places_refl.
    - destruct (handle_play_events_ok game event g) as (game1 & g1 & E1 & Ep & _).
      rewrite E1 in E. injection E as <- <-. now rewrite Ep.
    - destruct IH as (fresh & T & F). exists fresh. split; [exact T |].
      eapply same_places_trans; [exact F |]. eapply update_play_same_places. exact E.
    - exact IH. }
  destruct Hfresh as (fresh & T & F).
  split; [exists fresh; split; [now apply triangular_galton | exact F] |].
  split.
  - rewrite <- (Forall2_length F). now rewrite (triangular_length _ T).
  - intros g. destruct (update_play_pegs game g) as (game1 & g1 & E1 & F1).
    exists game1, g1. split; [exact E1 |].
    eapply Forall2_impl; [| exact F1]. intros p p' (add & -> & _). repeat split.
Qed.

Lemma pegs_never_move_witness :
  exists game g1,
    PlinkoGame.new quiet_random = Ok (game, g1)
    /\ reachable game
    /\ length (PlinkoGame.pegs game) = 52%nat.
Proof.
  destruct (new_ok quiet_random) as (pegs & g1 & E & _).
  eexists _, g1. split; [exact E |].
  assert (Hreach : reachable (PlinkoGame.init_boxes (PlinkoGame.set_pegs blank_game pegs)))
    by (eapply reach_new; exact E).
  split; [exact Hreach |].
  now destruct (pegs_never_move _ Hreach) as (_ & H & _).
Defined.

(** ** Further properties: the ball's height *)

Lemma triangular_on_board pegs : triangular pegs -> Forall peg_on_board pegs.
Proof.
  intros T. apply Forall_forall. intros p Hin.
  destruct (triangular_peg _ _ T Hin) as (Hx & Hr & _).
  destruct T as (rows & -> & F).
  apply in_concat in Hin. destruct Hin as (row & Hrow & Hp).
  apply In_nth_error in Hrow. destruct Hrow as (r & Er).
  destruct (Forall2_nth_error_r _ _ _ F r row Er) as (k & Ek & Hk).
  apply nth_error_seq_inv in Ek. destruct Ek as [-> Hlt]. simpl in Hk.
  apply In_nth_error in Hp. destruct Hp as (i & Ei).
  destruct (row_of_nth _ _ _ _ Hk Ei) as (_ & c & Hpeg).
  split; [exact Hr |]. split; [exact Hx |].
  rewrite Hpeg. unfold Peg.new, row_y, PEG_OFFSET_TOP, PEG_SPACING_Y. cbn [Peg.y].
  unfold NUM_PEG_ROWS in Hlt. pose proof (pos_INR r) as H0.
  split; [lra |].
  destruct (Nat.eq_dec r 7) as [-> | Hne].
  - right. simpl. lra.
  - left. assert (H6 : INR r <= 6).
    { replace 6 with (INR 6) by (simpl; lra). apply le_INR. lia. }
    lra.
Qed.

Lemma same_place_on_board p q : same_place p q -> peg_on_board p -> peg_on_board q.
Proof.
  intros (Hx & Hy & Hr) (A & B & C & D). unfold peg_on_board.
  rewrite <- Hx, <- Hy, <- Hr. auto.
Qed.

Lemma same_places_on_board l l' :
  Forall2 same_place l l' -> Forall peg_on_board l -> Forall peg_on_board l'.
Proof.
  induction 1 as [| p q l l' H _ IH]; intros F; [constructor |].
  inversion F; subst. constructor; [eapply same_place_on_board; eassumption | now apply IH].
Qed.

Lemma y_offset_le_dist b p : Rabs (Ball.y b - Peg.y p) <= dist_centers b p.
Proof.
  unfold dist_centers.
  rewrite <- (sqrt_Rsqr_abs (Ball.y b - Peg.y p)).
  apply sqrt_le_1_alt.
  pose proof (Rle_0_sqr (Ball.x b - Peg.x p)) as H. unfold Rsqr in *. lra.
Qed.

Lemma vy_le_speed b : Rabs (Ball.vy b) <= speed b.
Proof.
  unfold speed. rewrite <- (sqrt_Rsqr_abs (Ball.vy b)).
  apply sqrt_le_1_alt.
  pose proof (Rle_0_sqr (Ball.vx b)) as H. unfold Rsqr in *. lra.
Qed.

Lemma Forall2_with_left {A B : Type} (Q : A -> Prop) (T : A -> B -> Prop) l l' :
  Forall Q l -> Forall2 T l l' -> Forall2 (fun a b => Q a /\ T a b) l l'.
Proof.
  intros F H. induction H as [| a b l l' Hab _ IH]; [constructor |].
  inversion F; subst. constructor; [now split | now apply IH].
Qed.

Lemma walls_y b : Ball.y (Ball.walls b) = Ball.y b.
Proof.
  unfold Ball.walls.
  destruct (Rlt_dec (Ball.x b - Ball.radius b) 0);
    [| destruct (Rlt_dec (IZR SCREEN_WIDTH) (Ball.x b + Ball.radius b))]; reflexivity.
Qed.

Lemma ceiling_y b :
  Ball.radius b <= Ball.y (Ball.ceiling b)
  /\ (Ball.y (Ball.ceiling b) = Ball.y b \/ Ball.y (Ball.ceiling b) = Ball.radius b).
Proof.
  unfold Ball.ceiling.
  destruct (Rlt_dec (Ball.y b - Ball.radius b) 0);
    cbn [Ball.set_vel Ball.set_pos Ball.y]; split; auto; lra.
Qed.

(** The loop over the pegs, with what happens to each peg: a peg that no ball
    satisfying the loop's invariant can overlap comes back untouched. *)
Lemma peg_collisions_trace (P : Ball.t -> Prop) (pegs : list Peg.t) :
  (forall b p, In p pegs -> P b -> overlapping b p -> P (bounced b p)) ->
  forall b done g, P b ->
  exists b' pegs' g',
    Ball.peg_collisions b pegs done g = Ok (b', done ++ pegs', g')
    /\ P b'
    /\ Forall2 (fun p p' => peg_gains p p'
                            /\ ((forall c, P c -> ~ overlapping c p) -> p' = p))
         pegs pegs'.
Proof.
  induction pegs as [| p pegs IH]; intros Hstep b done g Hb.
  - exists b, [], g. simpl. rewrite app_nil_r. repeat split; [exact Hb | constructor].
  - simpl Ball.peg_collisions.
    destruct (handle_peg_collision_ok b p g) as (b1 & p1 & g1 & E & Hcase).
    pose proof (handle_peg_collision_peg _ _ _ _ _ _ E) as Hp.
    rewrite (bind_ok _ _ _ _ _ E).
    assert (Hb1 : P b1).
    { destruct Hcase as [(Hov & -> & _) | (_ & -> & _)]; [| exact Hb].
      apply Hstep; [now left | exact Hb | exact Hov]. }
    destruct (IH (fun b p H => Hstep b p (or_intror H)) b1 (done ++ [p1]) g1 Hb1)
      as (b' & pegs' & g' & E' & Hb' & F).
    exists b', (p1 :: pegs'), g'. rewrite E', <- app_assoc. simpl.
    split; [reflexivity |]. split; [exact Hb' |].
    constructor; [| exact F]. split; [exact Hp |].
    intros Hnever. destruct Hcase as [(Hov & _) | (_ & _ & -> & _)]; [| reflexivity].
    exfalso. exact (Hnever b Hb Hov).
Qed.

(** One step of a ball of the standard size that starts above the scoring
    strip, with the pegs of the board: it ends below the ceiling and above
    [y = 546], it is finalized exactly when its lower edge has reached the
    strip, and no peg of the last row is touched. *)
Lemma ball_update_region b pegs g :
  Ball.radius b = BALL_RADIUS ->
  Ball.finalized b = false ->
  Ball.y b + Ball.radius b < scoring_top ->
  Forall peg_on_board pegs ->
  exists b' pegs' g',
    Ball.update b pegs scoring_top g = Ok (b', pegs', g')
    /\ BALL_RADIUS <= Ball.y b' < 546
    /\ (Ball.finalized b' = true <-> scoring_top <= Ball.y b' + Ball.radius b')
    /\ Forall2 (fun p p' => peg_gains p p' /\ (500 < Peg.y p -> p' = p)) pegs pegs'.
Proof.
  intros Hr Hf Hy Hpegs. unfold Ball.update.
  destruct (gravity_and_clamp_ok b g) as (b1 & E1 & Hs1 & _ & _ & Hy1 & Hr1 & Hf1).
  rewrite (bind_ok _ _ _ _ _ E1).
  set (b2 := Ball.ceiling (Ball.walls (Ball.integrate b1))).
  assert (Hr2 : Ball.radius b2 = BALL_RADIUS).
  { unfold b2. destruct (ceiling_keeps (Ball.walls (Ball.integrate b1))) as (_ & -> & _).
    rewrite walls_radius. cbn. congruence. }
  assert (Hf2 : Ball.finalized b2 = false).
  { unfold b2. destruct (ceiling_keeps (Ball.walls (Ball.integrate b1))) as (_ & _ & ->).
    rewrite walls_finalized. cbn. congruence. }
  assert (Hy2 : BALL_RADIUS <= Ball.y b2 < 546).
  { pose proof (vy_le_speed b1) as Hv.
    destruct (ceiling_y (Ball.walls (Ball.integrate b1))) as [Hlo Hcase].
    rewrite walls_radius, walls_y in *.
    cbn [Ball.integrate Ball.set_pos Ball.radius Ball.y Ball.vy] in *.
    fold b2 in Hlo, Hcase. rewrite Hr1, Hr in *. rewrite Hy1 in *.
    unfold scoring_top, SCREEN_HEIGHT, BOX_HEIGHT, MAX_BALL_SPEED, BALL_RADIUS in *.
    simpl in Hy. split; [exact Hlo |].
    unfold Rabs in Hv. destruct (Rcase_abs (Ball.vy b1)); destruct Hcase; lra. }
  destruct (peg_collisions_trace
              (fun c => Ball.radius c = BALL_RADIUS /\ Ball.finalized c = false
                        /\ BALL_RADIUS <= Ball.y c < 546)
              pegs) with (b := b2) (done := @nil Peg.t) (g := g)
    as (b3 & pegs' & g' & E3 & (Hr3 & Hf3 & Hy3) & F).
  - intros c p Hin (Hrc & Hfc & Hyc) Hov.
    split; [exact Hrc |]. split; [exact Hfc |].
    rewrite Forall_forall in Hpegs. destruct (Hpegs p Hin) as (Hpr & _ & Hp80 & Hrow).
    pose proof (y_offset_le_dist c p) as Hc.
    pose proof (y_offset_le_dist (bounced c p) p) as Hd.
    rewrite (bounced_tangent c p Hov) in Hd.
    unfold overlapping in Hov. unfold min_dist in *. rewrite Hrc, Hpr in *.
    unfold BALL_RADIUS, PEG_RADIUS in *.
    unfold Rabs in Hc, Hd. destruct (Rcase_abs _) in Hc; destruct (Rcase_abs _) in Hd;
      destruct Hrow; lra.
  - auto.
  - assert (Hlast : Forall2 (fun p p' => peg_gains p p' /\ (500 < Peg.y p -> p' = p))
                      pegs pegs').
    { eapply Forall2_impl; [| exact (Forall2_with_left _ _ _ _ Hpegs F)].
      intros p p' ((Hpr & _ & _ & Hrow) & Hg & Hsame). split; [exact Hg |].
      intros Hlow. apply Hsame. intros c (Hrc & _ & Hyc) Hov.
      pose proof (y_offset_le_dist c p) as Hc.
      unfold overlapping, min_dist in Hov. rewrite Hrc, Hpr in Hov.
      unfold BALL_RADIUS, PEG_RADIUS in *.
      unfold Rabs in Hc. destruct (Rcase_abs _) in Hc; destruct Hrow; lra. }
    rewrite (bind_ok _ _ _ _ _ E3). unfold ret. simpl app.
    eexists _, _, _. split; [reflexivity |].
    unfold Ball.check_scoring_zone.
    destruct (Rle_dec scoring_top (Ball.y b3 + Ball.radius b3)) as [Hin | Hout];
      cbn [Ball.set_finalized Ball.y Ball.finalized Ball.radius].
    + split; [exact Hy3 |]. split; [tauto |]. exact Hlast.
    + split; [exact Hy3 |]. split; [| exact Hlast].
      split; [congruence | intros H; contradiction].
Qed.

Lemma peg_gains_above_refl p : peg_gains_above p p.
Proof. split; [apply peg_gains_refl | reflexivity]. Qed.

Lemma pegs_gain_above_refl l : Forall2 peg_gains_above l l.
Proof. induction l; constructor; [apply peg_gains_above_refl | assumption]. Qed.

Lemma pegs_gain_above_trans l1 l2 : Forall2 peg_gains_above l1 l2 ->
  forall l3, Forall2 peg_gains_above l2 l3 -> Forall2 peg_gains_above l1 l3.
Proof.
  induction 1 as [| p q l1 l2 [Hg Hs] _ IH]; intros l3 F; inversion F as [| ? r ? ? [Hg' Hs']];
    subst; constructor.
  - split; [eapply peg_gains_trans; eassumption |].
    intros Hlow. specialize (Hs Hlow). subst q. now apply Hs'.
  - now apply IH.
Qed.

Lemma pegs_gain_above_on_board l l' :
  Forall2 peg_gains_above l l' -> Forall peg_on_board l -> Forall peg_on_board l'.
Proof.
  intros F. apply same_places_on_board.
  eapply Forall2_impl; [| exact F]. intros p q [Hg _]. now apply peg_gains_same_place.
Qed.

(** The pass over the balls, for balls of the standard size above the strip
    and the pegs of the board. *)
Lemma update_balls_region bs :
  forall pegs g,
    Forall (fun b => Ball.radius b = BALL_RADIUS
                     /\ Ball.y b + Ball.radius b < scoring_top) bs ->
    Forall peg_on_board pegs ->
    exists bs' pegs' g',
      PlinkoGame.update_balls bs pegs scoring_top g = Ok (bs', pegs', g')
      /\ Forall2 ball_region bs bs'
      /\ Forall2 peg_gains_above pegs pegs'.
Proof.
  induction bs as [| b bs IH]; intros pegs g Hbs Hpegs.
  - exists [], pegs, g. split; [reflexivity |].
    split; [constructor | apply pegs_gain_above_refl].
  - inversion Hbs as [| ? ? [Hr Hy] Hbs']; subst.
    simpl PlinkoGame.update_balls.
    assert (H1 : exists b1 pegs1 g1,
               (if negb (Ball.finalized b) then Ball.update b pegs scoring_top
                else ret (b, pegs)) g = Ok (b1, pegs1, g1)
               /\ ball_region b b1 /\ Forall2 peg_gains_above pegs pegs1).
    { destruct (Ball.finalized b) eqn:Ef; simpl negb; cbv iota.
      - exists b, pegs, g. split; [reflexivity |].
        split; [| apply pegs_gain_above_refl].
        split; [intros _; reflexivity | intros H; congruence].
      - destruct (ball_update_region b pegs g Hr Ef Hy Hpegs)
          as (b1 & pegs1 & g1 & E & Hy1 & Hf1 & F).
        exists b1, pegs1, g1. split; [exact E |]. split; [| exact F].
        split; [intros H; congruence | intros _; now split]. }
    destruct H1 as (b1 & pegs1 & g1 & E1 & S1 & F1).
    rewrite (bind_ok _ _ _ _ _ E1).
    destruct (IH pegs1 g1 Hbs' (pegs_gain_above_on_board _ _ F1 Hpegs))
      as (bs' & pegs' & g' & E & S & F).
    rewrite (bind_ok _ _ _ _ _ E). unfold ret.
    exists (b1 :: bs'), pegs', g'. split; [reflexivity |].
    split; [now constructor | eapply pegs_gain_above_trans; eassumption].
Qed.

(** An event of the play screen, field by field: either nothing but the state
    changes, or a left click away from the pause button, with balls left to
    drop, appends a fresh ball at the click's x and at height 30, at rest
    vertically and with a horizontal velocity drawn between -2 and 2. *)
Lemma handle_play_events_full game event g :
  exists game' g',
    PlinkoGame.handle_play_events game event g = Ok (game', g')
    /\ PlinkoGame.pegs game' = PlinkoGame.pegs game
    /\ PlinkoGame.boxes game' = PlinkoGame.boxes game
    /\ PlinkoGame.score game' = PlinkoGame.score game
    /\ PlinkoGame.best_score game' = PlinkoGame.best_score game
    /\ PlinkoGame.balls_allowed game' = PlinkoGame.balls_allowed game
    /\ PlinkoGame.debug_mode game' = PlinkoGame.debug_mode game
    /\ ((PlinkoGame.balls game' = PlinkoGame.balls game
         /\ PlinkoGame.balls_dropped game' = PlinkoGame.balls_dropped game
         /\ (PlinkoGame.state game' = PlinkoGame.state game
             \/ PlinkoGame.state game' = STATE_PAUSE))
        \/ (exists mx my pressed c v,
               event = MOUSEBUTTONDOWN_LEFT mx my pressed
               /\ PlinkoGame.pause_button_is_clicked mx my pressed = false
               /\ (PlinkoGame.balls_dropped game < PlinkoGame.balls_allowed game)%Z
               /\ PlinkoGame.balls game'
                  = PlinkoGame.balls game
                    ++ [Ball.Build (IZR mx) 30 BALL_RADIUS c v 0 false]
               /\ In c [WHITE; YELLOW; BLUE; CYAN; MAGENTA]
               /\ v = -2 + (2 - -2) * Random.draw_unit g (S (Random.draws g))
               /\ PlinkoGame.balls_dropped game'
                  = (PlinkoGame.balls_dropped game + 1)%Z
               /\ PlinkoGame.state game' = PlinkoGame.state game)).
Proof.
  destruct event as [| mx my pressed |]; simpl.
  - eexists _, _. split; [reflexivity |]. repeat split. left. repeat split. now right.
  - destruct (PlinkoGame.pause_button_is_clicked mx my pressed) eqn:Ep.
    + eexists _, _. split; [reflexivity |]. repeat split. left. repeat split. now right.
    + destruct (Z.ltb_spec (PlinkoGame.balls_dropped game) (PlinkoGame.balls_allowed game))
        as [Hlt | Hge].
      * unfold bind, choice, uniform, ret. eexists _, _. split; [reflexivity |].
        repeat split. right.
        exists mx, my, pressed,
          (nth (Random.draw_below g (Random.draws g) 5 mod 5)
             [WHITE; YELLOW; BLUE; CYAN; MAGENTA] WHITE),
          (-2 + (2 - -2) * Random.draw_unit g (S (Random.draws g))).
        split; [reflexivity |]. split; [exact Ep |]. split; [exact Hlt |].
        split; [reflexivity |].
        split; [exact (@nth_In Color _ [WHITE; YELLOW; BLUE; CYAN; MAGENTA] WHITE
                         (Nat.mod_upper_bound _ 5 (Nat.neq_succ_0 4))) |].
        repeat split.
      * eexists _, _. split; [reflexivity |]. repeat split. left. repeat split. now left.
  - eexists _, _. split; [reflexivity |]. repeat split. left. repeat split. now left.
Qed.

Lemma ball_region_after bs bs' :
  Forall2 ball_region bs bs' ->
  Forall (fun b => Ball.finalized b = false) bs ->
  Forall (fun b' => BALL_RADIUS <= Ball.y b' < 546
                    /\ (Ball.finalized b' = true
                        <-> scoring_top <= Ball.y b' + Ball.radius b')) bs'.
Proof.
  induction 1 as [| b b' l l' [_ H] _ IH]; intros F; [constructor |].
  inversion F; subst. constructor; [now apply H | now apply IH].
Qed.

Lemma peg_update_on_board pegs :
  Forall peg_on_board pegs -> Forall peg_on_board (map Peg.update pegs).
Proof.
  intros F. apply Forall_map. eapply Forall_impl; [| exact F]. now intros p H.
Qed.

Lemma reachable_field_ok game : reachable game -> field_ok game.
Proof.
  intros Hreach. pose proof (reachable_board_ok _ Hreach) as Hboard. revert Hboard.
  unfold field_ok.
  induction Hreach as [g game g' E
                      | game g game' g' Hprev IH E
                      | game event g game' g' Hprev IH E
                      | game g game' g' Hprev IH E
                      | game s d n Hprev IH]; intros Hboard.
  - destruct (new_ok g) as (pegs & g1 & E1 & T).
    rewrite E1 in E. injection E as <- <-.
    split; [constructor |]. split; [now apply triangular_on_board |].
    apply Forall_forall. intros p Hin _.
    now destruct (triangular_peg _ _ T Hin) as (_ & _ & H).
  - destruct (reset_game_ok game g) as (pegs & g1 & game1 & E1 & T & Hp & Hb & _).
    rewrite E1 in E. injection E as <- <-.
    split; [rewrite Hb; constructor |]. rewrite Hp.
    split; [now apply triangular_on_board |].
    apply Forall_forall. intros p Hin _.
    now destruct (triangular_peg _ _ T Hin) as (_ & _ & H).
  - destruct (IH (reachable_board_ok _ Hprev)) as (Hb & Hp & Hl).
    destruct (handle_play_events_full game event g)
      as (game1 & g1 & E1 & Ep & _ & _ & _ & _ & _ & Hcase).
    rewrite E1 in E. injection E as <- <-. rewrite Ep.
    split; [| now split].
    destruct Hcase as [(-> & _) | (mx & my & pr & c & v & _ & _ & _ & -> & _)]; [exact Hb |].
    apply Forall_app. split; [exact Hb |]. constructor; [| constructor].
    unfold scoring_top, SCREEN_HEIGHT, BOX_HEIGHT, BALL_RADIUS. simpl. lra.
  - destruct (IH (reachable_board_ok _ Hprev)) as (Hb & Hp & Hl).
    destruct (reachable_board_ok _ Hprev) as (_ & Hbs & _).
    destruct (update_play_full game g)
      as (bs & pegs' & g1 & game1 & Eb & E1 & Hballs & Hpegs & _).
    rewrite E1 in E. injection E as <- <-.
    assert (Hin : Forall (fun b => Ball.radius b = BALL_RADIUS
                                   /\ Ball.y b + Ball.radius b < scoring_top)
                    (PlinkoGame.balls game)).
    { rewrite Forall_forall in *. intros b Hb0.
      split; [apply Hbs, Hb0 | apply Hb, Hb0]. }
    destruct (update_balls_region (PlinkoGame.balls game)
                (map Peg.update (PlinkoGame.pegs game)) g Hin (peg_update_on_board _ Hp))
      as (bs2 & pegs2 & g2 & E2 & S & F).
    rewrite Eb in E2. injection E2 as <- <- <-.
    assert (Hfin : Forall (fun b => Ball.finalized b = false) (PlinkoGame.balls game)).
    { eapply Forall_impl; [| exact Hbs]. now intros b [_ H]. }
    pose proof (ball_region_after _ _ S Hfin) as Hafter.
    split; [| split].
    + rewrite Hballs. apply Forall_forall. intros b Hb0. apply filter_In in Hb0.
      destruct Hb0 as [Hb0 Hnf]. rewrite Forall_forall in Hafter.
      destruct (Hafter _ Hb0) as ([Hlo _] & Hiff). split; [exact Hlo |].
      destruct (Rlt_dec (Ball.y b + Ball.radius b) scoring_top) as [Hlt | Hge]; [exact Hlt |].
      exfalso. assert (Ht : Ball.finalized b = true) by (apply Hiff; lra).
      rewrite Ht in Hnf. discriminate.
    + rewrite Hpegs. eapply pegs_gain_above_on_board; [exact F |].
      now apply peg_update_on_board.
    + rewrite Hpegs. apply Forall2_map_left in F.
      pose proof (Forall2_with_left _ _ _ _ Hl F) as F2.
      clear - F2. induction F2 as [| p p' l l' (Hemp & Hg & Hsame) _ IH]; constructor.
      * intros Hlow. apply peg_gains_same_place in Hg. destruct Hg as (_ & Hy & _).
        cbn [Peg.update Peg.set_particles Peg.y] in Hy. rewrite <- Hy in Hlow.
        rewrite (Hsame Hlow). unfold Peg.update. cbn [Peg.set_particles Peg.particles].
        rewrite (Hemp Hlow). reflexivity.
      * exact IH.
  - destruct (IH (reachable_board_ok _ Hprev)) as (Hb & Hp & Hl). now split.
Qed.

Lemma Forall2_In_l {A B : Type} (T : A -> B -> Prop) l l' a :
  Forall2 T l l' -> In a l -> exists b, In b l' /\ T a b.
Proof.
  induction 1 as [| a0 b0 l l' H0 _ IH]; intros Hin; [contradiction |].
  destruct Hin as [-> | Hin].
  - exists b0. split; [now left | exact H0].
  - destruct (IH Hin) as (b & Hb & Hab). exists b. split; [now right | exact Hab].
Qed.

(** A fresh layout has a peg at [y = 570]. *)
Lemma triangular_last_row pegs :
  triangular pegs -> exists p, In p pegs /\ Peg.y p = 570.
Proof.
  intros (rows & -> & F).
  assert (E7 : nth_error (range NUM_PEG_ROWS) 7 = Some 7%nat) by reflexivity.
  destruct (Forall2_nth_error_l _ _ _ F 7%nat 7%nat E7) as (row & Er & Hrow).
  assert (E0 : nth_error (range (7 + 3)) 0 = Some 0%nat) by reflexivity.
  destruct (Forall2_nth_error_l _ _ _ Hrow 0%nat 0%nat E0) as (p & Ep & c & Hp).
  exists p. split.
  - apply in_concat. exists row. split; eapply nth_error_In; eassumption.
  - rewrite Hp. unfold Peg.new, row_y, PEG_OFFSET_TOP, PEG_SPACING_Y. cbn [Peg.y]. simpl. lra.
Qed.

Lemma reachable_fresh game :
  reachable game ->
  exists fresh, triangular fresh /\ Forall2 same_place fresh (PlinkoGame.pegs game).
Proof.
  induction 1 as [g game g' E
                 | game g game' g' _ IH E
                 | game event g game' g' _ IH E
                 | game g game' g' _ IH E
                 | game s d n _ IH].
  - destruct (new_ok g) as (pegs & g1 & E1 & T).
    rewrite E1 in E. injection E as <- <-. exists pegs. split; [exact T |].
    apply same_places_refl.
  - destruct (reset_game_ok game g) as (pegs & g1 & game1 & E1 & T & Hp & _).
    rewrite E1 in E. injection E as <- <-. exists pegs. split; [exact T |].
    rewrite Hp. apply same_places_refl.
  - destruct (handle_play_events_ok game event g) as (game1 & g1 & E1 & Ep & _).
    rewrite E1 in E. injection E as <- <-. now rewrite Ep.
  - destruct IH as (fresh & T & F). exists fresh. split; [exact T |].
    eapply same_places_trans; [exact F |]. eapply update_play_same_places. exact E.
  - exact IH.
Qed.

(** The results of the pass over the balls of a reachable game, gathered. *)
Lemma reachable_pass game g :
  reachable game ->
  exists bs pegs' g' game',
    PlinkoGame.update_balls (PlinkoGame.balls game) (map Peg.update (PlinkoGame.pegs game))
      scoring_top g = Ok (bs, pegs', g')
    /\ PlinkoGame.update_play game g = Ok (game', g')
    /\ PlinkoGame.balls game' = filter (fun b => negb (Ball.finalized b)) bs
    /\ PlinkoGame.score game'
       = score_after (PlinkoGame.boxes game) (filter Ball.finalized bs)
           (PlinkoGame.score game)
    /\ Forall (fun b' => Ball.radius b' = BALL_RADIUS
                         /\ in_walls b'
                         /\ speed b' <= MAX_BALL_SPEED
                         /\ BALL_RADIUS <= Ball.y b' < 546
                         /\ (Ball.finalized b' = true
                             <-> scoring_top <= Ball.y b' + Ball.radius b')) bs.
Proof.
  intros Hreach.
  destruct (reachable_board_ok _ Hreach) as (Hclear & Hbs & _).
  destruct (reachable_field_ok _ Hreach) as (Hb & Hp & _).
  destruct (update_play_full game g)
    as (bs & pegs' & g1 & game1 & Eb & E1 & Hballs & _ & _ & Hscore & _).
  exists bs, pegs', g1, game1. split; [exact Eb |]. split; [exact E1 |].
  split; [exact Hballs |]. split; [exact Hscore |].
  destruct (update_balls_ok (PlinkoGame.balls game) (map Peg.update (PlinkoGame.pegs game)) g)
    as (bs2 & pegs2 & g2 & E2 & _ & S).
  rewrite Eb in E2. injection E2 as <- <- <-.
  assert (Hin : Forall (fun b => Ball.radius b = BALL_RADIUS
                                 /\ Ball.y b + Ball.radius b < scoring_top)
                  (PlinkoGame.balls game)).
  { rewrite Forall_forall in *. intros b Hb0. split; [apply Hbs, Hb0 | apply Hb, Hb0]. }
  destruct (update_balls_region (PlinkoGame.balls game)
              (map Peg.update (PlinkoGame.pegs game)) g Hin (peg_update_on_board _ Hp))
    as (bs3 & pegs3 & g3 & E3 & Sr & _).
  rewrite Eb in E3. injection E3 as <- <- <-.
  assert (Hfin : Forall (fun b => Ball.finalized b = false) (PlinkoGame.balls game)).
  { eapply Forall_impl; [| exact Hbs]. now intros b [_ H]. }
  pose proof (ball_region_after _ _ Sr Hfin) as Hafter.
  pose proof (ball_stepped_radius _ _ _ _ S Hbs) as Hrad.
  pose proof (stepped_in_walls _ _ _ S Hbs (peg_update_clear _ _ Hclear)) as Hwalls.
  assert (Hspeed : Forall (fun b' => speed b' <= MAX_BALL_SPEED) bs).
  { clear - S Hfin. induction S as [| b b' l l' (_ & _ & Hn) _ IH]; [constructor |].
    inversion Hfin; subst. constructor; [now apply Hn | now apply IH]. }
  rewrite Forall_forall in *. intros b' Hb'.
  destruct (Hafter _ Hb') as [Hy Hiff].
  split; [apply Hrad, Hb' |]. split; [apply Hwalls, Hb' |].
  split; [apply Hspeed, Hb' |]. split; [exact Hy | exact Hiff].
Qed.

(** X7.  In every reachable game each ball in play is not finalized, is not
    above the ceiling line and has its lower edge above the scoring strip.
    In a play step every ball of the pass ends at or below the ceiling line,
    above [y = 546], at a speed of at most [MAX_BALL_SPEED], and is finalized
    exactly when its lower edge has reached the top of the strip. *)
Theorem balls_stay_in_field game :
  reachable game ->
  Forall (fun b => Ball.finalized b = false
                   /\ Ball.radius b <= Ball.y b
                   /\ Ball.y b + Ball.radius b < IZR (SCREEN_HEIGHT - BOX_HEIGHT))
    (PlinkoGame.balls game)
  /\ forall g, exists bs pegs' g' game',
       PlinkoGame.update_balls (PlinkoGame.balls game)
         (map Peg.update (PlinkoGame.pegs game)) scoring_top g = Ok (bs, pegs', g')
       /\ PlinkoGame.update_play game g = Ok (game', g')
       /\ Forall (fun b' => Ball.radius b' <= Ball.y b' < 546
                            /\ speed b' <= MAX_BALL_SPEED
                            /\ (Ball.finalized b' = true
                                <-> IZR (SCREEN_HEIGHT - BOX_HEIGHT)
                                    <= Ball.y b' + Ball.radius b')) bs.
Proof.
  intros Hreach. split.
  - destruct (reachable_board_ok _ Hreach) as (_ & Hbs & _).
    destruct (reachable_field_ok _ Hreach) as (Hb & _).
    rewrite Forall_forall in *. intros b Hin.
    destruct (Hbs _ Hin) as [Hr Hf]. destruct (Hb _ Hin) as [Hlo Hhi].
    fold scoring_top. rewrite Hr in *. auto.
  - intros g.
    destruct (reachable_pass game g Hreach)
      as (bs & pegs' & g' & game' & Eb & E & _ & _ & F).
    exists bs, pegs', g', game'. split; [exact Eb |]. split; [exact E |].
    eapply Forall_impl; [| exact F].
    intros b' (Hr & _ & Hs & Hy & Hiff). fold scoring_top. rewrite Hr in *. auto.
Qed.

Lemma balls_stay_in_field_witness :
  exists game g,
    reachable game
    /\ (exists b, PlinkoGame.balls game = [b] /\ Ball.y b = 30)
    /\ Forall (fun b => Ball.finalized b = false
                        /\ Ball.radius b <= Ball.y b
                        /\ Ball.y b + Ball.radius b < IZR (SCREEN_HEIGHT - BOX_HEIGHT))
         (PlinkoGame.balls game)
    /\ exists game' g', PlinkoGame.update_play game g = Ok (game', g').
Proof.
  destruct (new_ok quiet_random) as (pegs & g1 & E & T).
  destruct (PlinkoGame.handle_play_events
              (PlinkoGame.init_boxes (PlinkoGame.set_pegs blank_game pegs))
              (MOUSEBUTTONDOWN_LEFT 400 100 true) g1) as [[game g2] | e] eqn:Eclick;
    [| discriminate Eclick].
  assert (Hreach : reachable game).
  { eapply reach_event; [eapply reach_new; exact E | exact Eclick]. }
  exists game, g2. split; [exact Hreach |]. split.
  - injection Eclick as <- _. eexists. split; reflexivity.
  - destruct (balls_stay_in_field game Hreach) as [H1 H2]. split; [exact H1 |].
    destruct (H2 g2) as (bs & pegs' & g' & game' & _ & Ep & _). now exists game', g'.
Defined.

(** X8.  The pegs of the last row are never hit.  The layout puts a row at
    [y = 570], inside the scoring strip, whose top is at 520; a ball is
    finalized before it can come within reach of it.  So in every reachable
    game such pegs exist, and none of them has ever received a particle. *)
Theorem last_row_never_hit game :
  reachable game ->
  (exists p, In p (PlinkoGame.pegs game) /\ Peg.y p = 570)
  /\ Forall (fun p => IZR (SCREEN_HEIGHT - BOX_HEIGHT) < Peg.y p -> Peg.particles p = [])
       (PlinkoGame.pegs game).
Proof.
  intros Hreach. split.
  - destruct (reachable_fresh _ Hreach) as (fresh & T & F).
    destruct (triangular_last_row _ T) as (p & Hin & Hy).
    destruct (Forall2_In_l _ _ _ _ F Hin) as (q & Hq & (_ & Hyq & _)).
    exists q. split; [exact Hq | congruence].
  - destruct (reachable_field_ok _ Hreach) as (_ & _ & Hl).
    eapply Forall_impl; [| exact Hl]. intros p H Hlow. apply H.
    unfold SCREEN_HEIGHT, BOX_HEIGHT in Hlow. simpl in Hlow. lra.
Qed.

(** ** Further properties: what a landing scores *)

(** The five boxes cover the width of the playfield. *)
Lemma boxes_cover self ball :
  0 <= Ball.x ball <= IZR SCREEN_WIDTH ->
  scoring_top <= Ball.y ball + Ball.radius ball ->
  exists rect value,
    In (rect, value) (PlinkoGame.boxes (PlinkoGame.init_boxes self))
    /\ PlinkoGame.box_matches rect ball = true.
Proof.
  intros Hx Hy. rewrite init_boxes_list.
  unfold scoring_top, SCREEN_HEIGHT, BOX_HEIGHT, SCREEN_WIDTH in *. simpl in Hy.
  destruct (Rle_dec (Ball.x ball) 160);
    [| destruct (Rle_dec (Ball.x ball) 320);
       [| destruct (Rle_dec (Ball.x ball) 480);
          [| destruct (Rle_dec (Ball.x ball) 640)]]].
  - exists (Rect.Build 0 520 160 80), 10%Z. split; [simpl; tauto |].
    apply box_matches_spec. unfold Rect.right. simpl. lra.
  - exists (Rect.Build 160 520 160 80), 20%Z. split; [simpl; tauto |].
    apply box_matches_spec. unfold Rect.right. simpl. lra.
  - exists (Rect.Build 320 520 160 80), 50%Z. split; [simpl; tauto |].
    apply box_matches_spec. unfold Rect.right. simpl. lra.
  - exists (Rect.Build 480 520 160 80), 20%Z. split; [simpl; tauto |].
    apply box_matches_spec. unfold Rect.right. simpl. lra.
  - exists (Rect.Build 640 520 160 80), 10%Z. split; [simpl; tauto |].
    apply box_matches_spec. unfold Rect.right. simpl. lra.
Qed.

Lemma box_values_range v : In v BOX_VALUES -> (10 <= v <= 50)%Z.
Proof. unfold BOX_VALUES. simpl. intros [<- | [<- | [<- | [<- | [<- | []]]]]]; lia. Qed.

Lemma score_in_boxes_range bxs ball s :
  Forall (fun bx => In (snd bx) BOX_VALUES) bxs ->
  (exists rect value, In (rect, value) bxs /\ PlinkoGame.box_matches rect ball = true) ->
  (s + 10 <= PlinkoGame.score_in_boxes bxs ball s <= s + 50)%Z.
Proof.
  intros F Hm. pose proof (score_in_boxes_gain bxs ball s F Hm) as Hgain.
  destruct (score_in_boxes_cases bxs ball s) as [E | (r & v & Hin & E)]; [lia |].
  rewrite E. rewrite Forall_forall in F. specialize (F _ Hin). simpl in F.
  apply box_values_range in F. lia.
Qed.

Lemma score_after_range bxs bs :
  Forall (fun bx => In (snd bx) BOX_VALUES) bxs ->
  Forall (fun b => exists rect value,
                     In (rect, value) bxs /\ PlinkoGame.box_matches rect b = true) bs ->
  forall s,
    (s + 10 * Z.of_nat (length bs) <= score_after bxs bs s
     <= s + 50 * Z.of_nat (length bs))%Z.
Proof.
  intros F Hm. induction Hm as [| b bs Hb _ IH]; intros s.
  - unfold score_after. simpl. lia.
  - unfold score_after in *. simpl fold_left. simpl length. rewrite Nat2Z.inj_succ.
    pose proof (score_in_boxes_range bxs b s F Hb) as H1.
    specialize (IH (PlinkoGame.score_in_boxes bxs b s)). lia.
Qed.

(** X9.  In a reachable game no landing goes unscored: every ball that the
    pass of a play step finalizes lies over one of the boxes, so the step
    raises the score by at least 10 and at most 50 for each of them. *)
Theorem every_landing_scores game g :
  reachable game ->
  exists bs pegs' g' game',
    PlinkoGame.update_balls (PlinkoGame.balls game) (map Peg.update (PlinkoGame.pegs game))
      scoring_top g = Ok (bs, pegs', g')
    /\ PlinkoGame.update_play game g = Ok (game', g')
    /\ Forall (fun b' => Ball.finalized b' = true ->
                         exists rect value,
                           In (rect, value) (PlinkoGame.boxes game)
                           /\ PlinkoGame.box_matches rect b' = true) bs
    /\ (PlinkoGame.score game + 10 * Z.of_nat (length (filter Ball.finalized bs))
        <= PlinkoGame.score game'
        <= PlinkoGame.score game + 50 * Z.of_nat (length (filter Ball.finalized bs)))%Z.
Proof.
  intros Hreach.
  destruct (reachable_pass game g Hreach)
    as (bs & pegs' & g' & game' & Eb & E & _ & Hscore & F).
  exists bs, pegs', g', game'. split; [exact Eb |]. split; [exact E |].
  destruct (reachable_board_ok _ Hreach) as (_ & _ & Hbx).
  assert (Hm : Forall (fun b' => Ball.finalized b' = true ->
                         exists rect value,
                           In (rect, value) (PlinkoGame.boxes game)
                           /\ PlinkoGame.box_matches rect b' = true) bs).
  { eapply Forall_impl; [| exact F].
    intros b' (Hr & Hw & _ & _ & Hiff) Hf. rewrite Hbx. apply boxes_cover.
    - unfold in_walls in Hw. rewrite Hr in Hw. unfold BALL_RADIUS in Hw. lra.
    - now apply Hiff. }
  split; [exact Hm |]. rewrite Hscore.
  apply score_after_range; [now apply reachable_boxes |].
  apply Forall_forall. intros b Hb. apply filter_In in Hb. destruct Hb as [Hb Hf].
  rewrite Forall_forall in Hm. now apply Hm.
Qed.

(** X10.  The play step never changes the ball budget or the count of balls
    dropped, and never lowers the best score.  It ends the game exactly when
    every allowed ball has been dropped and none is left in play after the
    step: the state becomes [STATE_GAMEOVER] and the best score becomes the
    larger of the old best and the final score.  Otherwise the state and the
    best score stay as they were. *)
Theorem game_over_transition game g :
  exists bs pegs' g' game',
    PlinkoGame.update_balls (PlinkoGame.balls game) (map Peg.update (PlinkoGame.pegs game))
      scoring_top g = Ok (bs, pegs', g')
    /\ PlinkoGame.update_play game g = Ok (game', g')
    /\ PlinkoGame.balls game' = filter (fun b => negb (Ball.finalized b)) bs
    /\ PlinkoGame.balls_allowed game' = PlinkoGame.balls_allowed game
    /\ PlinkoGame.balls_dropped game' = PlinkoGame.balls_dropped game
    /\ (PlinkoGame.best_score game <= PlinkoGame.best_score game')%Z
    /\ (PlinkoGame.balls_dropped game = PlinkoGame.balls_allowed game
        /\ PlinkoGame.balls game' = [] ->
        PlinkoGame.state game' = STATE_GAMEOVER
        /\ PlinkoGame.best_score game'
           = Z.max (PlinkoGame.best_score game) (PlinkoGame.score game')
        /\ (PlinkoGame.score game' <= PlinkoGame.best_score game')%Z)
    /\ (~ (PlinkoGame.balls_dropped game = PlinkoGame.balls_allowed game
           /\ PlinkoGame.balls game' = []) ->
        PlinkoGame.state game' = PlinkoGame.state game
        /\ PlinkoGame.best_score game' = PlinkoGame.best_score game).
Proof.
  destruct (update_play_full game g)
    as (bs & pegs' & g' & game' & Eb & E & Hballs & _ & _ & _ & Ha & Hd & _ & Hover & Hon).
  exists bs, pegs', g', game'. split; [exact Eb |]. split; [exact E |].
  split; [exact Hballs |]. split; [exact Ha |]. split; [exact Hd |].
  assert (Hdec : (PlinkoGame.balls_dropped game = PlinkoGame.balls_allowed game
                  /\ PlinkoGame.balls game' = [])
                 \/ ~ (PlinkoGame.balls_dropped game = PlinkoGame.balls_allowed game
                       /\ PlinkoGame.balls game' = [])).
  { destruct (Z.eq_dec (PlinkoGame.balls_dropped game) (PlinkoGame.balls_allowed game));
      destruct (PlinkoGame.balls game'); try (right; intros [H1 H2]; congruence).
    now left. }
  split; [| split].
  - destruct Hdec as [H | H].
    + destruct (Hover H) as (_ & -> & _). lia.
    + destruct (Hon H) as (_ & -> & _). lia.
  - intros H. destruct (Hover H) as (Hs & Hb & _). split; [exact Hs |].
    split; [exact Hb | lia].
  - intros H. destruct (Hon H) as (Hs & Hb & _). now split.
Qed.

Lemma game_over_transition_witness :
  exists bs pegs' g' game',
    PlinkoGame.update_play (PlinkoGame.set_balls_dropped parked_game 25) quiet_random
    = Ok (game', g')
    /\ PlinkoGame.update_balls
         (PlinkoGame.balls (PlinkoGame.set_balls_dropped parked_game 25))
         (map Peg.update (PlinkoGame.pegs (PlinkoGame.set_balls_dropped parked_game 25)))
         scoring_top quiet_random = Ok (bs, pegs', g')
    /\ PlinkoGame.balls game' = []
    /\ PlinkoGame.state game' = STATE_GAMEOVER
    /\ (PlinkoGame.score game' <= PlinkoGame.best_score game')%Z.
Proof.
  destruct (game_over_transition (PlinkoGame.set_balls_dropped parked_game 25) quiet_random)
    as (bs & pegs' & g' & game' & Eb & E & Hballs & _ & _ & _ & Hover & _).
  exists bs, pegs', g', game'. split; [exact E |]. split; [exact Eb |].
  assert (Hbs : bs = [parked_ball]) by (simpl in Eb; injection Eb as <- _ _; reflexivity).
  assert (Hempty : PlinkoGame.balls game' = []) by (rewrite Hballs, Hbs; reflexivity).
  split; [exact Hempty |].
  destruct Hover as (Hs & _ & Hb); [split; [reflexivity | exact Hempty] |].
  now split.
Defined.

(** X11.  With the boxes of [init_boxes], a ball whose lower edge has reached
    the strip scores by its x alone: box [i] takes the balls with
    [160 * i < x <= 160 * (i + 1)], and the first box also those with
    [x = 0], so a ball on an edge shared by two boxes counts for the left
    one; the score rises by [BOX_VALUES[i]].  A ball outside [0, 800], or one
    whose lower edge is above the strip, leaves the game as it is. *)
Theorem landing_box game ball :
  PlinkoGame.boxes game = PlinkoGame.boxes (PlinkoGame.init_boxes game) ->
  (forall i value,
      nth_error BOX_VALUES i = Some value ->
      IZR (SCREEN_HEIGHT - BOX_HEIGHT) <= Ball.y ball + Ball.radius ball ->
      (160 * INR i < Ball.x ball \/ (i = 0%nat /\ Ball.x ball = 0)) ->
      Ball.x ball <= 160 * (INR i + 1) ->
      PlinkoGame.handle_ball_box_score game ball
      = PlinkoGame.set_score game (PlinkoGame.score game + value))
  /\ (Ball.x ball < 0 \/ IZR SCREEN_WIDTH < Ball.x ball
      \/ Ball.y ball + Ball.radius ball < IZR (SCREEN_HEIGHT - BOX_HEIGHT) ->
      PlinkoGame.handle_ball_box_score game ball = game).
Proof.
  intros Hbx. unfold PlinkoGame.handle_ball_box_score. rewrite Hbx, init_boxes_list.
  unfold SCREEN_HEIGHT, BOX_HEIGHT, SCREEN_WIDTH. simpl (600 - 80)%Z.
  assert (Hyes : forall l t w h,
             IZR l <= Ball.x ball <= IZR (l + w) ->
             IZR t <= Ball.y ball + Ball.radius ball ->
             PlinkoGame.box_matches (Rect.Build l t w h) ball = true).
  { intros l t w h H1 H2. apply box_matches_spec. unfold Rect.right. simpl. tauto. }
  assert (Hno : forall l t w h,
             (Ball.x ball < IZR l \/ IZR (l + w) < Ball.x ball
              \/ Ball.y ball + Ball.radius ball < IZR t) ->
             PlinkoGame.box_matches (Rect.Build l t w h) ball = false).
  { intros l t w h H. destruct (PlinkoGame.box_matches (Rect.Build l t w h) ball) eqn:E;
      [| reflexivity].
    apply box_matches_spec in E. unfold Rect.right in E. simpl in E. lra. }
  split.
  - intros i value Ei Hy Hlo Hhi.
    unfold BOX_VALUES in Ei.
    do 5 (destruct i as [| i];
          [injection Ei as <-; simpl INR in *; simpl PlinkoGame.score_in_boxes;
           destruct Hlo as [Hlo | [Hi Hx0]]; try discriminate Hi;
           repeat (first [ rewrite Hyes by (simpl; lra)
                         | rewrite Hno by (simpl; lra) ]);
           reflexivity |]).
    destruct i; discriminate Ei.
  - intros Hout. simpl PlinkoGame.score_in_boxes.
    rewrite !Hno by (simpl; lra). now destruct game.
Qed.

(** [edge_ball], at [x = 160], counts for box 0 and not for box 1. *)
Lemma landing_box_witness :
  PlinkoGame.boxes parked_game = PlinkoGame.boxes (PlinkoGame.init_boxes parked_game)
  /\ nth_error BOX_VALUES 0 = Some 10%Z
  /\ IZR (SCREEN_HEIGHT - BOX_HEIGHT) <= Ball.y edge_ball + Ball.radius edge_ball
  /\ 160 * INR 0 < Ball.x edge_ball
  /\ Ball.x edge_ball <= 160 * (INR 0 + 1)
  /\ PlinkoGame.handle_ball_box_score parked_game edge_ball
     = PlinkoGame.set_score parked_game (PlinkoGame.score parked_game + 10).
Proof.
  assert (Hy : IZR (SCREEN_HEIGHT - BOX_HEIGHT) <= Ball.y edge_ball + Ball.radius edge_ball).
  { unfold SCREEN_HEIGHT, BOX_HEIGHT, edge_ball, BALL_RADIUS. simpl. lra. }
  assert (Hlo : 160 * INR 0 < Ball.x edge_ball) by (unfold edge_ball; simpl; lra).
  assert (Hhi : Ball.x edge_ball <= 160 * (INR 0 + 1)) by (unfold edge_ball; simpl; lra).
  split; [reflexivity |]. split; [reflexivity |]. split; [exact Hy |].
  split; [exact Hlo |]. split; [exact Hhi |].
  destruct (landing_box parked_game edge_ball eq_refl) as [H _].
  apply (H 0%nat 10%Z eq_refl Hy (or_introl Hlo) Hhi).
Defined.

(** ** Further properties: randomness and particles are cosmetic *)

Lemma same_place_dist b p q : same_place p q -> dist_centers b p = dist_centers b q.
Proof. intros (Hx & Hy & _). unfold dist_centers. now rewrite Hx, Hy. Qed.

Lemma same_place_min_dist b p q : same_place p q -> min_dist b p = min_dist b q.
Proof. intros (_ & _ & Hr). unfold min_dist. now rewrite Hr. Qed.

Lemma same_place_overlapping b p q : same_place p q -> overlapping b p -> overlapping b q.
Proof.
  intros H. unfold overlapping.
  now rewrite (same_place_dist b p q H), (same_place_min_dist b p q H).
Qed.

Lemma same_place_sym p q : same_place p q -> same_place q p.
Proof. intros (A & B & C). repeat split; congruence. Qed.

Lemma same_place_bounced b p q : same_place p q -> bounced b p = bounced b q.
Proof.
  intros H. pose proof (same_place_dist b p q H) as Hd.
  pose proof (same_place_min_dist b p q H) as Hm. destruct H as (Hx & Hy & _).
  unfold bounced, collision_normal. now rewrite Hd, Hm, Hx, Hy.
Qed.

Lemma handle_peg_collision_indep b p q g1 g2 :
  same_place p q ->
  exists b' p' g1' q' g2',
    Ball.handle_peg_collision b p g1 = Ok (b', p', g1')
    /\ Ball.handle_peg_collision b q g2 = Ok (b', q', g2')
    /\ same_place p' q'.
Proof.
  intros H.
  destruct (handle_peg_collision_ok b p g1) as (b1 & p1 & g1' & E1 & C1).
  destruct (handle_peg_collision_ok b q g2) as (b2 & q2 & g2' & E2 & C2).
  pose proof (peg_gains_same_place _ _ (handle_peg_collision_peg _ _ _ _ _ _ E1)) as S1.
  pose proof (peg_gains_same_place _ _ (handle_peg_collision_peg _ _ _ _ _ _ E2)) as S2.
  assert (Hb : b1 = b2).
  { destruct C1 as [(O1 & -> & _) | (N1 & -> & _)];
      destruct C2 as [(O2 & -> & _) | (N2 & -> & _)].
    - now apply same_place_bounced.
    - exfalso. apply N2. now apply (same_place_overlapping b p q).
    - exfalso. apply N1. apply (same_place_overlapping b q p); [now apply same_place_sym | exact O2].
    - reflexivity. }
  subst b2. exists b1, p1, g1', q2, g2'. split; [exact E1 |]. split; [exact E2 |].
  eapply same_place_trans; [apply same_place_sym; exact S1 |].
  eapply same_place_trans; [exact H | exact S2].
Qed.

Lemma peg_collisions_indep ps qs :
  Forall2 same_place ps qs ->
  forall b done1 done2 g1 g2,
  exists b' ps' g1' qs' g2',
    Ball.peg_collisions b ps done1 g1 = Ok (b', done1 ++ ps', g1')
    /\ Ball.peg_collisions b qs done2 g2 = Ok (b', done2 ++ qs', g2')
    /\ Forall2 same_place ps' qs'.
Proof.
  induction 1 as [| p q ps qs H _ IH]; intros b done1 done2 g1 g2.
  - exists b, [], g1, [], g2. simpl. rewrite !app_nil_r. repeat split. constructor.
  - simpl Ball.peg_collisions.
    destruct (handle_peg_collision_indep b p q g1 g2 H)
      as (b1 & p1 & g1a & q1 & g2a & E1 & E2 & S).
    rewrite (bind_ok _ _ _ _ _ E1), (bind_ok _ _ _ _ _ E2).
    destruct (IH b1 (done1 ++ [p1]) (done2 ++ [q1]) g1a g2a)
      as (b' & ps' & g1' & qs' & g2' & F1 & F2 & S').
    exists b', (p1 :: ps'), g1', (q1 :: qs'), g2'.
    rewrite F1, F2, <- !app_assoc. simpl. repeat split. now constructor.
Qed.

Lemma gravity_and_clamp_indep b g1 g2 :
  exists b1,
    Ball.gravity_and_clamp b g1 = Ok (b1, g1)
    /\ Ball.gravity_and_clamp b g2 = Ok (b1, g2).
Proof.
  unfold Ball.gravity_and_clamp.
  set (b0 := Ball.set_vel b (Ball.vx b) (Ball.vy b + GRAVITY)).
  rewrite (bind_ok _ _ g1 (speed b0) g1)
    by (unfold lift; rewrite py_sqrt_ok by apply sum_squares_nonneg; reflexivity).
  rewrite (bind_ok _ _ g2 (speed b0) g2)
    by (unfold lift; rewrite py_sqrt_ok by apply sum_squares_nonneg; reflexivity).
  destruct (Rlt_dec MAX_BALL_SPEED (speed b0)) as [Hfast | Hslow].
  - assert (Hpos : speed b0 <> 0) by (unfold MAX_BALL_SPEED in Hfast; lra).
    unfold bind, lift, ret. rewrite (py_div_ok _ _ Hpos).
    eexists. split; reflexivity.
  - exists b0. split; reflexivity.
Qed.

Lemma ball_update_indep b ps qs box g1 g2 :
  Forall2 same_place ps qs ->
  exists b' ps' g1' qs' g2',
    Ball.update b ps box g1 = Ok (b', ps', g1')
    /\ Ball.update b qs box g2 = Ok (b', qs', g2')
    /\ Forall2 same_place ps' qs'.
Proof.
  intros H. unfold Ball.update.
  destruct (gravity_and_clamp_indep b g1 g2) as (b1 & E1 & E2).
  rewrite (bind_ok _ _ _ _ _ E1), (bind_ok _ _ _ _ _ E2).
  destruct (peg_collisions_indep ps qs H
              (Ball.ceiling (Ball.walls (Ball.integrate b1))) [] [] g1 g2)
    as (b' & ps' & g1' & qs' & g2' & F1 & F2 & S).
  rewrite (bind_ok _ _ _ _ _ F1), (bind_ok _ _ _ _ _ F2). unfold ret. simpl app.
  eexists _, _, _, _, _. split; [reflexivity |]. split; [reflexivity | exact S].
Qed.

Lemma update_balls_indep bs :
  forall ps qs box g1 g2,
    Forall2 same_place ps qs ->
    exists bs' ps' g1' qs' g2',
      PlinkoGame.update_balls bs ps box g1 = Ok (bs', ps', g1')
      /\ PlinkoGame.update_balls bs qs box g2 = Ok (bs', qs', g2')
      /\ Forall2 same_place ps' qs'.
Proof.
  induction bs as [| b bs IH]; intros ps qs box g1 g2 H.
  - exists [], ps, g1, qs, g2. repeat split. exact H.
  - simpl PlinkoGame.update_balls.
    assert (H1 : exists b1 ps1 g1a qs1 g2a,
               (if negb (Ball.finalized b) then Ball.update b ps box
                else ret (b, ps)) g1 = Ok (b1, ps1, g1a)
               /\ (if negb (Ball.finalized b) then Ball.update b qs box
                   else ret (b, qs)) g2 = Ok (b1, qs1, g2a)
               /\ Forall2 same_place ps1 qs1).
    { destruct (Ball.finalized b); simpl negb; cbv iota.
      - exists b, ps, g1, qs, g2. repeat split. exact H.
      - now apply ball_update_indep. }
    destruct H1 as (b1 & ps1 & g1a & qs1 & g2a & E1 & E2 & S1).
    rewrite (bind_ok _ _ _ _ _ E1), (bind_ok _ _ _ _ _ E2).
    destruct (IH ps1 qs1 box g1a g2a S1) as (bs' & ps' & g1' & qs' & g2' & F1 & F2 & S).
    rewrite (bind_ok _ _ _ _ _ F1), (bind_ok _ _ _ _ _ F2). unfold ret.
    exists (b1 :: bs'), ps', g1', qs', g2'. repeat split. exact S.
Qed.

Lemma peg_update_same_places ps qs :
  Forall2 same_place ps qs -> Forall2 same_place (map Peg.update ps) (map Peg.update qs).
Proof.
  induction 1 as [| p q ps qs H _ IH]; simpl; constructor; [exact H | exact IH].
Qed.

(** X12.  Randomness and particles are cosmetic in the play step.  Two games
    that agree on state, score, counters, balls and boxes, and whose pegs are
    at the same places, still agree on all of these after one play step each,
    whatever the two random sources and whatever particles and colours the
    pegs carry; the balls come out identical. *)
Theorem play_ignores_randomness a b g1 g2 :
  same_play a b ->
  exists a' g1' b' g2',
    PlinkoGame.update_play a g1 = Ok (a', g1')
    /\ PlinkoGame.update_play b g2 = Ok (b', g2')
    /\ PlinkoGame.balls a' = PlinkoGame.balls b'
    /\ PlinkoGame.score a' = PlinkoGame.score b'
    /\ PlinkoGame.state a' = PlinkoGame.state b'
    /\ PlinkoGame.best_score a' = PlinkoGame.best_score b'
    /\ same_play a' b'.
Proof.
  intros (Hst & Hsc & Hal & Hdr & Hbe & Hba & Hbx & Hpg).
  destruct (update_play_full a g1)
    as (bs1 & ps1 & g1' & a' & Eb1 & E1 & Hb1 & Hp1 & Hx1 & Hs1 & Ha1 & Hd1 & _ & Ho1 & Hn1).
  destruct (update_play_full b g2)
    as (bs2 & ps2 & g2' & b' & Eb2 & E2 & Hb2 & Hp2 & Hx2 & Hs2 & Ha2 & Hd2 & _ & Ho2 & Hn2).
  destruct (update_balls_indep (PlinkoGame.balls a) (map Peg.update (PlinkoGame.pegs a))
              (map Peg.update (PlinkoGame.pegs b)) scoring_top g1 g2
              (peg_update_same_places _ _ Hpg))
    as (bs & ps & g1a & qs & g2a & F1 & F2 & S).
  rewrite Eb1 in F1. injection F1 as <- <- <-.
  rewrite Hba, Eb2 in F2. injection F2 as Hbs Hqs Hg. subst bs2 qs g2a.
  assert (Hballs : PlinkoGame.balls a' = PlinkoGame.balls b') by congruence.
  assert (Hscore : PlinkoGame.score a' = PlinkoGame.score b') by congruence.
  assert (Hrest : PlinkoGame.state a' = PlinkoGame.state b'
                  /\ PlinkoGame.best_score a' = PlinkoGame.best_score b').
  { destruct (Z.eq_dec (PlinkoGame.balls_dropped a) (PlinkoGame.balls_allowed a)) as [Hd | Hd];
      [destruct (PlinkoGame.balls a') eqn:Ea |].
    - destruct Ho1 as (-> & -> & _); [now split |].
      destruct Ho2 as (-> & -> & _); [split; congruence |].
      split; [reflexivity | congruence].
    - destruct Hn1 as (-> & -> & _); [intros [_ H]; discriminate |].
      destruct Hn2 as (-> & -> & _); [intros [_ H]; congruence |]. now split.
    - destruct Hn1 as (-> & -> & _); [intros [H _]; contradiction |].
      destruct Hn2 as (-> & -> & _); [intros [H _]; congruence |]. now split. }
  destruct Hrest as [Hstate Hbest].
  exists a', g1', b', g2'. split; [exact E1 |]. split; [exact E2 |].
  split; [exact Hballs |]. split; [exact Hscore |]. split; [exact Hstate |].
  split; [exact Hbest |].
  unfold same_play. rewrite Hp1, Hp2.
  repeat (split; [congruence |]). exact S.
Qed.

(** ** Further properties: a whole session *)

Lemma reach_set_state game s : reachable game -> reachable (PlinkoGame.set_state game s).
Proof.
  intros H.
  replace (PlinkoGame.set_state game s)
    with (PlinkoGame.set_state
            (PlinkoGame.set_debug_mode
               (PlinkoGame.set_balls_allowed game (PlinkoGame.balls_allowed game))
               (PlinkoGame.debug_mode game)) s)
    by now destruct game.
  now apply reach_ui.
Qed.

Lemma reach_set_balls_allowed game n :
  reachable game -> reachable (PlinkoGame.set_balls_allowed game n).
Proof.
  intros H.
  replace (PlinkoGame.set_balls_allowed game n)
    with (PlinkoGame.set_state
            (PlinkoGame.set_debug_mode (PlinkoGame.set_balls_allowed game n)
               (PlinkoGame.debug_mode game)) (PlinkoGame.state game))
    by now destruct game.
  now apply reach_ui.
Qed.

Lemma reach_toggle_debug game : reachable game -> reachable (PlinkoGame.toggle_debug game).
Proof.
  intros H.
  replace (PlinkoGame.toggle_debug game)
    with (PlinkoGame.set_state
            (PlinkoGame.set_debug_mode
               (PlinkoGame.set_balls_allowed game (PlinkoGame.balls_allowed game))
               (negb (PlinkoGame.debug_mode game))) (PlinkoGame.state game))
    by now destruct game.
  now apply reach_ui.
Qed.

Lemma session_ok_set_state game s :
  session_ok game ->
  s <> STATE_GAMEOVER ->
  (s = STATE_PLAY \/ s = STATE_PAUSE ->
   PlinkoGame.state game = STATE_PLAY \/ PlinkoGame.state game = STATE_PAUSE) ->
  session_ok (PlinkoGame.set_state game s).
Proof.
  intros (Hr & Ha & Hd & Hl & Hs & Hb & Hp & Hg) Hne Hplay.
  split; [now apply reach_set_state |].
  cbn [PlinkoGame.set_state PlinkoGame.state PlinkoGame.balls_allowed PlinkoGame.balls_dropped
       PlinkoGame.balls PlinkoGame.score PlinkoGame.best_score].
  repeat (split; [assumption |]). split.
  - intros H. apply Hp, Hplay, H.
  - intros H. contradiction.
Qed.

Lemma session_ok_settings game game' :
  session_ok game ->
  PlinkoGame.state game = STATE_SETTINGS ->
  reachable game' ->
  PlinkoGame.state game' = STATE_SETTINGS ->
  (1 <= PlinkoGame.balls_allowed game' <= 50)%Z ->
  PlinkoGame.balls_dropped game' = PlinkoGame.balls_dropped game ->
  PlinkoGame.balls game' = PlinkoGame.balls game ->
  PlinkoGame.score game' = PlinkoGame.score game ->
  PlinkoGame.best_score game' = PlinkoGame.best_score game ->
  session_ok game'.
Proof.
  intros (Hr & Ha & Hd & Hl & Hs & Hb & Hp & Hg) Hst Hr' Hst' Ha' Hd' Hl' Hs' Hb'.
  split; [exact Hr' |]. rewrite Hd', Hl', Hs', Hb', Hst'.
  repeat (split; [assumption |]). split; intros H; [destruct H |]; discriminate.
Qed.

Lemma reset_game_full game g :
  exists pegs g' game',
    PlinkoGame.reset_game game g = Ok (game', g')
    /\ triangular pegs
    /\ PlinkoGame.pegs game' = pegs
    /\ PlinkoGame.balls game' = []
    /\ PlinkoGame.score game' = 0%Z
    /\ PlinkoGame.balls_dropped game' = 0%Z
    /\ PlinkoGame.boxes game' = PlinkoGame.boxes game
    /\ PlinkoGame.balls_allowed game' = PlinkoGame.balls_allowed game
    /\ PlinkoGame.best_score game' = PlinkoGame.best_score game
    /\ PlinkoGame.state game' = PlinkoGame.state game
    /\ PlinkoGame.debug_mode game' = PlinkoGame.debug_mode game.
Proof.
  unfold PlinkoGame.reset_game.
  match goal with |- context [PlinkoGame.init_pegs ?s g] =>
    destruct (init_pegs_ok s g) as (pegs & g' & E & T) end.
  exists pegs, g'. eexists. split; [exact E |]. repeat split. exact T.
Qed.

Lemma session_ok_play game g game0 g0 :
  session_ok game ->
  PlinkoGame.reset_game game g = Ok (game0, g0) ->
  session_ok (PlinkoGame.set_state game0 STATE_PLAY).
Proof.
  intros (Hr & Ha & Hd & Hl & Hs & Hb & Hp & Hg) E.
  destruct (reset_game_full game g)
    as (pegs & g1 & game1 & E1 & _ & _ & Hbs & Hsc & Hdr & _ & Hal & Hbe & _).
  pose proof E as E'. rewrite E1 in E'. injection E' as <- <-.
  split; [apply reach_set_state; eapply reach_reset; eassumption |].
  cbn [PlinkoGame.set_state PlinkoGame.state PlinkoGame.balls_allowed PlinkoGame.balls_dropped
       PlinkoGame.balls PlinkoGame.score PlinkoGame.best_score].
  rewrite Hbs, Hsc, Hdr, Hal, Hbe. simpl length.
  repeat (split; [assumption || lia |]). discriminate.
Qed.

Lemma session_ok_play_event game event g game' g' :
  session_ok game ->
  PlinkoGame.state game = STATE_PLAY ->
  PlinkoGame.handle_play_events game event g = Ok (game', g') ->
  session_ok game'.
Proof.
  intros (Hr & Ha & Hd & Hl & Hs & Hb & Hp & Hg) Hst E.
  destruct (handle_play_events_full game event g)
    as (game1 & g1 & E1 & _ & _ & Hsc & Hbe & Hal & _ & Hcase).
  pose proof E as E'. rewrite E1 in E'. injection E' as <- <-.
  split; [eapply reach_event; eassumption |].
  rewrite Hsc, Hbe, Hal.
  assert (Hle : (PlinkoGame.balls_dropped game <= PlinkoGame.balls_allowed game)%Z)
    by (apply Hp; now left).
  destruct Hcase as [(Hbs & Hdr & Hstate)
                    | (mx & my & pr & c & v & _ & _ & Hlt & Hbs & _ & _ & Hdr & Hstate)];
    rewrite Hbs, Hdr.
  - repeat (split; [assumption |]). split; [intros _; exact Hle |].
    intros H. destruct Hstate as [Hx | Hx]; rewrite Hx in H; [congruence | discriminate].
  - rewrite length_app. simpl length. rewrite Nat2Z.inj_add.
    repeat (split; [assumption || lia |]).
    intros H. congruence.
Qed.

Lemma update_balls_length bs : forall pegs box g bs' pegs' g',
  PlinkoGame.update_balls bs pegs box g = Ok (bs', pegs', g') -> length bs' = length bs.
Proof.
  induction bs as [| b bs IH]; intros pegs box g bs' pegs' g' E.
  - simpl in E. unfold ret in E. injection E as <- _ _. reflexivity.
  - simpl in E. unfold bind at 1 in E.
    destruct ((if negb (Ball.finalized b) then Ball.update b pegs box else ret (b, pegs)) g)
      as [[[b1 pegs1] g1] | e]; [| discriminate E].
    unfold bind in E.
    destruct (PlinkoGame.update_balls bs pegs1 box g1) as [[[bs1 pegs2] g2] | e] eqn:E2;
      [| discriminate E].
    unfold ret in E. injection E as <- _ _. simpl. f_equal. eapply IH. exact E2.
Qed.

Lemma session_ok_update game g game' g' :
  session_ok game ->
  PlinkoGame.update game g = Ok (game', g') ->
  session_ok game'.
Proof.
  intros Hok E. unfold PlinkoGame.update in E.
  destruct (PlinkoGame.state game) eqn:Hst;
    try (unfold ret in E; injection E as <- <-; exact Hok).
  destruct Hok as (Hr & Ha & Hd & Hl & Hs & Hb & Hp & Hg).
  destruct (update_play_full game g)
    as (bs & pegs' & g1 & game1 & Eb & E1 & Hballs & _ & _ & Hscore & Hal & Hdr & _
        & Hover & Hon).
  pose proof E as E'. rewrite E1 in E'. injection E' as <- <-.
  assert (Hle : (PlinkoGame.balls_dropped game <= PlinkoGame.balls_allowed game)%Z)
    by (apply Hp; now left).
  assert (Hsc : (PlinkoGame.score game <= PlinkoGame.score game1)%Z).
  { rewrite Hscore. apply score_after_mono. now apply reachable_boxes. }
  assert (Hlen : (Z.of_nat (length (PlinkoGame.balls game1))
                  <= PlinkoGame.balls_dropped game)%Z).
  { rewrite Hballs. pose proof (filter_length_le (fun b => negb (Ball.finalized b)) bs) as H1.
    rewrite (update_balls_length _ _ _ _ _ _ _ Eb) in H1. lia. }
  split; [eapply reach_update; eassumption |]. rewrite Hal, Hdr.
  split; [exact Ha |]. split; [exact Hd |]. split; [exact Hlen |]. split; [lia |].
  destruct (Z.eq_dec (PlinkoGame.balls_dropped game) (PlinkoGame.balls_allowed game)) as [He | He];
    [destruct (PlinkoGame.balls game1) eqn:Ebl |].
  - destruct Hover as (Hst' & Hbest & _); [now split |].
    rewrite Hst', Hbest. split; [lia |]. split; [intros _; exact Hle |].
    intros _. split; [reflexivity |]. split; [lia | exact He].
  - destruct Hon as (Hst' & Hbest & _); [intros [_ H]; discriminate |].
    rewrite Hst', Hbest, Hst. split; [exact Hb |]. split; [intros _; exact Hle |].
    discriminate.
  - destruct Hon as (Hst' & Hbest & _); [intros [H _]; contradiction |].
    rewrite Hst', Hbest, Hst. split; [exact Hb |]. split; [intros _; exact Hle |].
    discriminate.
Qed.

Lemma session_ok_same game : session_ok game -> session_ok game.
Proof. auto. Qed.

(** One event: it never raises, and what it leaves is again a game of the
    kind a session has. *)
Lemma handle_event_ok game input g :
  session_ok game ->
  exists outcome g',
    PlinkoGame.handle_event game input g = Ok (outcome, g')
    /\ forall game', outcome = PlinkoGame.Running game' -> session_ok game'.
Proof.
  intros Hok. destruct input as [| event].
  { eexists _, _. split; [reflexivity |]. intros game' H. discriminate H. }
  unfold PlinkoGame.handle_event.
  destruct (PlinkoGame.state game) eqn:Hst.
  - (* menu *)
    unfold PlinkoGame.handle_menu_events.
    destruct event as [| mx my pressed |];
      try (eexists _, _; split; [reflexivity |]; intros game' H; injection H as <-; exact Hok).
    destruct (PlinkoGame.clicked PlinkoGame.menu_buttons 0 mx my pressed).
    { destruct (reset_game_full game g) as (pegs & g1 & game1 & E1 & _).
      rewrite (bind_ok _ _ _ _ _ E1). eexists _, _. split; [reflexivity |].
      intros game' H. injection H as <-. eapply session_ok_play; eassumption. }
    destruct (PlinkoGame.clicked PlinkoGame.menu_buttons 1 mx my pressed).
    { eexists _, _. split; [reflexivity |]. intros game' H. injection H as <-.
      apply session_ok_set_state; [exact Hok | discriminate | intros [H' | H']; discriminate H']. }
    destruct (PlinkoGame.clicked PlinkoGame.menu_buttons 2 mx my pressed).
    { eexists _, _. split; [reflexivity |]. intros game' H. injection H as <-.
      apply session_ok_set_state; [exact Hok | discriminate | intros [H' | H']; discriminate H']. }
    destruct (PlinkoGame.clicked PlinkoGame.menu_buttons 3 mx my pressed).
    { eexists _, _. split; [reflexivity |]. intros game' H. discriminate H. }
    eexists _, _. split; [reflexivity |]. intros game' H. injection H as <-. exact Hok.
  - (* play *)
    destruct (handle_play_events_full game event g) as (game1 & g1 & E1 & _).
    rewrite (bind_ok _ _ _ _ _ E1). eexists _, _. split; [reflexivity |].
    intros game' H. injection H as <-. eapply session_ok_play_event; eassumption.
  - (* pause *)
    eexists _, _. split; [reflexivity |]. intros game' H. injection H as <-.
    unfold PlinkoGame.handle_pause_events.
    destruct event as [| mx my pressed |]; [| | exact Hok].
    + apply session_ok_set_state; [exact Hok | discriminate | intros _; now right].
    + destruct (PlinkoGame.clicked PlinkoGame.pause_buttons 0 mx my pressed);
        [apply session_ok_set_state; [exact Hok | discriminate | intros _; now right] |].
      destruct (PlinkoGame.clicked PlinkoGame.pause_buttons 1 mx my pressed);
        [apply session_ok_set_state;
         [exact Hok | discriminate | intros [H' | H']; discriminate H'] |].
      destruct (PlinkoGame.clicked PlinkoGame.pause_buttons 2 mx my pressed);
        [apply session_ok_set_state;
         [exact Hok | discriminate | intros [H' | H']; discriminate H'] |].
      exact Hok.
  - (* game over *)
    eexists _, _. split; [reflexivity |]. intros game' H. injection H as <-.
    unfold PlinkoGame.handle_gameover_events.
    destruct event as [| mx my pressed |]; try exact Hok.
    destruct (PlinkoGame.clicked PlinkoGame.gameover_buttons 0 mx my pressed); [| exact Hok].
    apply session_ok_set_state; [exact Hok | discriminate | intros [H' | H']; discriminate H'].
  - (* high scores *)
    eexists _, _. split; [reflexivity |]. intros game' H. injection H as <-.
    unfold PlinkoGame.handle_highscore_events.
    destruct event as [| mx my pressed |]; try exact Hok.
    destruct (PlinkoGame.clicked PlinkoGame.highscore_buttons 0 mx my pressed); [| exact Hok].
    apply session_ok_set_state; [exact Hok | discriminate | intros [H' | H']; discriminate H'].
  - (* settings *)
    eexists _, _. split; [reflexivity |]. intros game' H. injection H as <-.
    unfold PlinkoGame.handle_settings_events.
    destruct event as [| mx my pressed |]; try exact Hok.
    pose proof Hok as (Hr & Ha & _).
    destruct (PlinkoGame.clicked PlinkoGame.settings_buttons 0 mx my pressed).
    { apply (session_ok_settings game); auto. now apply reach_toggle_debug. }
    destruct (PlinkoGame.clicked PlinkoGame.settings_buttons 1 mx my pressed).
    { apply (session_ok_settings game); auto.
      - now apply reach_set_balls_allowed.
      - cbn [PlinkoGame.set_balls_allowed PlinkoGame.balls_allowed]. unfold clamp. lia. }
    destruct (PlinkoGame.clicked PlinkoGame.settings_buttons 2 mx my pressed).
    { apply (session_ok_settings game); auto.
      - now apply reach_set_balls_allowed.
      - cbn [PlinkoGame.set_balls_allowed PlinkoGame.balls_allowed]. unfold clamp. lia. }
    destruct (PlinkoGame.clicked PlinkoGame.settings_buttons 3 mx my pressed); [| exact Hok].
    apply session_ok_set_state; [exact Hok | discriminate | intros [H' | H']; discriminate H'].
Qed.

Lemma handle_events_ok queue :
  forall game g,
    session_ok game ->
    exists outcome g',
      PlinkoGame.handle_events game queue g = Ok (outcome, g')
      /\ forall game', outcome = PlinkoGame.Running game' -> session_ok game'.
Proof.
  induction queue as [| input queue IH]; intros game g Hok.
  - eexists _, _. split; [reflexivity |]. intros game' H. injection H as <-. exact Hok.
  - simpl PlinkoGame.handle_events.
    destruct (handle_event_ok game input g Hok) as (outcome & g1 & E & Hnext).
    rewrite (bind_ok _ _ _ _ _ E). destruct outcome as [game1 |].
    + apply IH. now apply Hnext.
    + eexists _, _. split; [reflexivity |]. intros game' H. discriminate H.
Qed.

Lemma update_total game g : exists game' g', PlinkoGame.update game g = Ok (game', g').
Proof.
  unfold PlinkoGame.update.
  destruct (PlinkoGame.state game); try (now exists game, g).
  destruct (update_play_ok game g) as (_ & _ & g' & game' & _ & E & _). now exists game', g'.
Qed.

Lemma frame_ok game queue g :
  session_ok game ->
  exists outcome g',
    PlinkoGame.frame game queue g = Ok (outcome, g')
    /\ forall game', outcome = PlinkoGame.Running game' -> session_ok game'.
Proof.
  intros Hok. unfold PlinkoGame.frame.
  destruct (handle_events_ok queue game g Hok) as (outcome & g1 & E & Hnext).
  rewrite (bind_ok _ _ _ _ _ E). destruct outcome as [game1 |].
  - destruct (update_total game1 g1) as (game2 & g2 & E2).
    rewrite (bind_ok _ _ _ _ _ E2). eexists _, _. split; [reflexivity |].
    intros game' H. injection H as <-. eapply session_ok_update; [| exact E2].
    now apply Hnext.
  - eexists _, _. split; [reflexivity |]. intros game' H. discriminate H.
Qed.

Lemma main_loop_ok queues :
  forall game g,
    session_ok game ->
    exists outcome g',
      PlinkoGame.main_loop game queues g = Ok (outcome, g')
      /\ forall game', outcome = PlinkoGame.Running game' -> session_ok game'.
Proof.
  induction queues as [| queue queues IH]; intros game g Hok.
  - eexists _, _. split; [reflexivity |]. intros game' H. injection H as <-. exact Hok.
  - simpl PlinkoGame.main_loop.
    destruct (frame_ok game queue g Hok) as (outcome & g1 & E & Hnext).
    rewrite (bind_ok _ _ _ _ _ E). destruct outcome as [game1 |].
    + apply IH. now apply Hnext.
    + eexists _, _. split; [reflexivity |]. intros game' H. discriminate H.
Qed.

Lemma new_session_ok g game g' : PlinkoGame.new g = Ok (game, g') -> session_ok game.
Proof.
  intros E. pose proof (reach_new _ _ _ E) as Hr.
  destruct (new_ok g) as (pegs & g1 & E1 & _).
  rewrite E1 in E. injection E as <- <-.
  split; [exact Hr |].
  cbn [PlinkoGame.init_boxes PlinkoGame.set_boxes PlinkoGame.set_pegs blank_game
       PlinkoGame.state PlinkoGame.balls_allowed PlinkoGame.balls_dropped PlinkoGame.balls
       PlinkoGame.score PlinkoGame.best_score length].
  repeat (split; [lia |]).
  intros Hx. discriminate Hx.
Qed.

Lemma main_ok queues g :
  exists outcome g',
    PlinkoGame.main queues g = Ok (outcome, g')
    /\ forall game', outcome = PlinkoGame.Running game' -> session_ok game'.
Proof.
  unfold PlinkoGame.main.
  destruct (new_ok g) as (pegs & g1 & E & _).
  rewrite (bind_ok _ _ _ _ _ E). apply main_loop_ok. eapply new_session_ok. exact E.
Qed.

Lemma in_session_ok game : in_session game -> session_ok game.
Proof.
  intros (queues & g & g' & E).
  destruct (main_ok queues g) as (outcome & g1 & E1 & Hnext).
  rewrite E1 in E. injection E as -> _. now apply Hnext.
Qed.

(** X13.  No frame raises.  Whatever the queues of events and whatever the
    random source, [main] runs through all its frames without an exception
    from the physics: it ends either with a game or by [sys.exit()]. *)
Theorem session_never_raises queues g :
  exists outcome g', PlinkoGame.main queues g = Ok (outcome, g').
Proof.
  destruct (main_ok queues g) as (outcome & g' & E & _). now exists outcome, g'.
Qed.

(** X14.  The counters of a session.  In every game that [main] reaches the
    ball budget lies between 1 and 50, the number of balls in play is at most
    the number of balls dropped, score and best score are not negative, and
    while the play or the pause screen shows, no more balls have been dropped
    than the budget allows.  Every such game is a reachable one in the sense
    used above. *)
Theorem session_counters game :
  in_session game ->
  reachable game
  /\ (1 <= PlinkoGame.balls_allowed game <= 50)%Z
  /\ (0 <= PlinkoGame.balls_dropped game)%Z
  /\ (Z.of_nat (length (PlinkoGame.balls game)) <= PlinkoGame.balls_dropped game)%Z
  /\ (0 <= PlinkoGame.score game)%Z
  /\ (0 <= PlinkoGame.best_score game)%Z
  /\ (PlinkoGame.state game = STATE_PLAY \/ PlinkoGame.state game = STATE_PAUSE ->
      (PlinkoGame.balls_dropped game <= PlinkoGame.balls_allowed game)%Z).
Proof.
  intros H. destruct (in_session_ok _ H) as (A & B & C & D & E & F & G & _).
  repeat (split; [assumption |]). exact G.
Qed.

(** The queue of one frame: Play, two balls, then Escape. *)
Lemma paused_session_runs :
  exists game g',
    PlinkoGame.main [paused_queue] quiet_random = Ok (PlinkoGame.Running game, g')
    /\ PlinkoGame.state game = STATE_PAUSE
    /\ PlinkoGame.balls_dropped game = 2%Z
    /\ length (PlinkoGame.balls game) = 2%nat.
Proof.
  assert (Hc : match PlinkoGame.main [paused_queue] quiet_random with
               | Ok (PlinkoGame.Running game, _) =>
                   match PlinkoGame.state game with STATE_PAUSE => true | _ => false end
                   && (PlinkoGame.balls_dropped game =? 2)%Z
                   && (length (PlinkoGame.balls game) =? 2)%nat
               | _ => false
               end = true) by (vm_compute; reflexivity).
  destruct (PlinkoGame.main [paused_queue] quiet_random) as [[[game |] g'] | e];
    try discriminate Hc.
  exists game, g'. split; [reflexivity |].
  apply andb_prop in Hc. destruct Hc as [Hc Hl]. apply andb_prop in Hc. destruct Hc as [Hs Hd].
  split; [destruct (PlinkoGame.state game); try discriminate Hs; reflexivity |].
  split; [now apply Z.eqb_eq | now apply Nat.eqb_eq].
Qed.

Lemma session_counters_witness :
  exists game,
    in_session game
    /\ PlinkoGame.state game = STATE_PAUSE
    /\ PlinkoGame.balls_dropped game = 2%Z
    /\ (1 <= PlinkoGame.balls_allowed game <= 50)%Z
    /\ (PlinkoGame.balls_dropped game <= PlinkoGame.balls_allowed game)%Z.
Proof.
  destruct paused_session_runs as (game & g' & E & Hs & Hd & _).
  assert (Hin : in_session game) by (now exists [paused_queue], quiet_random, g').
  exists game. split; [exact Hin |]. split; [exact Hs |]. split; [exact Hd |].
  destruct (session_counters game Hin) as (_ & Ha & _ & _ & _ & _ & Hp).
  split; [exact Ha |]. apply Hp. now right.
Defined.

(** The score gained in a play step of a reachable game, against the number of
    balls the step finalizes. *)
Lemma reachable_landings game g :
  reachable game ->
  exists bs pegs' g' game',
    PlinkoGame.update_balls (PlinkoGame.balls game) (map Peg.update (PlinkoGame.pegs game))
      scoring_top g = Ok (bs, pegs', g')
    /\ PlinkoGame.update_play game g = Ok (game', g')
    /\ PlinkoGame.balls game' = filter (fun b => negb (Ball.finalized b)) bs
    /\ (PlinkoGame.score game + 10 * Z.of_nat (length (filter Ball.finalized bs))
        <= PlinkoGame.score game'
        <= PlinkoGame.score game + 50 * Z.of_nat (length (filter Ball.finalized bs)))%Z.
Proof.
  intros Hreach.
  destruct (reachable_pass game g Hreach)
    as (bs & pegs' & g' & game' & Eb & E & Hballs & Hscore & F).
  exists bs, pegs', g', game'. split; [exact Eb |]. split; [exact E |].
  split; [exact Hballs |].
  destruct (reachable_board_ok _ Hreach) as (_ & _ & Hbx).
  rewrite Hscore.
  apply score_after_range; [now apply reachable_boxes |].
  apply Forall_forall. intros b Hb. apply filter_In in Hb. destruct Hb as [Hb Hf].
  rewrite Forall_forall in F. destruct (F _ Hb) as (Hr & Hw & _ & _ & Hiff).
  rewrite Hbx. apply boxes_cover.
  - unfold in_walls in Hw. rewrite Hr in Hw. unfold BALL_RADIUS in Hw. lra.
  - now apply Hiff.
Qed.

Lemma filter_split_length {A : Type} (f : A -> bool) (l : list A) :
  (length (filter f l) + length (filter (fun x => negb (f x)) l) = length l)%nat.
Proof.
  induction l as [| a l IH]; [reflexivity |].
  simpl. destruct (f a); simpl; lia.
Qed.

(** In every reachable game the score lies between 10 and 50 times the number
    of balls that have landed: those dropped and no longer in play. *)
Lemma reachable_landed game :
  reachable game ->
  (10 * (PlinkoGame.balls_dropped game - Z.of_nat (length (PlinkoGame.balls game)))
   <= PlinkoGame.score game
   <= 50 * (PlinkoGame.balls_dropped game - Z.of_nat (length (PlinkoGame.balls game))))%Z.
Proof.
  induction 1 as [g game g' E
                 | game g game' g' Hprev IH E
                 | game event g game' g' Hprev IH E
                 | game g game' g' Hprev IH E
                 | game s d n Hprev IH].
  - destruct (new_ok g) as (pegs & g1 & E1 & _).
    rewrite E1 in E. injection E as <- <-.
    cbn [PlinkoGame.init_boxes PlinkoGame.set_boxes PlinkoGame.set_pegs blank_game
         PlinkoGame.balls_dropped PlinkoGame.balls PlinkoGame.score length]. lia.
  - destruct (reset_game_full game g)
      as (pegs & g1 & game1 & E1 & _ & _ & Hbs & Hsc & Hdr & _).
    rewrite E1 in E. injection E as <- <-. rewrite Hbs, Hsc, Hdr. simpl length. lia.
  - destruct (handle_play_events_full game event g)
      as (game1 & g1 & E1 & _ & _ & Hsc & _ & _ & _ & Hcase).
    rewrite E1 in E. injection E as <- <-. rewrite Hsc.
    destruct Hcase as [(Hbs & Hdr & _)
                      | (mx & my & pr & c & v & _ & _ & _ & Hbs & _ & _ & Hdr & _)];
      rewrite Hbs, Hdr; [exact IH |].
    rewrite length_app. simpl length. lia.
  - destruct (reachable_landings game g Hprev)
      as (bs & pegs' & g1 & game1 & Eb & E1 & Hballs & Hscore).
    rewrite E1 in E. injection E as <- <-.
    destruct (update_play_full game g)
      as (bs2 & pegs2 & g2 & game2 & _ & E2 & _ & _ & _ & _ & _ & Hdr & _).
    rewrite E1 in E2. injection E2 as <- <-. rewrite Hdr, Hballs.
    pose proof (filter_split_length Ball.finalized bs) as Hsplit.
    rewrite (update_balls_length _ _ _ _ _ _ _ Eb) in Hsplit. lia.
  - exact IH.
Qed.

(** X15.  What the game-over screen shows.  Whenever a session is in
    [STATE_GAMEOVER], no ball is left in play, every ball of the budget has
    been dropped, the score lies between 10 and 50 times the budget, and the
    best score is at least the score shown. *)
Theorem game_over_screen game :
  in_session game ->
  PlinkoGame.state game = STATE_GAMEOVER ->
  PlinkoGame.balls game = []
  /\ PlinkoGame.balls_dropped game = PlinkoGame.balls_allowed game
  /\ (10 * PlinkoGame.balls_allowed game <= PlinkoGame.score game
      <= 50 * PlinkoGame.balls_allowed game)%Z
  /\ (PlinkoGame.score game <= PlinkoGame.best_score game)%Z.
Proof.
  intros Hin Hst.
  destruct (in_session_ok _ Hin) as (Hr & _ & _ & _ & _ & _ & _ & Hg).
  destruct (Hg Hst) as (Hb & Hs & Hd).
  pose proof (reachable_landed _ Hr) as Hl. rewrite Hb, Hd in Hl. simpl length in Hl.
  split; [exact Hb |]. split; [exact Hd |]. split; [lia | exact Hs].
Qed.

(** X16.  The score counts the landings.  In every reachable game the score
    is at least 10 and at most 50 times the number of balls that have landed,
    that is, dropped and no longer in play; and a play step keeps it so. *)
Theorem score_counts_landings game :
  reachable game ->
  (10 * (PlinkoGame.balls_dropped game - Z.of_nat (length (PlinkoGame.balls game)))
   <= PlinkoGame.score game
   <= 50 * (PlinkoGame.balls_dropped game - Z.of_nat (length (PlinkoGame.balls game))))%Z
  /\ forall g, exists game' g',
       PlinkoGame.update_play game g = Ok (game', g')
       /\ (10 * (PlinkoGame.balls_dropped game'
                 - Z.of_nat (length (PlinkoGame.balls game')))
           <= PlinkoGame.score game'
           <= 50 * (PlinkoGame.balls_dropped game'
                    - Z.of_nat (length (PlinkoGame.balls game'))))%Z.
Proof.
  intros Hreach. split; [now apply reachable_landed |].
  intros g. destruct (update_play_ok game g) as (_ & _ & g' & game' & _ & E & _).
  exists game', g'. split; [exact E |].
  apply reachable_landed. eapply reach_update; eassumption.
Qed.

(** ** Further properties: a free fall *)

Lemma gravity_slow b g :
  speed (Ball.set_vel b (Ball.vx b) (Ball.vy b + GRAVITY)) <= MAX_BALL_SPEED ->
  Ball.gravity_and_clamp b g = Ok (Ball.set_vel b (Ball.vx b) (Ball.vy b + GRAVITY), g).
Proof.
  intros Hs. unfold Ball.gravity_and_clamp.
  set (b0 := Ball.set_vel b (Ball.vx b) (Ball.vy b + GRAVITY)) in *.
  rewrite (bind_ok _ _ g (speed b0) g)
    by (unfold lift; rewrite py_sqrt_ok by apply sum_squares_nonneg; reflexivity).
  destruct (Rlt_dec MAX_BALL_SPEED (speed b0)); [lra | reflexivity].
Qed.

Lemma peg_collisions_clear b pegs :
  Forall (fun p => ~ overlapping b p) pegs ->
  forall done g, Ball.peg_collisions b pegs done g = Ok (b, done ++ pegs, g).
Proof.
  induction 1 as [| p pegs Hp _ IH]; intros done g.
  - simpl. now rewrite app_nil_r.
  - simpl Ball.peg_collisions.
    destruct (handle_peg_collision_ok b p g)
      as (b1 & p1 & g1 & E & [(Hov & _) | (_ & -> & -> & ->)]); [contradiction |].
    rewrite (bind_ok _ _ _ _ _ E). rewrite IH, <- app_assoc. reflexivity.
Qed.

(** One step of a ball that meets neither a wall, nor the ceiling, nor a peg,
    and stays below the speed cap: gravity, then the move, and the test for
    the scoring strip; the pegs and the random source are left alone. *)
Lemma fall_step b pegs box g :
  Ball.vx b = 0 ->
  0 <= Ball.vy b + GRAVITY <= MAX_BALL_SPEED ->
  Ball.radius b <= Ball.x b <= IZR SCREEN_WIDTH - Ball.radius b ->
  Ball.radius b <= Ball.y b ->
  Forall (fun p => Ball.radius b + Peg.radius p <= Rabs (Ball.x b - Peg.x p)) pegs ->
  exists b',
    Ball.update b pegs box g = Ok (b', pegs, g)
    /\ Ball.x b' = Ball.x b /\ Ball.vx b' = 0
    /\ Ball.vy b' = Ball.vy b + GRAVITY
    /\ Ball.y b' = Ball.y b + (Ball.vy b + GRAVITY)
    /\ Ball.radius b' = Ball.radius b /\ Ball.color b' = Ball.color b
    /\ (Ball.finalized b = false ->
        (Ball.finalized b' = true <-> box <= Ball.y b' + Ball.radius b')).
Proof.
  intros Hvx Hvy Hx Hy Hlane. unfold Ball.update.
  assert (Hslow : speed (Ball.set_vel b (Ball.vx b) (Ball.vy b + GRAVITY))
                  <= MAX_BALL_SPEED).
  { unfold speed. cbn [Ball.set_vel Ball.vx Ball.vy]. rewrite Hvx.
    replace (0 * 0 + (Ball.vy b + GRAVITY) * (Ball.vy b + GRAVITY))
      with (Rsqr (Ball.vy b + GRAVITY)) by (unfold Rsqr; ring).
    rewrite sqrt_Rsqr; lra. }
  rewrite (bind_ok _ _ _ _ _ (gravity_slow b g Hslow)).
  set (b1 := Ball.integrate (Ball.set_vel b (Ball.vx b) (Ball.vy b + GRAVITY))).
  assert (F1 : Ball.x b1 = Ball.x b /\ Ball.y b1 = Ball.y b + (Ball.vy b + GRAVITY)
               /\ Ball.radius b1 = Ball.radius b /\ Ball.vx b1 = 0
               /\ Ball.vy b1 = Ball.vy b + GRAVITY /\ Ball.color b1 = Ball.color b
               /\ Ball.finalized b1 = Ball.finalized b).
  { unfold b1. cbn. rewrite Hvx. repeat split; lra. }
  destruct F1 as (Hx1 & Hy1 & Hr1 & Hvx1 & Hvy1 & Hc1 & Hf1).
  assert (Hw : Ball.walls b1 = b1).
  { unfold Ball.walls. rewrite Hx1, Hr1.
    destruct (Rlt_dec (Ball.x b - Ball.radius b) 0); [lra |].
    destruct (Rlt_dec (IZR SCREEN_WIDTH) (Ball.x b + Ball.radius b)); [lra | reflexivity]. }
  assert (Hc : Ball.ceiling b1 = b1).
  { unfold Ball.ceiling. rewrite Hy1, Hr1.
    destruct (Rlt_dec (Ball.y b + (Ball.vy b + GRAVITY) - Ball.radius b) 0);
      [lra | reflexivity]. }
  rewrite Hw, Hc.
  assert (Hclear : Forall (fun p => ~ overlapping b1 p) pegs).
  { eapply Forall_impl; [| exact Hlane]. intros p Hp Hov.
    pose proof (x_offset_le_dist b1 p) as Hd. unfold overlapping, min_dist in Hov.
    rewrite Hx1, Hr1 in *. lra. }
  rewrite (bind_ok _ _ _ _ _ (peg_collisions_clear b1 pegs Hclear [] g)).
  unfold ret. simpl app. eexists. split; [reflexivity |].
  destruct (check_scoring_zone_keeps b1 box) as (Ex & Ey & Evx & Evy & Er & _).
  rewrite Ex, Ey, Evx, Evy, Er.
  repeat (split; [assumption |]).
  split; [unfold Ball.check_scoring_zone; destruct (Rle_dec _ _); exact Hc1 |].
  intros Hf. unfold Ball.check_scoring_zone.
  destruct (Rle_dec box (Ball.y b1 + Ball.radius b1)) as [Hin | Hout];
    cbn [Ball.set_finalized Ball.finalized]; rewrite <- ?Hy1, <- ?Hr1.
  - tauto.
  - rewrite Hf1, Hf. split; [discriminate | intros H; contradiction].
Qed.

(** X17.  Free fall.  A ball with no horizontal velocity, between the walls
    and at or below the ceiling line, whose lane no peg reaches, falls
    straight for as long as gravity keeps it below the speed cap: after [n]
    steps [x] is unchanged, the vertical velocity has grown by [n * GRAVITY]
    and [y] by [n * vy + 0.2 * n * (n + 1)], and neither a peg nor the random
    source has been touched. *)
Theorem free_fall n : forall b pegs box g,
  Ball.vx b = 0 ->
  0 <= Ball.vy b + GRAVITY ->
  Ball.vy b + GRAVITY * INR n <= MAX_BALL_SPEED ->
  Ball.radius b <= Ball.x b <= IZR SCREEN_WIDTH - Ball.radius b ->
  Ball.radius b <= Ball.y b ->
  Forall (fun p => Ball.radius b + Peg.radius p <= Rabs (Ball.x b - Peg.x p)) pegs ->
  exists b',
    ball_steps n b pegs box g = Ok (b', pegs, g)
    /\ Ball.x b' = Ball.x b /\ Ball.vx b' = 0
    /\ Ball.vy b' = Ball.vy b + GRAVITY * INR n
    /\ Ball.y b' = Ball.y b + INR n * Ball.vy b + 0.2 * INR n * (INR n + 1)
    /\ Ball.radius b' = Ball.radius b.
Proof.
  induction n as [| n IH]; intros b pegs box g Hvx Hdown Hcap Hx Hy Hlane.
  - exists b. simpl. repeat split; lra.
  - rewrite S_INR in *. pose proof (pos_INR n) as Hn. unfold GRAVITY in *.
    assert (Hstep : 0 <= Ball.vy b + 0.4 <= MAX_BALL_SPEED) by (unfold MAX_BALL_SPEED in *; lra).
    destruct (fall_step b pegs box g Hvx Hstep Hx Hy Hlane)
      as (b1 & E1 & Hx1 & Hvx1 & Hvy1 & Hy1 & Hr1 & _).
    unfold GRAVITY in *.
    destruct (IH b1 pegs box g) as (b' & E & Hx' & Hvx' & Hvy' & Hy' & Hr');
      try (rewrite ?Hx1, ?Hvy1, ?Hy1, ?Hr1; lra || assumption).
    exists b'. simpl ball_steps. rewrite (bind_ok _ _ _ _ _ E1).
    split; [exact E |]. rewrite Hx', Hvy', Hy', Hr', Hx1, Hvy1, Hy1, Hr1.
    repeat split; try assumption; lra.
Qed.

Lemma free_fall_witness :
  exists b',
    ball_steps 49 wall_ball [corner_peg] scoring_top quiet_random
    = Ok (b', [corner_peg], quiet_random)
    /\ Ball.x b' = 12 /\ Ball.vy b' = 19.6 /\ Ball.y b' = 520.
Proof.
  destruct (free_fall 49 wall_ball [corner_peg] scoring_top quiet_random)
    as (b' & E & Hx & _ & Hvy & Hy & _).
  - reflexivity.
  - unfold wall_ball, GRAVITY. simpl. lra.
  - unfold wall_ball, GRAVITY, MAX_BALL_SPEED. simpl. lra.
  - unfold wall_ball, BALL_RADIUS, SCREEN_WIDTH. simpl. lra.
  - unfold wall_ball, BALL_RADIUS. simpl. lra.
  - constructor; [| constructor].
    unfold wall_ball, corner_peg, BALL_RADIUS, PEG_RADIUS. simpl.
    unfold Rabs. destruct (Rcase_abs (12 - 85)); lra.
  - exists b'. split; [exact E |].
    unfold wall_ball, GRAVITY in *. simpl in *. repeat split; lra.
Defined.

(** ** A session that ends: one ball, dropped at the left wall *)

Lemma budget_one_session :
  exists game0 g1 G0 g2,
    PlinkoGame.new loud_random = Ok (game0, g1)
    /\ PlinkoGame.handle_events game0 budget_one_queue g1 = Ok (PlinkoGame.Running G0, g2)
    /\ PlinkoGame.state G0 = STATE_PLAY
    /\ PlinkoGame.balls_allowed G0 = 1%Z
    /\ PlinkoGame.balls_dropped G0 = 1%Z
    /\ PlinkoGame.score G0 = 0%Z
    /\ exists b, PlinkoGame.balls G0 = [b] /\ Ball.x b = 12 /\ Ball.vx b = 0
                 /\ Ball.vy b = 0 /\ Ball.y b = 30
                 /\ Ball.radius b = 12 /\ Ball.finalized b = false.
Proof.
  assert (Hc : match PlinkoGame.new loud_random with
               | Ok (game0, g1) =>
                   match PlinkoGame.handle_events game0 budget_one_queue g1 with
                   | Ok (PlinkoGame.Running game, _) =>
                       PlinkoGame.state game = STATE_PLAY
                       /\ PlinkoGame.balls_allowed game = 1%Z
                       /\ PlinkoGame.balls_dropped game = 1%Z
                       /\ PlinkoGame.score game = 0%Z
                       /\ match PlinkoGame.balls game with
                          | [b] => Ball.x b = 12 /\ Ball.vx b = 0 /\ Ball.vy b = 0
                                   /\ Ball.y b = 30 /\ Ball.radius b = 12
                                   /\ Ball.finalized b = false
                          | _ => False
                          end
                   | _ => False
                   end
               | Raise _ => False
               end).
  { vm_compute. repeat split; lra. }
  destruct (PlinkoGame.new loud_random) as [[game0 g1] | e] eqn:Enew; [| contradiction].
  destruct (PlinkoGame.handle_events game0 budget_one_queue g1)
    as [[[G0 |] g2] | e] eqn:E; try contradiction.
  destruct Hc as (Hst & Hal & Hdr & Hsc & Hb).
  exists game0, g1, G0, g2. split; [reflexivity |]. split; [exact E |].
  repeat (split; [assumption |]).
  destruct (PlinkoGame.balls G0) as [| b [| b2 rest]]; try contradiction.
  exists b. split; [reflexivity | exact Hb].
Qed.

Lemma falling_start :
  exists game0 g1 G0 g2,
    PlinkoGame.new loud_random = Ok (game0, g1)
    /\ PlinkoGame.handle_events game0 budget_one_queue g1 = Ok (PlinkoGame.Running G0, g2)
    /\ falling 0 G0.
Proof.
  destruct budget_one_session
    as (game0 & g1 & G0 & g2 & Enew & E & Hst & Hal & Hdr & Hsc
        & b & Hb & Hx & Hvx & Hvy & Hy & Hr & Hf).
  exists game0, g1, G0, g2. split; [exact Enew |]. split; [exact E |].
  assert (Hok : session_ok G0).
  { destruct (handle_events_ok budget_one_queue game0 g1 (new_session_ok _ _ _ Enew))
      as (outcome & g3 & E3 & Hnext).
    rewrite E in E3. injection E3 as <- _. now apply Hnext. }
  destruct Hok as (Hreach & _).
  split; [exact Hreach |]. repeat (split; [assumption |]).
  exists b. simpl INR. unfold BALL_RADIUS. repeat split; try assumption; lra.
Qed.

Lemma falling_pass n game g :
  falling n game -> (n <= 48)%nat ->
  exists b' pegs' g' game',
    PlinkoGame.update_balls (PlinkoGame.balls game) (map Peg.update (PlinkoGame.pegs game))
      scoring_top g = Ok ([b'], pegs', g')
    /\ PlinkoGame.update_play game g = Ok (game', g')
    /\ reachable game'
    /\ PlinkoGame.balls_allowed game' = 1%Z
    /\ PlinkoGame.balls_dropped game' = 1%Z
    /\ PlinkoGame.balls game' = filter (fun b => negb (Ball.finalized b)) [b']
    /\ PlinkoGame.score game'
       = score_after (PlinkoGame.boxes game) (filter Ball.finalized [b']) 0
    /\ Ball.x b' = 12 /\ Ball.vx b' = 0
    /\ Ball.vy b' = 0.4 * INR (S n)
    /\ Ball.y b' = 30 + 0.2 * INR (S n) * (INR (S n) + 1)
    /\ Ball.radius b' = BALL_RADIUS
    /\ (Ball.finalized b' = true <-> scoring_top <= Ball.y b' + Ball.radius b')
    /\ (PlinkoGame.balls game' = [] -> PlinkoGame.state game' = STATE_GAMEOVER)
    /\ (PlinkoGame.balls game' <> [] -> PlinkoGame.state game' = STATE_PLAY).
Proof.
  intros (Hreach & Hst & Hal & Hdr & Hsc & b & Hb & Hx & Hvx & Hvy & Hy & Hr & Hf) Hn.
  destruct (reachable_field_ok _ Hreach) as (_ & Hpegs & _).
  assert (Hn' : 0 <= INR n <= 48).
  { split; [apply pos_INR |]. replace 48 with (INR 48) by (rewrite INR_IZR_INZ; reflexivity).
    now apply le_INR. }
  destruct (fall_step b (map Peg.update (PlinkoGame.pegs game)) scoring_top g)
    as (b' & E & Hx' & Hvx' & Hvy' & Hy' & Hr' & _ & Hfin).
  - exact Hvx.
  - rewrite Hvy. unfold GRAVITY, MAX_BALL_SPEED. lra.
  - rewrite Hr, Hx. unfold BALL_RADIUS, SCREEN_WIDTH. lra.
  - rewrite Hr, Hy. unfold BALL_RADIUS. nra.
  - apply Forall_map. eapply Forall_impl; [| exact Hpegs].
    intros p (Hpr & Hpx & _). cbn [Peg.update Peg.set_particles Peg.radius Peg.x].
    rewrite Hr, Hpr, Hx. unfold BALL_RADIUS, PEG_RADIUS.
    unfold Rabs. destruct (Rcase_abs (12 - Peg.x p)); lra.
  - destruct (update_play_full game g)
      as (bs & pegs' & g' & game' & Eb & Ep & Hballs & _ & _ & Hscore & Ha & Hd & _
          & Hover & Hon).
    assert (Hbs : bs = [b']).
    { pose proof Eb as Eb'. rewrite Hb in Eb'. simpl PlinkoGame.update_balls in Eb'.
      rewrite Hf in Eb'. simpl negb in Eb'. cbv iota in Eb'.
      rewrite (bind_ok _ _ _ _ _ E) in Eb'. unfold bind, ret in Eb'.
      now injection Eb' as <- _ _. }
    subst bs. exists b', pegs', g', game'. split; [exact Eb |]. split; [exact Ep |].
    split; [eapply reach_update; eassumption |].
    split; [congruence |]. split; [congruence |]. split; [exact Hballs |].
    split; [rewrite Hscore, Hsc; reflexivity |].
    rewrite S_INR. unfold GRAVITY in *.
    split; [congruence |]. split; [exact Hvx' |].
    split; [rewrite Hvy', Hvy; lra |]. split; [rewrite Hy', Hy, Hvy; lra |].
    split; [congruence |]. split; [now apply Hfin |].
    split.
    + intros Hempty. apply Hover. split; [congruence | exact Hempty].
    + intros Hne. destruct Hon as (-> & _); [intros [_ H]; contradiction | exact Hst].
Qed.

Lemma falling_play n game g :
  falling n game -> (n <= 48)%nat ->
  exists b' g' game',
    PlinkoGame.update_play game g = Ok (game', g')
    /\ reachable game'
    /\ PlinkoGame.balls_allowed game' = 1%Z
    /\ PlinkoGame.balls_dropped game' = 1%Z
    /\ PlinkoGame.balls game' = filter (fun b => negb (Ball.finalized b)) [b']
    /\ PlinkoGame.score game'
       = score_after (PlinkoGame.boxes game) (filter Ball.finalized [b']) 0
    /\ Ball.x b' = 12 /\ Ball.vx b' = 0
    /\ Ball.vy b' = 0.4 * INR (S n)
    /\ Ball.y b' = 30 + 0.2 * INR (S n) * (INR (S n) + 1)
    /\ Ball.radius b' = BALL_RADIUS
    /\ (Ball.finalized b' = true <-> scoring_top <= Ball.y b' + Ball.radius b')
    /\ (PlinkoGame.balls game' = [] -> PlinkoGame.state game' = STATE_GAMEOVER)
    /\ (PlinkoGame.balls game' <> [] -> PlinkoGame.state game' = STATE_PLAY).
Proof.
  intros Hfall Hn.
  destruct (falling_pass n game g Hfall Hn) as (b' & pegs' & g' & game' & _ & H).
  now exists b', g', game'.
Qed.

Lemma falling_step n game g :
  falling n game -> (n < 48)%nat ->
  exists game' g', PlinkoGame.update_play game g = Ok (game', g') /\ falling (S n) game'.
Proof.
  intros Hfall Hn.
  pose proof Hfall as (_ & _ & _ & _ & Hsc0 & _).
  destruct (falling_play n game g Hfall) as
    (b' & g' & game' & Ep & Hreach & Ha & Hd & Hballs & Hscore & Hx & Hvx & Hvy & Hy & Hr
     & Hfin & _ & Hplay); [lia |].
  assert (Hn' : 0 <= INR (S n) <= 48).
  { split; [apply pos_INR |]. replace 48 with (INR 48) by (rewrite INR_IZR_INZ; reflexivity).
    apply le_INR. lia. }
  assert (Hnot : Ball.finalized b' = false).
  { destruct (Ball.finalized b') eqn:Ef; [| reflexivity]. exfalso.
    assert (Ht : scoring_top <= Ball.y b' + Ball.radius b') by now apply Hfin.
    rewrite Hy, Hr in Ht.
    unfold scoring_top, SCREEN_HEIGHT, BOX_HEIGHT, BALL_RADIUS in Ht.
    rewrite minus_IZR in Ht. remember (INR (S n)) as t. nra. }
  simpl filter in Hballs, Hscore. rewrite Hnot in Hballs, Hscore. simpl in Hballs, Hscore.
  exists game', g'. split; [exact Ep |].
  split; [exact Hreach |]. split; [apply Hplay; rewrite Hballs; discriminate |].
  split; [exact Ha |]. split; [exact Hd |]. split; [exact Hscore |].
  exists b'. repeat split; assumption.
Qed.

Lemma falling_lands game g :
  falling 48 game ->
  exists game' g',
    PlinkoGame.update_play game g = Ok (game', g')
    /\ PlinkoGame.state game' = STATE_GAMEOVER.
Proof.
  intros Hfall.
  destruct (falling_play 48 game g Hfall) as
    (b' & g' & game' & Ep & _ & _ & _ & Hballs & _ & _ & _ & _ & Hy & Hr & Hfin & Hover & _);
    [lia |].
  assert (Hyes : Ball.finalized b' = true).
  { apply Hfin. rewrite Hy, Hr, INR_IZR_INZ.
    unfold scoring_top, SCREEN_HEIGHT, BOX_HEIGHT, BALL_RADIUS.
    rewrite minus_IZR. change (Z.of_nat 49) with 49%Z. lra. }
  exists game', g'. split; [exact Ep |]. apply Hover.
  rewrite Hballs. simpl. now rewrite Hyes.
Qed.

Lemma falling_frames k : forall n game g,
  falling n game -> (n + k = 49)%nat -> (1 <= k)%nat ->
  exists game' g',
    PlinkoGame.main_loop game (repeat [] k) g = Ok (PlinkoGame.Running game', g')
    /\ PlinkoGame.state game' = STATE_GAMEOVER.
Proof.
  induction k as [| k IH]; intros n game g Hfall Hsum Hk; [lia |].
  pose proof Hfall as (_ & Hst & _).
  simpl repeat. simpl PlinkoGame.main_loop. unfold PlinkoGame.frame.
  simpl PlinkoGame.handle_events. unfold bind at 2. unfold ret at 1.
  unfold PlinkoGame.update. rewrite Hst.
  destruct (Nat.eq_dec k 0) as [-> | Hne].
  - assert (n = 48)%nat by lia. subst n.
    destruct (falling_lands game g Hfall) as (game' & g' & Ep & Hover).
    unfold bind. rewrite Ep. unfold ret. simpl. now exists game', g'.
  - destruct (falling_step n game g Hfall) as (game1 & g1 & Ep & Hnext); [lia |].
    unfold bind at 1. unfold bind at 1. rewrite Ep. unfold ret at 1.
    apply (IH (S n)); [exact Hnext | lia | lia].
Qed.

(** One ball is allowed, it is dropped against the left wall, and 49 play
    steps later it has landed: the session is over. *)
Lemma game_over_session :
  exists game, in_session game /\ PlinkoGame.state game = STATE_GAMEOVER.
Proof.
  destruct falling_start as (game0 & g1 & G0 & g2 & Enew & Eev & Hfall).
  destruct (falling_step 0 G0 g2 Hfall) as (G1 & g3 & Ep & Hfall1); [lia |].
  destruct (falling_frames 48 1 G1 g3 Hfall1) as (game & g' & Eloop & Hover); [lia | lia |].
  exists game. split; [| exact Hover].
  exists (budget_one_queue :: repeat [] 48), loud_random, g'.
  unfold PlinkoGame.main. rewrite (bind_ok _ _ _ _ _ Enew).
  change (budget_one_queue :: repeat [] 48)
    with (budget_one_queue :: repeat (@nil Input) 48).
  cbn [PlinkoGame.main_loop].
  assert (Hframe : PlinkoGame.frame game0 budget_one_queue g1
                   = Ok (PlinkoGame.Running G1, g3)).
  { unfold PlinkoGame.frame. rewrite (bind_ok _ _ _ _ _ Eev).
    pose proof Hfall as (_ & Hst & _).
    unfold PlinkoGame.update. rewrite Hst. unfold bind. rewrite Ep. reflexivity. }
  rewrite (bind_ok _ _ _ _ _ Hframe). exact Eloop.
Qed.

Lemma game_over_screen_witness :
  exists game,
    in_session game
    /\ PlinkoGame.state game = STATE_GAMEOVER
    /\ PlinkoGame.balls game = []
    /\ (10 * PlinkoGame.balls_allowed game <= PlinkoGame.score game
        <= 50 * PlinkoGame.balls_allowed game)%Z
    /\ (PlinkoGame.score game <= PlinkoGame.best_score game)%Z.
Proof.
  destruct game_over_session as (game & Hin & Hover).
  exists game. split; [exact Hin |]. split; [exact Hover |].
  destruct (game_over_screen game Hin Hover) as (Hb & _ & Hs & Hbest).
  split; [exact Hb |]. split; [exact Hs | exact Hbest].
Defined.

(** ** Pausing *)

Lemma paused_frames n : forall game queues g,
  PlinkoGame.state game = STATE_PAUSE ->
  PlinkoGame.main_loop game (repeat [] n ++ queues) g = PlinkoGame.main_loop game queues g.
Proof.
  induction n as [| n IH]; intros game queues g Hst; [reflexivity |].
  assert (Hframe : PlinkoGame.frame game [] g = Ok (PlinkoGame.Running game, g)).
  { cbv beta iota delta [PlinkoGame.frame PlinkoGame.handle_events PlinkoGame.update
                         bind ret].
    rewrite Hst. reflexivity. }
  simpl repeat. simpl app. cbn [PlinkoGame.main_loop].
  rewrite (bind_ok _ _ _ _ _ Hframe). now apply IH.
Qed.

(** X18.  A pause is invisible to the game.  From the play screen, Escape,
    any number of frames without events, and Escape again leave the game as
    one frame without events does: the play state comes back and the balls,
    the pegs and the random source have advanced by exactly one play step,
    that of the frame that resumes. *)
Theorem pause_round_trip game n g :
  PlinkoGame.state game = STATE_PLAY ->
  PlinkoGame.main_loop game
    ([INPUT KEYDOWN_ESCAPE] :: repeat [] n ++ [[INPUT KEYDOWN_ESCAPE]]) g
  = PlinkoGame.main_loop game [[]] g.
Proof.
  intros Hst.
  assert (Hback : PlinkoGame.set_state (PlinkoGame.set_state game STATE_PAUSE) STATE_PLAY
                  = game).
  { destruct game. simpl in Hst. subst. reflexivity. }
  assert (Hfirst : PlinkoGame.frame game [INPUT KEYDOWN_ESCAPE] g
                   = Ok (PlinkoGame.Running (PlinkoGame.set_state game STATE_PAUSE), g)).
  { cbv beta iota delta [PlinkoGame.frame PlinkoGame.handle_events PlinkoGame.handle_event
                         PlinkoGame.handle_play_events PlinkoGame.update bind ret].
    rewrite Hst. reflexivity. }
  assert (Hlast : PlinkoGame.frame (PlinkoGame.set_state game STATE_PAUSE)
                    [INPUT KEYDOWN_ESCAPE] g
                  = PlinkoGame.frame game [] g).
  { cbv beta iota delta [PlinkoGame.frame PlinkoGame.handle_events PlinkoGame.handle_event
                         PlinkoGame.handle_pause_events bind ret].
    replace (PlinkoGame.state (PlinkoGame.set_state game STATE_PAUSE)) with STATE_PAUSE
      by reflexivity.
    cbv iota. rewrite Hback. reflexivity. }
  cbn [PlinkoGame.main_loop]. rewrite (bind_ok _ _ _ _ _ Hfirst).
  rewrite paused_frames by reflexivity.
  cbn [PlinkoGame.main_loop]. unfold bind. rewrite Hlast. reflexivity.
Qed.

Lemma pause_round_trip_witness :
  PlinkoGame.state fresh_play = STATE_PLAY
  /\ PlinkoGame.main_loop fresh_play
       ([INPUT KEYDOWN_ESCAPE] :: repeat [] 3 ++ [[INPUT KEYDOWN_ESCAPE]]) quiet_random
     = PlinkoGame.main_loop fresh_play [[]] quiet_random.
Proof.
  split; [reflexivity | apply (pause_round_trip fresh_play 3 quiet_random); reflexivity].
Defined.

(** ** A landing: the ball dropped at the left wall reaches the boxes *)

Lemma falling_reach n : (n <= 48)%nat -> exists game, falling n game.
Proof.
  induction n as [| n IH]; intros Hn.
  - destruct falling_start as (game0 & g1 & G0 & g2 & _ & _ & H). now exists G0.
  - destruct IH as (game & H); [lia |].
    destruct (falling_step n game quiet_random H) as (game' & g' & _ & H'); [lia |].
    now exists game'.
Qed.

(** The step in which the ball dropped at [x = 12] lands: it is finalized,
    scored in a box and removed. *)
Lemma falling_landing game g :
  falling 48 game ->
  exists b' pegs' g' game',
    PlinkoGame.update_balls (PlinkoGame.balls game) (map Peg.update (PlinkoGame.pegs game))
      scoring_top g = Ok ([b'], pegs', g')
    /\ Ball.finalized b' = true
    /\ PlinkoGame.update_play game g = Ok (game', g')
    /\ reachable game'
    /\ PlinkoGame.balls game' = []
    /\ PlinkoGame.balls_dropped game' = 1%Z
    /\ PlinkoGame.score game = 0%Z
    /\ (10 <= PlinkoGame.score game' <= 50)%Z.
Proof.
  intros Hfall.
  pose proof Hfall as (Hreach & _ & _ & _ & Hsc0 & _).
  destruct (falling_pass 48 game g Hfall) as
    (b' & pegs' & g' & game' & Eb & Ep & Hreach' & _ & Hd & Hballs & Hscore & Hx & _ & _
     & Hy & Hr & Hfin & _); [lia |].
  assert (Hland : scoring_top <= Ball.y b' + Ball.radius b').
  { rewrite Hy, Hr, INR_IZR_INZ.
    unfold scoring_top, SCREEN_HEIGHT, BOX_HEIGHT, BALL_RADIUS.
    rewrite minus_IZR. change (Z.of_nat 49) with 49%Z. lra. }
  assert (Hyes : Ball.finalized b' = true) by now apply Hfin.
  simpl filter in Hballs, Hscore. rewrite Hyes in Hballs, Hscore. simpl in Hballs, Hscore.
  exists b', pegs', g', game'.
  split; [exact Eb |]. split; [exact Hyes |]. split; [exact Ep |].
  split; [exact Hreach' |]. split; [exact Hballs |]. split; [exact Hd |].
  split; [exact Hsc0 |].
  destruct (reachable_board_ok _ Hreach) as (_ & _ & Hboxes).
  rewrite Hscore.
  apply (score_in_boxes_range (PlinkoGame.boxes game) b' 0 (reachable_boxes _ Hreach)).
  rewrite Hboxes. apply boxes_cover; [| exact Hland].
  rewrite Hx. unfold SCREEN_WIDTH. lra.
Qed.

Lemma score_never_decreases_witness :
  exists game g,
    reachable game
    /\ (exists rect value, In (rect, value) (PlinkoGame.boxes game)
                           /\ PlinkoGame.box_matches rect parked_ball = true)
    /\ (PlinkoGame.score game
        < PlinkoGame.score (PlinkoGame.handle_ball_box_score game parked_ball))%Z
    /\ exists game' g',
         PlinkoGame.update_play game g = Ok (game', g')
         /\ (PlinkoGame.score game <= PlinkoGame.score game')%Z
         /\ (PlinkoGame.score game + 10 <= PlinkoGame.score game')%Z.
Proof.
  destruct (falling_reach 48) as (game & Hfall); [lia |].
  pose proof Hfall as (Hreach & _).
  exists game, quiet_random. split; [exact Hreach |].
  assert (Hmatch : exists rect value, In (rect, value) (PlinkoGame.boxes game)
                                      /\ PlinkoGame.box_matches rect parked_ball = true).
  { destruct (reachable_board_ok _ Hreach) as (_ & _ & Hboxes). rewrite Hboxes.
    apply boxes_cover; unfold parked_ball, scoring_top, SCREEN_WIDTH, SCREEN_HEIGHT,
      BOX_HEIGHT, BALL_RADIUS; cbn [Ball.x Ball.y Ball.radius];
      rewrite ?minus_IZR; lra. }
  split; [exact Hmatch |].
  destruct (score_never_decreases game quiet_random) as (_ & H).
  destruct (H Hreach) as (_ & _ & Hgain & _ & (game' & g' & Ep & Hle) & _).
  split; [exact (Hgain parked_ball Hmatch) |].
  exists game', g'. split; [exact Ep |]. split; [exact Hle |].
  destruct (falling_landing game quiet_random Hfall)
    as (_ & _ & g1 & game1 & _ & _ & Ep1 & _ & _ & _ & Hzero & Hten).
  rewrite Ep1 in Ep. injection Ep as <- _. lia.
Defined.

Lemma every_landing_scores_witness :
  exists game g,
    reachable game
    /\ exists bs pegs' g' game',
         PlinkoGame.update_balls (PlinkoGame.balls game)
           (map Peg.update (PlinkoGame.pegs game)) scoring_top g = Ok (bs, pegs', g')
         /\ PlinkoGame.update_play game g = Ok (game', g')
         /\ length (filter Ball.finalized bs) = 1%nat
         /\ (PlinkoGame.score game + 10 * Z.of_nat (length (filter Ball.finalized bs))
             <= PlinkoGame.score game'
             <= PlinkoGame.score game
                + 50 * Z.of_nat (length (filter Ball.finalized bs)))%Z.
Proof.
  destruct (falling_reach 48) as (game & Hfall); [lia |].
  pose proof Hfall as (Hreach & _).
  exists game, quiet_random. split; [exact Hreach |].
  destruct (every_landing_scores game quiet_random Hreach)
    as (bs & pegs' & g' & game' & Eb & Ep & _ & Hbounds).
  exists bs, pegs', g', game'. split; [exact Eb |]. split; [exact Ep |].
  split; [| exact Hbounds].
  destruct (falling_landing game quiet_random Hfall)
    as (b1 & pegs1 & g1 & game1 & Eb1 & Hyes & _).
  rewrite Eb1 in Eb. injection Eb as <- _ _. simpl. now rewrite Hyes.
Defined.

Lemma score_counts_landings_witness :
  exists game,
    reachable game
    /\ PlinkoGame.balls_dropped game = 1%Z
    /\ PlinkoGame.balls game = []
    /\ (10 * (PlinkoGame.balls_dropped game - Z.of_nat (length (PlinkoGame.balls game)))
        <= PlinkoGame.score game
        <= 50 * (PlinkoGame.balls_dropped game
                 - Z.of_nat (length (PlinkoGame.balls game))))%Z
    /\ (10 <= PlinkoGame.score game <= 50)%Z.
Proof.
  destruct (falling_reach 48) as (game0 & Hfall); [lia |].
  destruct (falling_landing game0 quiet_random Hfall)
    as (_ & _ & g' & game & _ & _ & _ & Hreach & Hballs & Hd & _ & _).
  exists game. split; [exact Hreach |]. split; [exact Hd |]. split; [exact Hballs |].
  destruct (score_counts_landings game Hreach) as [H _].
  split; [exact H |]. rewrite Hd, Hballs in H. simpl in H. lia.
Defined.

(** ** A hit: the ball dropped above the middle peg of the first row *)

Lemma handle_peg_collision_draws b p g :
  exists b' p' g',
    Ball.handle_peg_collision b p g = Ok (b', p', g')
    /\ (Random.draws g <= Random.draws g')%nat
    /\ (overlapping b p ->
        Random.draws g' = (Random.draws g + 21)%nat
        /\ exists burst, Peg.particles p' = Peg.particles p ++ burst
                         /\ length burst = PARTICLE_COUNT_ON_COLLISION).
Proof.
  unfold Ball.handle_peg_collision.
  rewrite (bind_ok _ _ g (dist_centers b p) g)
    by (unfold lift; rewrite py_sqrt_ok by apply sum_squares_nonneg; reflexivity).
  fold (min_dist b p).
  destruct (Rlt_dec (dist_centers b p) (min_dist b p)) as [Hov | Hno].
  - assert (Hn : (if Req_dec_T (dist_centers b p) 0 then ret (1, 0)
                  else nx <- lift (py_div (Ball.x b - Peg.x p) (dist_centers b p)) ;;
                       ny <- lift (py_div (Ball.y b - Peg.y p) (dist_centers b p)) ;;
                       ret (nx, ny)) g = Ok (collision_normal b p, g)).
    { unfold collision_normal.
      destruct (Req_dec_T (dist_centers b p) 0) as [E | NE]; [reflexivity |].
      unfold bind, lift, ret. now rewrite !py_div_ok by exact NE. }
    rewrite (bind_ok _ _ _ _ _ Hn).
    destruct (collision_normal b p) as [nx ny] eqn:En.
    unfold bind at 1. unfold choice at 1.
    match goal with |- context [bind (for_each ?ks (Ball.spawn_particle ?px ?py ?c) ?ps) _ ?g1] =>
      destruct (spawn_burst_detail px py c ks ps g1) as (burst & g' & E & L & D & _) end.
    rewrite (bind_ok _ _ _ _ _ E). unfold ret.
    eexists _, _, g'. split; [reflexivity |].
    unfold range in L, D. rewrite length_seq in L, D. simpl Random.draws in D.
    split; [lia |]. intros _. split; [unfold PARTICLE_COUNT_ON_COLLISION in D; lia |].
    exists burst. split; [reflexivity | exact L].
  - exists b, p, g. split; [reflexivity |]. split; [lia |]. intros H. contradiction.
Qed.

Lemma peg_collisions_draws pegs : forall b done g b' pegs' g',
  Ball.peg_collisions b pegs done g = Ok (b', pegs', g') ->
  (Random.draws g <= Random.draws g')%nat.
Proof.
  induction pegs as [| p pegs IH]; intros b done g b' pegs' g' E.
  - simpl in E. unfold ret in E. injection E as _ _ <-. lia.
  - simpl Ball.peg_collisions in E.
    destruct (handle_peg_collision_draws b p g) as (b1 & p1 & g1 & E1 & Hle & _).
    rewrite (bind_ok _ _ _ _ _ E1) in E. apply IH in E. lia.
Qed.

(** The pass of lines 137-139 over a list whose first peg is out of reach and
    whose second peg overlaps the ball. *)
Lemma first_hit_pass b p0 p1 rest g :
  ~ overlapping b p0 -> overlapping b p1 ->
  exists b' p1' rest' g',
    Ball.peg_collisions b (p0 :: p1 :: rest) [] g = Ok (b', p0 :: p1' :: rest', g')
    /\ (exists burst, Peg.particles p1' = Peg.particles p1 ++ burst
                      /\ length burst = PARTICLE_COUNT_ON_COLLISION)
    /\ Peg.y p1' = Peg.y p1
    /\ (Random.draws g + 21 <= Random.draws g')%nat.
Proof.
  intros Hno Hov. simpl Ball.peg_collisions.
  destruct (handle_peg_collision_ok b p0 g)
    as (b0 & q0 & g0 & E0 & [(H & _) | (_ & -> & -> & ->)]); [contradiction |].
  rewrite (bind_ok _ _ _ _ _ E0). cbv beta iota. simpl app.
  destruct (handle_peg_collision_draws b p1 g) as (b1 & q1 & g1 & E1 & _ & Hd).
  destruct (Hd Hov) as (Hdraws & burst & Hparts & Hlen).
  rewrite (bind_ok _ _ _ _ _ E1). cbv beta iota. simpl app.
  destruct (peg_collisions_inv (fun _ => True) rest (fun _ _ _ _ _ => I) b1 [p0; q1] g1 I)
    as (b2 & rest' & g2 & E2 & _ & _).
  exists b2, q1, rest', g2. split; [rewrite E2; reflexivity |].
  split; [exists burst; split; assumption |].
  split.
  - destruct (handle_peg_collision_peg _ _ _ _ _ _ E1) as (extra & -> & _). reflexivity.
  - apply peg_collisions_draws in E2. lia.
Qed.

(** A step of a ball that falls straight, up to the pass over the pegs. *)
Lemma ball_update_falls b pegs box g :
  Ball.vx b = 0 ->
  0 <= Ball.vy b + GRAVITY <= MAX_BALL_SPEED ->
  Ball.radius b <= Ball.x b <= IZR SCREEN_WIDTH - Ball.radius b ->
  Ball.radius b <= Ball.y b ->
  exists b1,
    Ball.update b pegs box g
    = (' (self, pegs') <- Ball.peg_collisions b1 pegs [] ;;
       ret (Ball.check_scoring_zone self box, pegs')) g
    /\ Ball.x b1 = Ball.x b /\ Ball.y b1 = Ball.y b + (Ball.vy b + GRAVITY)
    /\ Ball.radius b1 = Ball.radius b /\ Ball.vx b1 = 0
    /\ Ball.vy b1 = Ball.vy b + GRAVITY
    /\ Ball.finalized b1 = Ball.finalized b.
Proof.
  intros Hvx Hvy Hx Hy. unfold Ball.update.
  assert (Hslow : speed (Ball.set_vel b (Ball.vx b) (Ball.vy b + GRAVITY))
                  <= MAX_BALL_SPEED).
  { unfold speed. cbn [Ball.set_vel Ball.vx Ball.vy]. rewrite Hvx.
    replace (0 * 0 + (Ball.vy b + GRAVITY) * (Ball.vy b + GRAVITY))
      with (Rsqr (Ball.vy b + GRAVITY)) by (unfold Rsqr; ring).
    rewrite sqrt_Rsqr; lra. }
  rewrite (bind_ok _ _ _ _ _ (gravity_slow b g Hslow)).
  set (b1 := Ball.integrate (Ball.set_vel b (Ball.vx b) (Ball.vy b + GRAVITY))).
  assert (F1 : Ball.x b1 = Ball.x b /\ Ball.y b1 = Ball.y b + (Ball.vy b + GRAVITY)
               /\ Ball.radius b1 = Ball.radius b /\ Ball.vx b1 = 0
               /\ Ball.vy b1 = Ball.vy b + GRAVITY
               /\ Ball.finalized b1 = Ball.finalized b).
  { unfold b1. cbn. rewrite Hvx. repeat split; lra. }
  destruct F1 as (Hx1 & Hy1 & Hr1 & Hvx1 & Hvy1 & Hf1).
  assert (Hw : Ball.walls b1 = b1).
  { unfold Ball.walls. rewrite Hx1, Hr1.
    destruct (Rlt_dec (Ball.x b - Ball.radius b) 0); [lra |].
    destruct (Rlt_dec (IZR SCREEN_WIDTH) (Ball.x b + Ball.radius b)); [lra | reflexivity]. }
  assert (Hc : Ball.ceiling b1 = b1).
  { unfold Ball.ceiling. rewrite Hy1, Hr1.
    destruct (Rlt_dec (Ball.y b + (Ball.vy b + GRAVITY) - Ball.radius b) 0);
      [lra | reflexivity]. }
  rewrite Hw, Hc. exists b1. split; [reflexivity |]. repeat split; assumption.
Qed.

Lemma dropping_start : exists game, dropping 0 game.
Proof.
  destruct (new_ok quiet_random) as (pegs & g1 & E & T).
  destruct (PlinkoGame.handle_play_events
              (PlinkoGame.init_boxes (PlinkoGame.set_pegs blank_game pegs))
              (MOUSEBUTTONDOWN_LEFT 400 300 true) loud_random) as [[game g2] | e] eqn:Eclick;
    [| discriminate Eclick].
  assert (Hreach : reachable game).
  { eapply reach_event; [eapply reach_new; exact E | exact Eclick]. }
  exists game. split; [exact Hreach |].
  injection Eclick as <- _. eexists. split; [reflexivity |].
  cbn [Ball.x Ball.y Ball.vx Ball.vy Ball.radius Ball.finalized Ball.set_vel Ball.new
       Random.draw_unit Random.draws Random.advance loud_random INR].
  repeat split; lra.
Qed.

Lemma dropping_step n game g :
  dropping n game -> (n < 10)%nat ->
  exists game' g', PlinkoGame.update_play game g = Ok (game', g') /\ dropping (S n) game'.
Proof.
  intros (Hreach & b & Hb & Hx & Hvx & Hvy & Hy & Hr & Hf) Hn.
  destruct (reachable_field_ok _ Hreach) as (_ & Hpegs & _).
  assert (Hn' : 0 <= INR n <= 9).
  { split; [apply pos_INR |]. replace 9 with (INR 9) by (rewrite INR_IZR_INZ; reflexivity).
    apply le_INR. lia. }
  destruct (ball_update_falls b (map Peg.update (PlinkoGame.pegs game)) scoring_top g)
    as (b1 & Eupd & Hx1 & Hy1 & Hr1 & Hvx1 & Hvy1 & Hf1).
  - exact Hvx.
  - rewrite Hvy. unfold GRAVITY, MAX_BALL_SPEED. lra.
  - rewrite Hr, Hx. unfold BALL_RADIUS, SCREEN_WIDTH. lra.
  - rewrite Hr, Hy. unfold BALL_RADIUS. nra.
  - assert (Hlow : Ball.y b1 <= 52) by (rewrite Hy1, Hy, Hvy; unfold GRAVITY; nra).
    assert (Hclear : Forall (fun p => ~ overlapping b1 p)
                       (map Peg.update (PlinkoGame.pegs game))).
    { apply Forall_map. eapply Forall_impl; [| exact Hpegs].
      intros p (Hpr & _ & Hpy & _) Hov.
      pose proof (y_offset_le_dist b1 (Peg.update p)) as Hd.
      unfold overlapping, min_dist in Hov.
      cbn [Peg.update Peg.set_particles Peg.radius Peg.y] in Hd, Hov.
      rewrite Hr1, Hr, Hpr in Hov. unfold BALL_RADIUS, PEG_RADIUS in Hov.
      unfold Rabs in Hd. destruct (Rcase_abs (Ball.y b1 - Peg.y p)) in Hd; lra. }
    rewrite (bind_ok _ _ _ _ _ (peg_collisions_clear b1 _ Hclear [] g)) in Eupd.
    cbv beta iota in Eupd. simpl app in Eupd. unfold ret in Eupd.
    assert (Hz : Ball.check_scoring_zone b1 scoring_top = b1).
    { unfold Ball.check_scoring_zone, scoring_top, SCREEN_HEIGHT, BOX_HEIGHT.
      rewrite minus_IZR.
      destruct (Rle_dec (600 - 80) (Ball.y b1 + Ball.radius b1)) as [H | H];
        [| reflexivity].
      rewrite Hr1, Hr in H. unfold BALL_RADIUS in H. lra. }
    rewrite Hz in Eupd.
    destruct (update_play_full game g)
      as (bs & pegs' & g' & game' & Eb & Ep & Hballs & _).
    rewrite Hb in Eb. simpl PlinkoGame.update_balls in Eb.
    rewrite Hf in Eb. simpl negb in Eb. cbv iota in Eb.
    rewrite (bind_ok _ _ _ _ _ Eupd) in Eb. unfold bind, ret in Eb.
    injection Eb as <- _ _.
    exists game', g'. split; [exact Ep |]. split; [eapply reach_update; eassumption |].
    exists b1. rewrite Hballs. simpl filter. rewrite Hf1, Hf. simpl negb. cbv iota.
    split; [reflexivity |]. rewrite S_INR. unfold GRAVITY in *.
    split; [congruence |]. split; [exact Hvx1 |].
    split; [rewrite Hvy1, Hvy; lra |]. split; [rewrite Hy1, Hy, Hvy; lra |].
    split; [congruence | congruence].
Qed.

Lemma dropping_reach n : (n <= 10)%nat -> exists game, dropping n game.
Proof.
  induction n as [| n IH]; intros Hn; [exact dropping_start |].
  destruct IH as (game & H); [lia |].
  destruct (dropping_step n game quiet_random H) as (game' & g' & _ & H'); [lia |].
  now exists game'.
Qed.

(** The layout starts with the first row, whose first two pegs are at
    [x = 330] and [x = 400]. *)
Lemma triangular_head pegs :
  triangular pegs ->
  exists p0 p1 rest,
    pegs = p0 :: p1 :: rest
    /\ Peg.x p0 = 330 /\ Peg.y p0 = 80 /\ Peg.radius p0 = PEG_RADIUS
    /\ Peg.x p1 = 400 /\ Peg.y p1 = 80 /\ Peg.radius p1 = PEG_RADIUS.
Proof.
  intros (rows & -> & F).
  unfold NUM_PEG_ROWS, range in F. simpl seq in F.
  inversion F as [| r0 row0 rs rows' Hrow0 F' ]; subst.
  unfold row_of, range in Hrow0. simpl seq in Hrow0.
  inversion Hrow0 as [| i0 p0 is0 ps0 (c0 & Hp0) Hrest0]; subst.
  inversion Hrest0 as [| i1 p1 is1 ps1 (c1 & Hp1) Hrest1]; subst.
  simpl concat. eexists _, _, _. split; [reflexivity |].
  cbn [Peg.x Peg.y Peg.radius Peg.new].
  unfold row_start_x, row_y, PEG_SPACING_X, PEG_SPACING_Y, PEG_OFFSET_TOP, SCREEN_WIDTH.
  simpl INR. repeat split; lra.
Qed.

Lemma dropping_poised game : dropping 10 game -> poised game.
Proof.
  intros (Hreach & b & Hb & Hx & Hvx & Hvy & Hy & Hr & Hf).
  destruct (reachable_fresh _ Hreach) as (fresh & T & F).
  destruct (triangular_head _ T)
    as (q0 & q1 & qs & -> & Hx0 & Hy0 & Hr0 & Hx1 & Hy1 & Hr1).
  inversion F as [| a0 p0 l0 l0' (Ex0 & Ey0 & Er0) F0 Ea Epegs]; subst.
  inversion F0 as [| a1 p1 l1 l1' (Ex1 & Ey1 & Er1) F1]; subst.
  exists b, p0, p1, l1'.
  rewrite INR_IZR_INZ in Hvy, Hy. change (Z.of_nat 10) with 10%Z in Hvy, Hy.
  split; [exact Hb |]. split; [exact Hx |]. split; [lra |]. split; [exact Hvx |].
  split; [lra |]. split; [exact Hr |]. split; [exact Hf |].
  split; [symmetry; assumption |].
  repeat split; congruence.
Qed.

(** One play step of a poised game: the ball hits the peg at [(400, 80)],
    which receives the burst and so makes the step draw. *)
Lemma poised_hit game g :
  poised game ->
  exists game' g' p,
    PlinkoGame.update_play game g = Ok (game', g')
    /\ In p (PlinkoGame.pegs game') /\ Peg.y p = 80
    /\ (PARTICLE_COUNT_ON_COLLISION <= length (Peg.particles p))%nat
    /\ (Random.draws g + 21 <= Random.draws g')%nat.
Proof.
  intros (b & p0 & p1 & rest & Hb & Hx & Hy & Hvx & Hvy & Hr & Hf & Hpegs
          & Hx0 & Hy0 & Hr0 & Hx1 & Hy1 & Hr1).
  destruct (ball_update_falls b (map Peg.update (PlinkoGame.pegs game)) scoring_top g)
    as (b1 & Eupd & Hbx & Hby & Hbr & Hbvx & Hbvy & Hbf).
  - exact Hvx.
  - rewrite Hvy. unfold GRAVITY, MAX_BALL_SPEED. lra.
  - rewrite Hr, Hx. unfold BALL_RADIUS, SCREEN_WIDTH. lra.
  - rewrite Hr, Hy. unfold BALL_RADIUS. lra.
  - rewrite Hpegs in Eupd. simpl map in Eupd.
    destruct (first_hit_pass b1 (Peg.update p0) (Peg.update p1) (map Peg.update rest) g)
      as (b' & p1' & rest' & g1 & Epass & (burst & Hburst & Hlen) & Hpy & Hdraws).
    + intros Hov. pose proof (x_offset_le_dist b1 (Peg.update p0)) as Hd.
      unfold overlapping, min_dist in Hov.
      cbn [Peg.update Peg.set_particles Peg.radius Peg.x] in Hd, Hov.
      rewrite Hbr, Hr, Hr0 in Hov. rewrite Hbx, Hx, Hx0 in Hd.
      unfold BALL_RADIUS, PEG_RADIUS in Hov.
      unfold Rabs in Hd. destruct (Rcase_abs (400 - 330)) in Hd; lra.
    + unfold overlapping, min_dist.
      pose proof (dist_centers_sqr b1 (Peg.update p1)) as Hsq.
      pose proof (dist_centers_nonneg b1 (Peg.update p1)) as Hpos.
      cbn [Peg.update Peg.set_particles Peg.radius Peg.x Peg.y] in Hsq |- *.
      rewrite Hbx, Hx, Hx1, Hby, Hy, Hvy, Hy1 in Hsq. rewrite Hbr, Hr, Hr1.
      unfold GRAVITY in Hsq. unfold BALL_RADIUS, PEG_RADIUS.
      apply Rnot_le_lt. intros Hge.
      assert (24 * 24 <= dist_centers b1 (Peg.update p1) * dist_centers b1 (Peg.update p1))
        by nra.
      lra.
    + rewrite (bind_ok _ _ _ _ _ Epass) in Eupd. cbv beta iota in Eupd. unfold ret in Eupd.
      destruct (update_play_full game g)
        as (bs & pegs' & g' & game' & Eb & Ep & _ & Hpg & _).
      rewrite Hb, Hpegs in Eb. simpl map in Eb. simpl PlinkoGame.update_balls in Eb.
      rewrite Hf in Eb. simpl negb in Eb. cbv iota in Eb.
      rewrite (bind_ok _ _ _ _ _ Eupd) in Eb. unfold bind, ret in Eb.
      injection Eb as _ Hps Hg. subst pegs' g'.
      exists game', g1, p1'. split; [exact Ep |].
      split; [rewrite Hpg; right; left; reflexivity |].
      split; [rewrite Hpy; cbn [Peg.update Peg.set_particles Peg.y]; exact Hy1 |].
      split; [rewrite Hburst, length_app; lia | exact Hdraws].
Qed.

(** A reachable game in which a peg of the first row has been hit. *)
Lemma hit_game :
  exists game p,
    reachable game
    /\ In p (PlinkoGame.pegs game) /\ Peg.y p = 80
    /\ (PARTICLE_COUNT_ON_COLLISION <= length (Peg.particles p))%nat.
Proof.
  destruct (dropping_reach 10) as (game0 & Hdrop); [lia |].
  pose proof Hdrop as (Hreach & _).
  destruct (poised_hit game0 quiet_random (dropping_poised _ Hdrop))
    as (game & g' & p & Ep & Hin & Hy & Hlen & _).
  exists game, p. split; [eapply reach_update; eassumption |].
  repeat split; assumption.
Qed.

Lemma repainted_same_places l : Forall2 same_place l (map repainted l).
Proof. induction l as [| p l IH]; constructor; [repeat split | exact IH]. Qed.

Lemma repainted_poised game :
  poised game ->
  poised (PlinkoGame.set_pegs game (map repainted (PlinkoGame.pegs game))).
Proof.
  intros (b & p0 & p1 & rest & Hb & Hx & Hy & Hvx & Hvy & Hr & Hf & Hpegs
          & Hx0 & Hy0 & Hr0 & Hx1 & Hy1 & Hr1).
  exists b, (repainted p0), (repainted p1), (map repainted rest).
  split; [exact Hb |]. repeat (split; [assumption |]).
  split; [cbn [PlinkoGame.set_pegs PlinkoGame.pegs]; rewrite Hpegs; reflexivity |].
  cbn [repainted Peg.x Peg.y Peg.radius]. repeat split; assumption.
Qed.

Lemma particles_stay_live_witness :
  exists game p,
    reachable game
    /\ In p (PlinkoGame.pegs game)
    /\ (PARTICLE_COUNT_ON_COLLISION <= length (Peg.particles p))%nat
    /\ Forall (fun q => (0 < Particle.lifetime q <= PARTICLE_LIFETIME)%Z) (Peg.particles p)
    /\ Forall (fun pg =>
                 Forall (fun q => (0 < Particle.lifetime q <= PARTICLE_LIFETIME)%Z)
                   (Peg.particles pg))
         (PlinkoGame.pegs game).
Proof.
  destruct hit_game as (game & p & Hreach & Hin & _ & Hlen).
  exists game, p. split; [exact Hreach |]. split; [exact Hin |]. split; [exact Hlen |].
  pose proof (particles_stay_live game Hreach) as H.
  split; [| exact H]. rewrite Forall_forall in H. now apply H.
Defined.

Lemma last_row_never_hit_witness :
  exists game hit,
    reachable game
    /\ In hit (PlinkoGame.pegs game) /\ Peg.y hit = 80
    /\ (PARTICLE_COUNT_ON_COLLISION <= length (Peg.particles hit))%nat
    /\ (exists p, In p (PlinkoGame.pegs game) /\ Peg.y p = 570)
    /\ Forall (fun p => IZR (SCREEN_HEIGHT - BOX_HEIGHT) < Peg.y p -> Peg.particles p = [])
         (PlinkoGame.pegs game).
Proof.
  destruct hit_game as (game & hit & Hreach & Hin & Hy & Hlen).
  exists game, hit. split; [exact Hreach |]. split; [exact Hin |]. split; [exact Hy |].
  split; [exact Hlen |]. exact (last_row_never_hit game Hreach).
Defined.

Lemma play_ignores_randomness_witness :
  exists a b,
    reachable a
    /\ PlinkoGame.pegs b = map repainted (PlinkoGame.pegs a)
    /\ same_play a b
    /\ exists a' g1' b' g2',
         PlinkoGame.update_play a quiet_random = Ok (a', g1')
         /\ PlinkoGame.update_play b loud_random = Ok (b', g2')
         /\ PlinkoGame.balls a' = PlinkoGame.balls b'
         /\ PlinkoGame.score a' = PlinkoGame.score b'
         /\ (Random.draws quiet_random + 21 <= Random.draws g1')%nat
         /\ (Random.draws loud_random + 21 <= Random.draws g2')%nat.
Proof.
  destruct (dropping_reach 10) as (a & Hdrop); [lia |].
  pose proof Hdrop as (Hreach & _).
  pose proof (dropping_poised _ Hdrop) as Ha.
  pose proof (repainted_poised _ Ha) as Hb.
  exists a, (PlinkoGame.set_pegs a (map repainted (PlinkoGame.pegs a))).
  split; [exact Hreach |]. split; [reflexivity |].
  assert (Hsame : same_play a (PlinkoGame.set_pegs a (map repainted (PlinkoGame.pegs a)))).
  { repeat (split; [reflexivity |]). apply repainted_same_places. }
  split; [exact Hsame |].
  destruct (play_ignores_randomness a _ quiet_random loud_random Hsame)
    as (a' & g1' & b' & g2' & Ea & Eb & Hballs & Hscore & _).
  exists a', g1', b', g2'.
  split; [exact Ea |]. split; [exact Eb |]. split; [exact Hballs |]. split; [exact Hscore |].
  destruct (poised_hit a quiet_random Ha) as (a1 & h1 & _ & Ea1 & _ & _ & _ & Hd1).
  destruct (poised_hit _ loud_random Hb) as (b1 & h2 & _ & Eb1 & _ & _ & _ & Hd2).
  rewrite Ea in Ea1. injection Ea1 as _ <-. rewrite Eb in Eb1. injection Eb1 as _ <-.
  split; assumption.
Defined.
